(** * TorrentFlow: the job orchestration layer of [src/main.py]

    A shallow embedding of the [TorrentManager] class and of the request
    handlers that read and write its registries, followed by the properties
    of the specification that were checked against it.

    Conventions of the embedding.
    - Python [str] values are [string]s; a character is a code point below
      256, which covers every literal the code compares against.
    - [bytes] values are [list byte].
    - [float] timestamps are integers (clock ticks): the code only stores and
      compares them.  Other floats ([progress], [ratio]) are rationals.
    - A raised exception is a value of [result]; [HTTPException(status, detail)]
      is [Err status detail].
    - Everything outside the process (libtorrent, the HTTP client, the clock,
      the uuid generator) is an explicit [env] argument of the operation that
      consults it. *)

From Stdlib Require Import ZArith QArith String Ascii Strings.Byte List Bool Lia.
From Stdlib Require Import Sorting.Sorted Sorting.Permutation.
From stdpp Require Import gmap strings pretty list fin_maps.

Open Scope string_scope.
Open Scope Z_scope.

(** ** Python strings *)

Module PyStr.

Definition code (c : ascii) : N := N_of_ascii c.

(** [str.isspace] on code points below 256. *)
Definition isspace (c : ascii) : bool :=
  let n := code c in
  ((9 <=? n) && (n <=? 13) || (28 <=? n) && (n <=? 32)
   || (n =? 133) || (n =? 160))%N.

Fixpoint lstrip (s : string) : string :=
  match s with
  | EmptyString => EmptyString
  | String c r => if isspace c then lstrip r else s
  end.

Fixpoint rstrip (s : string) : string :=
  match s with
  | EmptyString => EmptyString
  | String c r =>
      match rstrip r with
      | EmptyString => if isspace c then EmptyString else String c EmptyString
      | r' => String c r'
      end
  end.

(** [s.strip()] *)
Definition strip (s : string) : string := rstrip (lstrip s).

(** [str.lower] on one code point below 256: A-Z and the Latin-1 capitals
    (0xC0-0xDE without the multiplication sign 0xD7) move up by 32. *)
Definition lower_char (c : ascii) : ascii :=
  let n := code c in
  if ((65 <=? n) && (n <=? 90)
      || (192 <=? n) && (n <=? 222) && negb (n =? 215))%N
  then ascii_of_N (n + 32) else c.

Fixpoint lower (s : string) : string :=
  match s with
  | EmptyString => EmptyString
  | String c r => String (lower_char c) (lower r)
  end.

(** [s.startswith(p)] *)
Definition startswith (s p : string) : bool := String.prefix p s.

(** [c in chars] for a character [c] *)
Fixpoint char_in (c : ascii) (chars : string) : bool :=
  match chars with
  | EmptyString => false
  | String d r => Ascii.eqb c d || char_in c r
  end.

(** [all(p(c) for c in s)] *)
Fixpoint all (p : ascii -> bool) (s : string) : bool :=
  match s with
  | EmptyString => true
  | String c r => p c && all p r
  end.

(** [''.join(c for c in s if p(c))] *)
Fixpoint keep (p : ascii -> bool) (s : string) : string :=
  match s with
  | EmptyString => EmptyString
  | String c r => if p c then String c (keep p r) else keep p r
  end.

(** [sub in s] *)
Fixpoint contains (s sub : string) : bool :=
  String.prefix sub s ||
  match s with
  | EmptyString => false
  | String _ r => contains r sub
  end.

(** [s.split(sep)] for a one-character separator: [cur] is the piece being
    read, kept reversed. *)
Fixpoint split_acc (sep : ascii) (cur : list ascii) (s : string) : list string :=
  match s with
  | EmptyString => [string_of_list_ascii (rev cur)]
  | String c r =>
      if Ascii.eqb c sep
      then string_of_list_ascii (rev cur) :: split_acc sep [] r
      else split_acc sep (c :: cur) r
  end.

Definition split (sep : ascii) (s : string) : list string := split_acc sep [] s.

(** Truthiness of a string: [if s:] *)
Definition truthy (s : string) : bool :=
  match s with EmptyString => false | _ => true end.

End PyStr.

(** ** Results of fallible operations *)

Inductive result (A : Type) : Type :=
| Ok (a : A)
| Err (status_code : Z) (detail : string).
Arguments Ok {A} a.
Arguments Err {A} status_code detail.

(** [HTTPException(status_code, detail)] *)
Definition HTTPException {A} (status_code : Z) (detail : string) : result A :=
  Err status_code detail.

(** An exception that no handler of the application catches reaches the
    framework, which answers 500. *)
Definition unhandled {A} (detail : string) : result A := Err 500 detail.

(** ** Paths ([pathlib] on POSIX)

    A [Path] is the tuple [Path.parts]: the root ("/" or "//") when the path
    is absolute, then the segments.  Parsing drops empty segments and ".";
    it keeps "..". *)

Definition Path := list string.

Module pathlib.

(** [posixpath.splitroot]: the root is "//" for exactly two leading
    slashes, "/" for one or for three and more. *)
Definition root (p : string) : option string :=
  match p with
  | String "/" (String "/" (String "/" _)) => Some "/"
  | String "/" (String "/" _) => Some "//"
  | String "/" _ => Some "/"
  | _ => None
  end.

Definition keep_segment (x : string) : bool :=
  negb (String.eqb x "") && negb (String.eqb x ".").

Definition segments (p : string) : list string :=
  List.filter keep_segment (PyStr.split "/" p).

(** [Path(p).parts] *)
Definition parse (p : string) : Path :=
  match root p with
  | Some r => r :: segments p
  | None => segments p
  end.

(** [Path.is_absolute()] *)
Definition is_absolute (p : Path) : bool :=
  match p with
  | r :: _ => PyStr.startswith r "/"
  | [] => false
  end.

(** [a / b] *)
Definition joinpath (a b : Path) : Path :=
  if is_absolute b then b else (a ++ b)%list.

(** [Path.name] *)
Definition name (p : Path) : string :=
  if is_absolute p then List.last (List.tl p) "" else List.last p "".

End pathlib.

(** Configuration defaults of the module (each can be overridden by an
    environment variable of the same name). *)
Definition DOWNLOAD_DIR : string := "/srv/torrent-downloader/downloads".
Definition TORRENT_DIR : string := "/srv/torrent-downloader/torrents".
Definition TEMP_DIR : string := "/srv/torrent-downloader/temp".

(** ** Python arithmetic *)

(** [a / b] on ints: true division, [ZeroDivisionError] when [b] is 0. *)
Definition py_truediv (a b : Z) : option Q :=
  if b =? 0 then None else Some (inject_Z a / inject_Z b)%Q.

(** [int(a / b)]: truncation toward zero. *)
Definition py_int_truediv (a b : Z) : option Z :=
  if b =? 0 then None else Some (Z.quot a b).

(** ** The engine (libtorrent) as the manager sees it *)

Module lt.

(** [lt.torrent_status], the fields the manager reads.  The four byte
    counters are natural numbers. *)
Record torrent_status := {
  name : string;
  state : string;                (* str(status.state) *)
  progress : Q;
  download_rate : Z;
  upload_rate : Z;
  num_peers : Z;
  num_seeds : Z;
  total_wanted : N;
  total_wanted_done : N;
  all_time_upload : N;
  all_time_download : N;
}.

(** [lt.torrent_info]: display name and file manifest
    ([files().file_path(i)], [files().file_size(i)]). *)
Record torrent_info := {
  info_name : string;
  files : list (string * Z);
}.

(** [lt.torrent_handle].  The answers of the engine are part of the handle:
    [None] stands for a call that raises. [control_ok] tells whether the
    calls that change the transfer ([pause], [resume], [set_upload_limit],
    [set_max_uploads], flag changes) go through. *)
Record torrent_handle := {
  status : option torrent_status;
  get_torrent_info : option torrent_info;
  control_ok : bool;
  paused : bool;
  auto_managed : bool;
}.

Definition set_paused (b : bool) (h : torrent_handle) : torrent_handle :=
  {| status := status h; get_torrent_info := get_torrent_info h;
     control_ok := control_ok h; paused := b; auto_managed := auto_managed h |}.

Definition set_auto_managed (b : bool) (h : torrent_handle) : torrent_handle :=
  {| status := status h; get_torrent_info := get_torrent_info h;
     control_ok := control_ok h; paused := paused h; auto_managed := b |}.

End lt.

(** ** Models *)

Module TorrentInfo.
(** The pydantic model [TorrentInfo]. *)
Record t := {
  id : string;
  name : string;
  state : string;
  progress : Q;
  download_rate : Z;
  upload_rate : Z;
  num_peers : Z;
  num_seeds : Z;
  total_size : Z;
  downloaded : Z;
  uploaded : Z;
  ratio : Q;
  eta : Z;
  save_path : string;
  added_time : Z;
}.
End TorrentInfo.

Module FileEntry.
(** One entry of a file list:
    [{"relative_path": .., "absolute_path": .., "size": ..}]. *)
Record t := {
  relative_path : string;
  absolute_path : Path;
  size : Z;
}.
End FileEntry.

Module Metadata.
(** A value of [torrent_metadata]: a dict with the keys below; an absent
    key is [None] ([stopped_on_complete] is only tested for truth, so
    absent and [False] are both [false]). *)
Record t := {
  added_time : option Z;
  source : option string;
  url : option string;
  hash : option string;
  torrent_file : option string;
  save_path : option string;
  stopped_on_complete : bool;
  completed_at : option Z;
}.

(** The empty dict [{}]. *)
Definition empty : t :=
  {| added_time := None; source := None; url := None; hash := None;
     torrent_file := None; save_path := None;
     stopped_on_complete := false; completed_at := None |}.

(** [metadata['stopped_on_complete'] = True; metadata['completed_at'] = t] *)
Definition mark_completed (snapshot_time : Z) (m : t) : t :=
  {| added_time := added_time m; source := source m; url := url m;
     hash := hash m; torrent_file := torrent_file m;
     save_path := save_path m;
     stopped_on_complete := true; completed_at := Some snapshot_time |}.

(** [metadata['stopped_on_complete'] = True] alone. *)
Definition mark_stopped (m : t) : t :=
  {| added_time := added_time m; source := source m; url := url m;
     hash := hash m; torrent_file := torrent_file m;
     save_path := save_path m;
     stopped_on_complete := true; completed_at := completed_at m |}.
End Metadata.

Module CompletedFiles.
(** A value of [completed_files]. *)
Record t := {
  files : list FileEntry.t;
  save_path : string;
  name : string;
}.
End CompletedFiles.

Module ZipFile.
(** A file [TEMP_DIR/<id>.zip]: the archive names written to it, and what
    [stat()] reports. *)
Record t := {
  arcnames : list string;
  st_size : Z;
  st_mtime : Z;
}.
End ZipFile.

(** ** The environment of one operation *)

(** What [client.get(url)] followed by [raise_for_status()] does. *)
Inductive http_outcome :=
| HttpContent (content : list byte)
| HttpStatusError (status_code : Z) (text : string)
| HttpTimeout
| HttpFailure (text : string).

(** Everything an operation asks of the outside, as answered during that
    operation.  The engine answers a submission with a handle or raises (the
    text of the exception on the left).  A zip file written during the
    operation gets [written_mtime] and [written_size] from the file system;
    the size is positive because a closed [zipfile.ZipFile] always holds its
    end-of-central-directory record. *)
Record env := {
  time_now : Z;
  uuid4 : string;
  http_get : string -> http_outcome;
  decode_utf8_ignore : list byte -> string;
  add_magnet_uri : string -> string + lt.torrent_handle;
  add_torrent : list byte -> string + lt.torrent_handle;
  written_mtime : Z;
  written_size : positive;
}.

(** ** The state: the manager's registries and the files they refer to

    [torrents], [torrent_metadata], [completed_torrents] and
    [completed_files] are the dicts of [TorrentManager]; [temp_zips] maps a
    job id to the file [TEMP_DIR/<id>.zip] when it exists; [disk] is the set
    of downloaded files that exist.  The websocket clients and the saved
    descriptor files are left out: no operation below reads them. *)
Record world := {
  torrents : gmap string lt.torrent_handle;
  torrent_metadata : gmap string Metadata.t;
  completed_torrents : gmap string TorrentInfo.t;
  completed_files : gmap string CompletedFiles.t;
  temp_zips : gmap string ZipFile.t;
  disk : gset Path;
}.

(** [TorrentManager()] in a process that starts with an empty temp
    directory; [files] are the downloads already on disk. *)
Definition initial (files : gset Path) : world :=
  {| torrents := ∅; torrent_metadata := ∅; completed_torrents := ∅;
     completed_files := ∅; temp_zips := ∅; disk := files |}.

Definition with_torrents (f : gmap string lt.torrent_handle -> gmap string lt.torrent_handle)
    (w : world) : world :=
  {| torrents := f (torrents w); torrent_metadata := torrent_metadata w;
     completed_torrents := completed_torrents w;
     completed_files := completed_files w; temp_zips := temp_zips w;
     disk := disk w |}.

Definition with_metadata (f : gmap string Metadata.t -> gmap string Metadata.t)
    (w : world) : world :=
  {| torrents := torrents w; torrent_metadata := f (torrent_metadata w);
     completed_torrents := completed_torrents w;
     completed_files := completed_files w; temp_zips := temp_zips w;
     disk := disk w |}.

Definition with_completed_torrents
    (f : gmap string TorrentInfo.t -> gmap string TorrentInfo.t) (w : world) : world :=
  {| torrents := torrents w; torrent_metadata := torrent_metadata w;
     completed_torrents := f (completed_torrents w);
     completed_files := completed_files w; temp_zips := temp_zips w;
     disk := disk w |}.

Definition with_completed_files
    (f : gmap string CompletedFiles.t -> gmap string CompletedFiles.t) (w : world) : world :=
  {| torrents := torrents w; torrent_metadata := torrent_metadata w;
     completed_torrents := completed_torrents w;
     completed_files := f (completed_files w); temp_zips := temp_zips w;
     disk := disk w |}.

Definition with_temp_zips (f : gmap string ZipFile.t -> gmap string ZipFile.t)
    (w : world) : world :=
  {| torrents := torrents w; torrent_metadata := torrent_metadata w;
     completed_torrents := completed_torrents w;
     completed_files := completed_files w; temp_zips := f (temp_zips w);
     disk := disk w |}.

Definition with_disk (f : gset Path -> gset Path) (w : world) : world :=
  {| torrents := torrents w; torrent_metadata := torrent_metadata w;
     completed_torrents := completed_torrents w;
     completed_files := completed_files w; temp_zips := temp_zips w;
     disk := f (disk w) |}.

(** [self.torrent_metadata.get(torrent_id, {})] *)
Definition metadata_of (torrent_id : string) (w : world) : Metadata.t :=
  default Metadata.empty (torrent_metadata w !! torrent_id).

(** ** Ingest: [download_torrent_file] and [add_from_url] *)

Definition hexdigits : string := "0123456789abcdefABCDEF".

Definition is_hex (c : ascii) : bool := PyStr.char_in c hexdigits.

(** [re.search(r'([0-9A-Fa-f]{40})', url)]: the first run of 40 hexadecimal
    characters. *)
Fixpoint take_hex (n : nat) (s : string) : option string :=
  match n with
  | O => Some EmptyString
  | S k =>
      match s with
      | EmptyString => None
      | String c r => if is_hex c then String c <$> take_hex k r else None
      end
  end.

Fixpoint search_hash (s : string) : option string :=
  match take_hex 40 s with
  | Some h => Some h
  | None =>
      match s with
      | EmptyString => None
      | String _ r => search_hash r
      end
  end.

Definition msg_too_small : string :=
  "Downloaded file is too small to be a valid torrent".
Definition msg_html : string :=
  "Received HTML instead of torrent file. The site may be blocking automated downloads.".
Definition msg_bencode : string :=
  "Downloaded file is not a valid torrent file (invalid bencode format)".

(** The body of the inner [try]: raises [ValueError(msg_html)] (left) when
    the first 200 bytes, decoded, contain "html" in any case or a "<". *)
Definition html_probe (e : env) (content : list byte) : string + unit :=
  let text_preview := decode_utf8_ignore e (firstn 200 content) in
  if PyStr.contains (PyStr.lower text_preview) "html" || PyStr.contains text_preview "<"
  then inl msg_html
  else inr tt.

(** [try: body / except: pass]: a bare [except] catches every exception the
    body raises, and execution goes on after the statement. *)
Definition try_except_pass (body : string + unit) : unit :=
  match body with
  | inl _ => tt
  | inr _ => tt
  end.

(** The checks on the fetched bytes; the left side is the message of the
    [ValueError] raised. *)
Definition check_content (e : env) (content : list byte) : string + list byte :=
  if (length content <? 20)%nat then inl msg_too_small
  else
    match content with
    | Byte.x64 :: _ => inr content                      (* startswith(b'd') *)
    | _ =>
        let 'tt := try_except_pass (html_probe e content) in
        inl msg_bencode
    end.

Definition magnet_suggestion (info_hash : string) : string :=
  "magnet:?xt=urn:btih:" ++ info_hash ++
  "&dn=&tr=udp://open.demonii.com:1337/announce&tr=udp://tracker.openbittorrent.com:80&tr=udp://tracker.coppersurfer.tk:6969&tr=udp://glotorrents.pw:6969/announce&tr=udp://tracker.opentrackr.org:1337/announce&tr=udp://torrent.gresille.org:80/announce&tr=udp://p4p.arenabg.com:1337&tr=udp://tracker.leechers-paradise.org:6969".

(** A line break inside a message. *)
Definition nl : string := String (ascii_of_N 10) EmptyString.

(** [download_torrent_file(url)].  The pictographs that open some lines of
    the messages are left out of the details; [text] is [str(e)] of the
    exception of the HTTP client. *)
Definition download_torrent_file (e : env) (url : string) : result (list byte) :=
  let info_hash := search_hash url in
  match http_get e url with
  | HttpContent content =>
      match check_content e content with
      | inr content => Ok content
      | inl msg => HTTPException 400 ("Could not download torrent: " ++ msg)
      end
  | HttpStatusError status_code text =>
      if status_code =? 403 then
        match info_hash with
        | Some h =>
            HTTPException 400
              ("The torrent site is blocking automated downloads." ++ nl ++ nl
               ++ "SOLUTION: Use this magnet link instead:" ++ nl ++ nl
               ++ magnet_suggestion h ++ nl ++ nl
               ++ "Or visit the torrent page and copy the magnet link manually.")
        | None =>
            HTTPException 400
              ("The torrent site is blocking automated downloads." ++ nl ++ nl
               ++ "SOLUTIONS:" ++ nl
               ++ "1. Find and copy the magnet link from the torrent page" ++ nl
               ++ "2. Download the .torrent file in your browser and upload it here" ++ nl
               ++ "3. Use a different torrent site")
        end
      else if status_code =? 404 then
        HTTPException 400 "Torrent not found (404). The link may be expired."
      else HTTPException 400 ("HTTP " ++ pretty status_code ++ ": " ++ text)
  | HttpTimeout =>
      HTTPException 400 "Download timed out. The server may be slow or unavailable."
  | HttpFailure text =>
      HTTPException 400 ("Could not download torrent: " ++ text)
  end.

(** The three cases of [add_from_url], and the [else]. *)
Inductive locator := Magnet | TorrentUrl | InfoHash | Invalid.

Definition is_magnet (url : string) : bool :=
  PyStr.startswith (PyStr.lower url) "magnet:".

Definition is_http (url : string) : bool :=
  PyStr.startswith (PyStr.lower url) "http://"
  || PyStr.startswith (PyStr.lower url) "https://".

Definition is_info_hash (url : string) : bool :=
  (String.length url =? 40)%nat && PyStr.all is_hex url.

(** The [if]/[elif] chain of [add_from_url], on the stripped locator. *)
Definition classify (url : string) : locator :=
  if is_magnet url then Magnet
  else if is_http url then TorrentUrl
  else if is_info_hash url then InfoHash
  else Invalid.

Definition msg_invalid_input : string :=
  "Invalid input. Expected magnet link, HTTP(S) URL, or 40-character info hash".

(** [str(save_path or DOWNLOAD_DIR)] *)
Definition save_path_or_default (save_path : option string) : string :=
  match save_path with
  | Some p => if PyStr.truthy p then p else DOWNLOAD_DIR
  | None => DOWNLOAD_DIR
  end.

(** [self.torrents[torrent_id] = handle; self.torrent_metadata[torrent_id] = m] *)
Definition register (torrent_id : string) (handle : lt.torrent_handle)
    (m : Metadata.t) (w : world) : world :=
  with_metadata <[torrent_id := m]> (with_torrents <[torrent_id := handle]> w).

(** [str(e)] for an [HTTPException]: status code, colon, detail. *)
Definition str_http_exception (status_code : Z) (detail : string) : string :=
  pretty status_code ++ ": " ++ detail.

(** [add_from_url(url, save_path, sequential)]; [sequential] only changes the
    flags handed to the engine.  The speed boost and the broadcast that follow
    a submission do not touch the registries. *)
Definition add_from_url (e : env) (url : string) (save_path : option string)
    (sequential : bool) (w : world) : world * result string :=
  let url := PyStr.strip url in
  let torrent_id := uuid4 e in
  let save := save_path_or_default save_path in
  match classify url with
  | Magnet =>
      match add_magnet_uri e url with
      | inr handle =>
          (register torrent_id handle
             {| Metadata.added_time := Some (time_now e);
                Metadata.source := Some "magnet";
                Metadata.url := Some url; Metadata.hash := None;
                Metadata.torrent_file := None;
                Metadata.save_path := Some save;
                Metadata.stopped_on_complete := false;
                Metadata.completed_at := None |} w,
           Ok torrent_id)
      | inl msg => (w, HTTPException 400 msg)
      end
  | TorrentUrl =>
      match download_torrent_file e url with
      | Err status_code detail =>
          (w, HTTPException 400 (str_http_exception status_code detail))
      | Ok torrent_data =>
          match add_torrent e torrent_data with
          | inr handle =>
              (register torrent_id handle
                 {| Metadata.added_time := Some (time_now e);
                    Metadata.source := Some "url";
                    Metadata.url := Some url; Metadata.hash := None;
                    Metadata.torrent_file :=
                      Some (TORRENT_DIR ++ "/" ++ torrent_id ++ ".torrent");
                    Metadata.save_path := Some save;
                    Metadata.stopped_on_complete := false;
                    Metadata.completed_at := None |} w,
               Ok torrent_id)
          | inl msg => (w, HTTPException 400 msg)
          end
      end
  | InfoHash =>
      match add_magnet_uri e ("magnet:?xt=urn:btih:" ++ url) with
      | inr handle =>
          (register torrent_id handle
             {| Metadata.added_time := Some (time_now e);
                Metadata.source := Some "hash";
                Metadata.url := None; Metadata.hash := Some url;
                Metadata.torrent_file := None;
                Metadata.save_path := Some save;
                Metadata.stopped_on_complete := false;
                Metadata.completed_at := None |} w,
           Ok torrent_id)
      | inl msg => (w, HTTPException 400 msg)
      end
  | Invalid => (w, HTTPException 400 msg_invalid_input)
  end.

(** [add_torrent_file(torrent_data, save_path, sequential)] *)
Definition add_torrent_file (e : env) (torrent_data : list byte)
    (save_path : option string) (sequential : bool) (w : world)
    : world * result string :=
  let torrent_id := uuid4 e in
  match add_torrent e torrent_data with
  | inr handle =>
      (register torrent_id handle
         {| Metadata.added_time := Some (time_now e);
            Metadata.source := None;
            Metadata.url := None; Metadata.hash := None;
            Metadata.torrent_file :=
              Some (TORRENT_DIR ++ "/" ++ torrent_id ++ ".torrent");
            Metadata.save_path := Some (save_path_or_default save_path);
            Metadata.stopped_on_complete := false;
            Metadata.completed_at := None |} w,
       Ok torrent_id)
  | inl msg => (w, HTTPException 400 msg)
  end.

(** ** Queries *)

Definition msg_not_found : string := "Torrent not found".

(** [get_torrent_info(torrent_id)] *)
Definition get_torrent_info (torrent_id : string) (w : world) : result TorrentInfo.t :=
  match torrents w !! torrent_id with
  | None =>
      match completed_torrents w !! torrent_id with
      | Some info => Ok info
      | None => HTTPException 404 msg_not_found
      end
  | Some handle =>
      match lt.status handle with
      | None => unhandled "status"
      | Some status =>
          let eta :=
            if 0 <? lt.download_rate status
            then py_int_truediv (Z.of_N (lt.total_wanted status)
                                 - Z.of_N (lt.total_wanted_done status))
                                (lt.download_rate status)
            else Some (-1) in
          let ratio :=
            py_truediv (Z.of_N (lt.all_time_upload status))
                       (Z.max (Z.of_N (lt.all_time_download status)) 1) in
          let metadata := metadata_of torrent_id w in
          match eta, ratio with
          | Some eta, Some ratio =>
              Ok {| TorrentInfo.id := torrent_id;
                    TorrentInfo.name := lt.name status;
                    TorrentInfo.state := lt.state status;
                    TorrentInfo.progress := (lt.progress status * 100)%Q;
                    TorrentInfo.download_rate := lt.download_rate status;
                    TorrentInfo.upload_rate := lt.upload_rate status;
                    TorrentInfo.num_peers := lt.num_peers status;
                    TorrentInfo.num_seeds := lt.num_seeds status;
                    TorrentInfo.total_size := Z.of_N (lt.total_wanted status);
                    TorrentInfo.downloaded := Z.of_N (lt.total_wanted_done status);
                    TorrentInfo.uploaded := Z.of_N (lt.all_time_upload status);
                    TorrentInfo.ratio := ratio;
                    TorrentInfo.eta := eta;
                    TorrentInfo.save_path :=
                      default DOWNLOAD_DIR (Metadata.save_path metadata);
                    TorrentInfo.added_time :=
                      default 0 (Metadata.added_time metadata) |}
          | _, _ => unhandled "ZeroDivisionError"
          end
      end
  end.

(** The file list of a manifest, resolved against a save root:
    [abs_path = Path(save_path) / rel_path]. *)
Definition file_entries (save_path : string) (files : list (string * Z))
    : list FileEntry.t :=
  List.map (fun '(rel_path, size) =>
    {| FileEntry.relative_path := rel_path;
       FileEntry.absolute_path :=
         pathlib.joinpath (pathlib.parse save_path) (pathlib.parse rel_path);
       FileEntry.size := size |}) files.

(** [get_torrent_files(torrent_id)] *)
Definition get_torrent_files (torrent_id : string) (w : world)
    : result (list FileEntry.t * string) :=
  match torrents w !! torrent_id with
  | Some handle =>
      match lt.get_torrent_info handle with
      | None => HTTPException 400 "Could not read torrent metadata"
      | Some info =>
          let save_path :=
            default DOWNLOAD_DIR (Metadata.save_path (metadata_of torrent_id w)) in
          Ok (file_entries save_path (lt.files info), lt.info_name info)
      end
  | None =>
      match completed_files w !! torrent_id with
      | Some entry => Ok (CompletedFiles.files entry, CompletedFiles.name entry)
      | None => HTTPException 404 "Torrent not found or already stopped"
      end
  end.

(** [sorted(l, key=lambda t: t.added_time, reverse=True)]: stable, largest
    key first. *)
Fixpoint insert_desc (x : TorrentInfo.t) (l : list TorrentInfo.t) : list TorrentInfo.t :=
  match l with
  | [] => [x]
  | y :: r =>
      if TorrentInfo.added_time y <? TorrentInfo.added_time x
      then x :: l
      else y :: insert_desc x r
  end.

Definition sorted_desc (l : list TorrentInfo.t) : list TorrentInfo.t :=
  List.fold_right insert_desc [] l.


(** [[f(x) for x in l]] where [f] may raise. *)
Fixpoint comprehension {A B} (f : A -> result B) (l : list A) : result (list B) :=
  match l with
  | [] => Ok []
  | x :: r =>
      match f x with
      | Err c d => Err c d
      | Ok y =>
          match comprehension f r with
          | Err c d => Err c d
          | Ok ys => Ok (y :: ys)
          end
      end
  end.

(** [list_torrents()].  The dicts are walked in the order of [map_to_list];
    the order only decides between records with equal [added_time]. *)
Definition list_torrents (w : world) : result (list TorrentInfo.t) :=
  match comprehension (fun tid => get_torrent_info tid w)
                      (List.map fst (map_to_list (torrents w))) with
  | Err c d => Err c d
  | Ok active =>
      let completed := List.map snd (map_to_list (completed_torrents w)) in
      Ok (sorted_desc (active ++ completed)%list)
  end.

(** ** Pause and resume *)

(** [pause_torrent(torrent_id)]: clearing [auto_managed] is attempted and its
    failure ignored; [handle.pause()] is not guarded. *)
Definition pause_torrent (torrent_id : string) (w : world) : world * result unit :=
  match torrents w !! torrent_id with
  | None => (w, HTTPException 404 msg_not_found)
  | Some handle =>
      if lt.control_ok handle
      then (with_torrents
              <[torrent_id := lt.set_paused true (lt.set_auto_managed false handle)]> w,
            Ok tt)
      else (w, unhandled "pause")
  end.

(** [resume_torrent(torrent_id)] *)
Definition resume_torrent (torrent_id : string) (w : world) : world * result unit :=
  match torrents w !! torrent_id with
  | None => (w, HTTPException 404 msg_not_found)
  | Some handle =>
      if lt.control_ok handle
      then (with_torrents
              <[torrent_id := lt.set_paused false (lt.set_auto_managed true handle)]> w,
            Ok tt)
      else (w, unhandled "resume")
  end.

(** ** The archive cache *)

(** The characters removed from a display name: backslash, slash, colon,
    star, question mark, double quote (code 34), angle brackets and bar. *)
Definition illegal_chars : string :=
  "\/:*?" ++ String (ascii_of_N 34) "<>|".

(** [''.join(c for c in (name or 'download') if c not in illegal).strip()
    or 'download'] *)
Definition safe_base_of (torrent_name : string) : string :=
  let name := if PyStr.truthy torrent_name then torrent_name else "download" in
  let kept :=
    PyStr.strip (PyStr.keep (fun c => negb (PyStr.char_in c illegal_chars)) name) in
  if PyStr.truthy kept then kept else "download".

(** [TEMP_DIR / f'{torrent_id}.zip'] *)
Definition zip_path (torrent_id : string) : Path :=
  pathlib.joinpath (pathlib.parse TEMP_DIR) (pathlib.parse (torrent_id ++ ".zip")).

(** The loop [for file_entry in files: zipf.write(absolute_path, arcname)]:
    the archive names written, and whether every file was there
    ([zipf.write] raises on a missing file). *)
Fixpoint zip_write (on_disk : gset Path) (files : list FileEntry.t)
    : list string * bool :=
  match files with
  | [] => ([], true)
  | f :: r =>
      if decide (FileEntry.absolute_path f ∈ on_disk)
      then let '(names, ok) := zip_write on_disk r in
           (FileEntry.relative_path f :: names, ok)
      else ([], false)
  end.

(** [build_zip_if_needed(torrent_id, files, torrent_name, snapshot_time)].
    Leaving the [with] block closes the archive also when a write raised, so
    a file with the entries written so far stays behind. *)
Definition build_zip_if_needed (e : env) (torrent_id : string)
    (files : list FileEntry.t) (torrent_name : string) (snapshot_time : Z)
    (w : world) : world * result (Path * string) :=
  let safe_base := safe_base_of torrent_name in
  let fresh :=
    match temp_zips w !! torrent_id with
    | Some z => (0 <? ZipFile.st_size z) && (snapshot_time <=? ZipFile.st_mtime z)
    | None => false
    end in
  if fresh then (w, Ok (zip_path torrent_id, safe_base))
  else
    let '(names, ok) := zip_write (disk w) files in
    let w' :=
      with_temp_zips
        <[torrent_id := {| ZipFile.arcnames := names;
                           ZipFile.st_size := Z.pos (written_size e);
                           ZipFile.st_mtime := written_mtime e |}]> w in
    if ok then (w', Ok (zip_path torrent_id, safe_base))
    else (w', unhandled "FileNotFoundError").

(** ** Completion *)

(** The record built at completion. *)
Definition completed_info (torrent_id : string) (status : lt.torrent_status)
    (ratio : Q) (save_path : string) (added_time : Z) : TorrentInfo.t :=
  {| TorrentInfo.id := torrent_id;
     TorrentInfo.name := lt.name status;
     TorrentInfo.state := "completed";
     TorrentInfo.progress := 100;
     TorrentInfo.download_rate := 0;
     TorrentInfo.upload_rate := 0;
     TorrentInfo.num_peers := 0;
     TorrentInfo.num_seeds := 0;
     TorrentInfo.total_size := Z.of_N (lt.total_wanted status);
     TorrentInfo.downloaded := Z.of_N (lt.total_wanted status);
     TorrentInfo.uploaded := Z.of_N (lt.all_time_upload status);
     TorrentInfo.ratio := ratio;
     TorrentInfo.eta := 0;
     TorrentInfo.save_path := save_path;
     TorrentInfo.added_time := added_time |}.

(** [stop_if_completed(torrent_id, handle, status)].

    - A manifest that cannot be read gives an empty snapshot.
    - A handle that refuses [pause()] raises into the outer handler: the
      attempt is logged and nothing has changed.
    - Were the ratio to raise, the inner handler would log it, the guard
      would be set on the metadata dict (in place, when the dict is the one
      stored in [torrent_metadata]) and the unbound [snapshot_time] would
      raise into the outer handler before the job leaves [torrents].
    - The result of the prebuild is ignored, its effect on the temp
      directory is not. *)
Definition stop_if_completed (e : env) (torrent_id : string)
    (handle : lt.torrent_handle) (status : lt.torrent_status) (w : world) : world :=
  let metadata := metadata_of torrent_id w in
  if Metadata.stopped_on_complete metadata then w
  else
    let torrent_info := lt.get_torrent_info handle in
    let files_snapshot :=
      match torrent_info with
      | Some info =>
          file_entries (default DOWNLOAD_DIR (Metadata.save_path metadata))
                       (lt.files info)
      | None => []
      end in
    if negb (lt.control_ok handle) then w
    else
      match py_truediv (Z.of_N (lt.all_time_upload status))
                       (Z.max (Z.of_N (lt.all_time_download status)) 1) with
      | None =>
          with_metadata (alter Metadata.mark_stopped torrent_id) w
      | Some ratio =>
          let save_path := default DOWNLOAD_DIR (Metadata.save_path metadata) in
          let snapshot_time := time_now e in
          let name :=
            match torrent_info with
            | Some info => lt.info_name info
            | None => lt.name status
            end in
          let info :=
            completed_info torrent_id status ratio save_path
              (default (time_now e) (Metadata.added_time metadata)) in
          let w1 := with_completed_torrents <[torrent_id := info]> w in
          let w2 :=
            with_completed_files
              <[torrent_id := {| CompletedFiles.files := files_snapshot;
                                 CompletedFiles.save_path := save_path;
                                 CompletedFiles.name := name |}]> w1 in
          let w3 :=
            if (1 <? length files_snapshot)%nat
            then fst (build_zip_if_needed e torrent_id files_snapshot name
                                          snapshot_time w2)
            else w2 in
          let w4 :=
            with_metadata
              <[torrent_id := Metadata.mark_completed snapshot_time metadata]> w3 in
          with_torrents (delete torrent_id) w4
      end.

(** One iteration of the monitor loop, for an entry of the snapshot
    [list(self.torrents.items())]: a failing [status()] is logged and the
    job skipped. *)
Definition monitor_job (e : env) (torrent_id : string)
    (handle : lt.torrent_handle) (w : world) : world :=
  match lt.status handle with
  | None => w
  | Some status =>
      if Qle_bool 1 (lt.progress status)
      then stop_if_completed e torrent_id handle status w
      else w
  end.

(** The registry part of one tick of [monitor_torrents]; [clock] gives the
    environment in which each job of the snapshot is visited.  The broadcast
    that ends the tick reads the registries and writes none of them. *)
Definition monitor_tick (clock : string -> env) (w : world) : world :=
  List.fold_left (fun acc '(torrent_id, handle) =>
                    monitor_job (clock torrent_id) torrent_id handle acc)
                 (map_to_list (torrents w)) w.

(** ** Removal *)

(** [remove_torrent(torrent_id, delete_files)].  For an active job the
    engine deletes the files itself, later; for a completed job the
    snapshotted files are unlinked here.  Directories are not part of
    [disk], so the pruning of empty ones leaves it as it is. *)
Definition remove_torrent (torrent_id : string) (delete_files : bool) (w : world)
    : world * result unit :=
  match torrents w !! torrent_id with
  | Some handle =>
      let w1 := with_torrents (delete torrent_id) w in
      let w2 := with_metadata (delete torrent_id) w1 in
      (with_temp_zips (delete torrent_id) w2, Ok tt)
  | None =>
      match completed_torrents w !! torrent_id with
      | Some _ =>
          let files_entry :=
            match completed_files w !! torrent_id with
            | Some entry => CompletedFiles.files entry
            | None => []
            end in
          let w0 :=
            if delete_files
            then with_disk
                   (fun d => d ∖ list_to_set (List.map FileEntry.absolute_path files_entry)) w
            else w in
          let w1 := with_completed_torrents (delete torrent_id) w0 in
          let w2 := with_completed_files (delete torrent_id) w1 in
          let w3 := with_metadata (delete torrent_id) w2 in
          (with_temp_zips (delete torrent_id) w3, Ok tt)
      | None => (w, HTTPException 404 msg_not_found)
      end
  end.

(** ** Download *)

(** [FileResponse(path, filename=.., media_type=..)] *)
Record FileResponse := {
  path : Path;
  filename : string;
  media_type : string;
}.

Definition msg_no_files : string :=
  "No files available yet. The torrent may still be downloading.".
Definition msg_invalid_path : string := "Invalid file path".
Definition msg_file_not_found : string :=
  "Requested file not found in torrent contents".

(** [requested.is_absolute() or any(part in ('..', '') for part in requested.parts)] *)
Definition rejected_selector (requested : Path) : bool :=
  pathlib.is_absolute requested
  || List.existsb (fun part => String.eqb part ".." || String.eqb part "") requested.

Definition serve_file (file_entry : FileEntry.t) : FileResponse :=
  {| path := FileEntry.absolute_path file_entry;
     filename := pathlib.name (FileEntry.absolute_path file_entry);
     media_type := "application/octet-stream" |}.

(** [metadata.get(torrent_id, {}).get('completed_at', time.time())] *)
Definition freshness_marker (e : env) (torrent_id : string) (w : world) : Z :=
  default (time_now e) (Metadata.completed_at (metadata_of torrent_id w)).

(** [if file:] holds for a selector that is given and not empty. *)
Definition selector (file : option string) : option string :=
  match file with
  | Some f => if PyStr.truthy f then Some f else None
  | None => None
  end.

(** The files of a list that exist on disk. *)
Definition existing (w : world) (files : list FileEntry.t) : list FileEntry.t :=
  List.filter (fun f => bool_decide (FileEntry.absolute_path f ∈ disk w)) files.

(** [download_torrent_files(torrent_id, file)] *)
Definition download_torrent_files (e : env) (torrent_id : string)
    (file : option string) (w : world) : world * result FileResponse :=
  match get_torrent_files torrent_id w with
  | Err c d => (w, Err c d)
  | Ok (files, torrent_name) =>
      let existing_files := existing w files in
      match existing_files with
      | [] => (w, HTTPException 404 msg_no_files)
      | first :: others =>
          match selector file with
          | Some f =>
              let requested := pathlib.parse f in
              if rejected_selector requested
              then (w, HTTPException 400 msg_invalid_path)
              else
                match List.find
                        (fun file_entry =>
                           bool_decide (pathlib.parse (FileEntry.relative_path file_entry)
                                        = requested))
                        existing_files with
                | Some file_entry => (w, Ok (serve_file file_entry))
                | None => (w, HTTPException 404 msg_file_not_found)
                end
          | None =>
              match others with
              | [] => (w, Ok (serve_file first))
              | _ =>
                  let snapshot_time := freshness_marker e torrent_id w in
                  match build_zip_if_needed e torrent_id existing_files
                                            torrent_name snapshot_time w with
                  | (w', Ok (zip, safe_base)) =>
                      (w', Ok {| path := zip;
                                 filename := safe_base ++ ".zip";
                                 media_type := "application/zip" |})
                  | (w', Err _ d) =>
                      (with_temp_zips (delete torrent_id) w',
                       HTTPException 500 ("Failed to prepare download: " ++ d))
                  end
              end
          end
      end
  end.

(** ** Runs of the process

    The scheduler is cooperative: an operation runs from one suspension
    point to the next without interleaving, and every write to the
    registries of one call falls between two suspension points.  A run is
    therefore a sequence of events, and the worlds between events are the
    observable ones. *)

Inductive event :=
| Submit (e : env) (url : string) (save_path : option string) (sequential : bool)
| Upload (e : env) (torrent_data : list byte) (save_path : option string)
         (sequential : bool)
| Remove (torrent_id : string) (delete_files : bool)
| Pause (torrent_id : string)
| Resume (torrent_id : string)
| Tick (clock : string -> env)
| Download (e : env) (torrent_id : string) (file : option string)
| Engine (handles : gmap string lt.torrent_handle) (files : gset Path).

Definition step (ev : event) (w : world) : world :=
  match ev with
  | Submit e url save_path sequential => fst (add_from_url e url save_path sequential w)
  | Upload e data save_path sequential => fst (add_torrent_file e data save_path sequential w)
  | Remove torrent_id delete_files => fst (remove_torrent torrent_id delete_files w)
  | Pause torrent_id => fst (pause_torrent torrent_id w)
  | Resume torrent_id => fst (resume_torrent torrent_id w)
  | Tick clock => monitor_tick clock w
  | Download e torrent_id file => fst (download_torrent_files e torrent_id file w)
  | Engine handles files => with_disk (fun _ => files) (with_torrents (fun _ => handles) w)
  end.

(** An id names nothing in the process: no registry entry and no archive. *)
Definition unused (torrent_id : string) (w : world) : Prop :=
  torrents w !! torrent_id = None
  ∧ torrent_metadata w !! torrent_id = None
  ∧ completed_torrents w !! torrent_id = None
  ∧ completed_files w !! torrent_id = None
  ∧ temp_zips w !! torrent_id = None.

(** What the outside may do: [uuid4] hands out ids that name nothing yet,
    and the engine changes how the submitted transfers answer, not which
    transfers the manager holds. *)
Definition admissible (ev : event) (w : world) : Prop :=
  match ev with
  | Submit e _ _ _ | Upload e _ _ _ => unused (uuid4 e) w
  | Engine handles _ => dom handles = dom (torrents w)
  | _ => True
  end.

Definition is_ok {A} (r : result A) : bool :=
  match r with Ok _ => true | Err _ _ => false end.

(** The ids submitted and not removed, after an event. *)
Definition live_after (ev : event) (w : world) (live : gset string) : gset string :=
  match ev with
  | Submit e url save_path sequential =>
      if is_ok (snd (add_from_url e url save_path sequential w))
      then live ∪ {[uuid4 e]} else live
  | Upload e data save_path sequential =>
      if is_ok (snd (add_torrent_file e data save_path sequential w))
      then live ∪ {[uuid4 e]} else live
  | Remove torrent_id delete_files =>
      if is_ok (snd (remove_torrent torrent_id delete_files w))
      then live ∖ {[torrent_id]} else live
  | _ => live
  end.

(** [reach live w]: some run of the process leads to [w], with [live] the
    ids submitted and not yet removed. *)
Inductive reach : gset string -> world -> Prop :=
| reach_initial files : reach ∅ (initial files)
| reach_step live w ev :
    reach live w -> admissible ev w -> reach (live_after ev w live) (step ev w).

(** An event is the completion step of a job when it is a monitor tick that
    finds the job in the active map with full progress reported. *)
Definition completion_step_of (torrent_id : string) (ev : event) (w : world) : Prop :=
  ∃ clock handle status,
    ev = Tick clock
    ∧ torrents w !! torrent_id = Some handle
    ∧ lt.status handle = Some status
    ∧ (1 <= lt.progress status)%Q.

(** ** Properties of locators and selectors, as the specification words them *)

(** [s] starts with [p], letter case aside. *)
Definition starts_with_ci (p s : string) : Prop :=
  ∃ head rest, s = head ++ rest ∧ PyStr.lower head = p.

(** [s] starts with [p], letter for letter. *)
Definition starts_with (p s : string) : Prop :=
  ∃ rest, s = p ++ rest.

(** A string of exactly 40 hexadecimal digits. *)
Definition hex40 (s : string) : Prop :=
  String.length s = 40%nat
  ∧ ∀ c, In c (list_ascii_of_string s) -> In c (list_ascii_of_string hexdigits).

(** A selector is absolute when it starts with a slash; it has a
    parent-directory segment when one of the pieces between its slashes is
    "..". *)
Definition absolute_selector (file : string) : Prop := starts_with "/" file.

Definition parent_segment (file : string) : Prop := In ".." (PyStr.split "/" file).

(** ** The registry invariant

    What every observable world satisfies, for [live] the ids submitted and
    not removed. *)
Record coherent (live : gset string) (w : world) : Prop := {
  active_xor_completed :
    ∀ tid, ¬ (is_Some (torrents w !! tid) ∧ is_Some (completed_torrents w !! tid));
  live_registered :
    ∀ tid, tid ∈ live <->
           is_Some (torrents w !! tid) ∨ is_Some (completed_torrents w !! tid);
  active_unguarded :
    ∀ tid, is_Some (torrents w !! tid) ->
           Metadata.stopped_on_complete (metadata_of tid w) = false;
  files_completed :
    ∀ tid, is_Some (completed_files w !! tid) ->
           is_Some (completed_torrents w !! tid);
  zips_live :
    ∀ tid, is_Some (temp_zips w !! tid) -> tid ∈ live;
  zips_nonempty :
    ∀ tid z, temp_zips w !! tid = Some z -> 0 < ZipFile.st_size z;
}.

(** ** Sample data

    Concrete handles, environments and runs, used below to evaluate the
    operations. *)

Module Sample.

(** What a site that blocks automated downloads answers. *)
Definition html_page : list byte :=
  list_byte_of_string
    "<!DOCTYPE html><html><body>Access denied</body></html>".

Definition album : lt.torrent_info :=
  {| lt.info_name := "album";
     lt.files := [("album/a.flac", 10); ("album/b.flac", 20)] |}.

Definition status (progress : Q) : lt.torrent_status :=
  {| lt.name := "album"; lt.state := "downloading";
     lt.progress := progress;
     lt.download_rate := 0; lt.upload_rate := 7;
     lt.num_peers := 3; lt.num_seeds := 2;
     lt.total_wanted := 30; lt.total_wanted_done := 30;
     lt.all_time_upload := 50; lt.all_time_download := 500 |}.

Definition handle (progress : Q) (control_ok : bool) : lt.torrent_handle :=
  {| lt.status := Some (status progress);
     lt.get_torrent_info := Some album;
     lt.control_ok := control_ok;
     lt.paused := false; lt.auto_managed := true |}.

(** An environment whose clock shows [now], whose next uuid is "job-1",
    and whose engine answers a submission with [h]. *)
Definition environment (now : Z) (h : lt.torrent_handle) : env :=
  {| time_now := now;
     uuid4 := "job-1";
     http_get := fun _ => HttpContent html_page;
     decode_utf8_ignore := string_of_list_byte;
     add_magnet_uri := fun _ => inr h;
     add_torrent := fun _ => inr h;
     written_mtime := now;
     written_size := 22 |}.

(** An environment in which every fetch is answered with [html_page]. *)
Definition blocked : env := environment 0 (handle 0 true).

Definition album_path (file : string) : Path :=
  (pathlib.parse DOWNLOAD_DIR ++ ["album"; file])%list.

(** Both files of the album are on disk. *)
Definition files_on_disk : gset Path :=
  {[ album_path "a.flac"; album_path "b.flac" ]}.

Definition magnet : string := "magnet:?xt=urn:btih:0123456789abcdef0123456789abcdef01234567".

(** The album is submitted at time 100. *)
Definition submission (progress : Q) (control_ok : bool) : event :=
  Submit (environment 100 (handle progress control_ok)) magnet None false.

Definition submitted (progress : Q) (control_ok : bool) (files : gset Path) : world :=
  step (submission progress control_ok) (initial files).

(** A monitor tick at time [now]. *)
Definition tick (now : Z) : event :=
  Tick (fun _ => environment now (handle 1 true)).

(** The album after a tick at time 200 that found it complete. *)
Definition finished : world :=
  step (tick 200) (submitted 1 true files_on_disk).

(** The album at half progress, both files already on disk. *)
Definition downloading : world := submitted (1 # 2) true files_on_disk.

(** [downloading] after a request, at time 300, for all its files. *)
Definition archive_request (now : Z) : event :=
  Download (environment now (handle (1 # 2) true)) "job-1" None.

Definition archived_early : world := step (archive_request 300) downloading.

(** The album submitted, nothing on disk yet. *)
Definition nothing_yet : world := submitted 0 true ∅.

(** The ids alive after the submission. *)
Definition submitted_live (progress : Q) (control_ok : bool) (files : gset Path)
    : gset string :=
  live_after (submission progress control_ok) (initial files) ∅.

End Sample.

(** ** The request handlers around the manager *)

Module TorrentAddRequest.
(** The body of a submission: [url] is required (it may be empty),
    [magnet] is the deprecated field. *)
Record t := {
  url : string;
  save_path : option string;
  sequential : bool;
  magnet : option string;
}.

End TorrentAddRequest.

Module AddResponse.
(** The answer to a submission:
    [{"success": .., "torrent_id": .., "message": ..}]. *)
Record t := {
  success : bool;
  torrent_id : string;
  message : string;
}.
End AddResponse.



(** [list_torrent_files(torrent_id)]: relative path and size of the files
    that exist. *)
Definition list_torrent_files (torrent_id : string) (w : world)
    : result (list (string * Z)) :=
  match get_torrent_files torrent_id w with
  | Err c d => Err c d
  | Ok (files, _) =>
      match List.map (fun f => (FileEntry.relative_path f, FileEntry.size f))
                     (existing w files) with
      | [] => HTTPException 404 msg_no_files
      | available_files => Ok available_files
      end
  end.

(** ** The broadcast *)

(** A connected client, and what a send to it does: [true] when the message
    is delivered, [false] when [send_json] raises. *)
Definition WebSocket := nat.

(** [l.remove(c)] for a [c] that is in [l]: the first occurrence goes. *)
Fixpoint list_remove (c : WebSocket) (l : list WebSocket) : list WebSocket :=
  match l with
  | [] => []
  | x :: r => if Nat.eqb x c then r else x :: list_remove c r
  end.

(** [for client in disconnected: if client in clients: clients.remove(client)] *)
Definition prune_clients (disconnected clients : list WebSocket) : list WebSocket :=
  List.fold_left
    (fun acc client =>
       if List.existsb (Nat.eqb client) acc then list_remove client acc else acc)
    disconnected clients.

(** [broadcast_update()], run with no connection opened or closed meanwhile:
    the clients left in [websocket_clients], and the updates delivered, in
    the order of the sends.  With no client nothing is computed; a merged
    view that cannot be computed is logged and nothing is sent.  The tail of
    a monitor tick is the same loop. *)
Definition broadcast_update (send_json : WebSocket -> bool) (w : world)
    (websocket_clients : list WebSocket)
    : list WebSocket * list (WebSocket * list TorrentInfo.t) :=
  match websocket_clients with
  | [] => ([], [])
  | _ =>
      match list_torrents w with
      | Err _ _ => (websocket_clients, [])
      | Ok torrents_data =>
          let disconnected :=
            List.filter (fun client => negb (send_json client)) websocket_clients in
          (prune_clients disconnected websocket_clients,
           List.map (fun client => (client, torrents_data))
                    (List.filter send_json websocket_clients))
      end
  end.

(** ** More of the registry invariant

    What the metadata of a registered job says, and what the records of the
    completed registry look like. *)
Record documented (w : world) : Prop := {
  active_metadata :
    ∀ tid, is_Some (torrents w !! tid) ->
      ∃ m, torrent_metadata w !! tid = Some m
           ∧ Metadata.stopped_on_complete m = false
           ∧ Metadata.completed_at m = None
           ∧ is_Some (Metadata.added_time m)
           ∧ is_Some (Metadata.save_path m);
  completed_metadata :
    ∀ tid info, completed_torrents w !! tid = Some info ->
      ∃ m snapshot_time,
        torrent_metadata w !! tid = Some m
        ∧ Metadata.stopped_on_complete m = true
        ∧ Metadata.completed_at m = Some snapshot_time
        ∧ Metadata.added_time m = Some (TorrentInfo.added_time info)
        ∧ Metadata.save_path m = Some (TorrentInfo.save_path info)
        ∧ is_Some (completed_files w !! tid);
  completed_shape :
    ∀ tid info, completed_torrents w !! tid = Some info ->
      TorrentInfo.id info = tid
      ∧ TorrentInfo.state info = "completed"
      ∧ TorrentInfo.progress info = 100%Q
      ∧ TorrentInfo.eta info = 0
      ∧ TorrentInfo.downloaded info = TorrentInfo.total_size info;
  metadata_registered :
    ∀ tid, is_Some (torrent_metadata w !! tid) ->
      is_Some (torrents w !! tid) ∨ is_Some (completed_torrents w !! tid);
}.

Module Example.

(** A second client fails, the first and the third receive. *)
Definition send_json (client : WebSocket) : bool := negb (Nat.eqb client 2).

(** A response of 403 for a page whose address carries an info hash. *)
Definition forbidden_url : string :=
  "http://tracker.example/torrent/0123456789abcdef0123456789ABCDEF01234567/get".

Definition forbidden : env :=
  {| time_now := 0;
     uuid4 := "job-1";
     http_get := fun _ => HttpStatusError 403 "Client error '403 Forbidden'";
     decode_utf8_ignore := string_of_list_byte;
     add_magnet_uri := fun _ => inl "unsupported";
     add_torrent := fun _ => inl "unsupported";
     written_mtime := 0;
     written_size := 22 |}.

(** A request at time 900 for the finished album. *)
Definition late : env := Sample.environment 900 (Sample.handle 1 true).

(** A manifest of one file, and a handle that reports it. *)
Definition single : lt.torrent_info :=
  {| lt.info_name := "a.flac"; lt.files := [("album/a.flac", 10)] |}.

Definition single_handle : lt.torrent_handle :=
  {| lt.status := Some (Sample.status 1);
     lt.get_torrent_info := Some single;
     lt.control_ok := true;
     lt.paused := false; lt.auto_managed := true |}.

(** A handle that reports full progress and whose manifest cannot be read. *)
Definition no_manifest : lt.torrent_handle :=
  {| lt.status := Some (Sample.status 1);
     lt.get_torrent_info := None;
     lt.control_ok := true;
     lt.paused := false; lt.auto_managed := true |}.

End Example.

(** * Properties *)

(** ** Strings *)

Section Strings.

Lemma prefix_starts_with (p s : string) :
  String.prefix p s = true <-> starts_with p s.
Proof.
  revert s; induction p as [|c p IH]; intros s; simpl.
  - split; [intros _; exists s; reflexivity | destruct s; reflexivity].
  - destruct s as [|d s]; simpl.
    + split; [discriminate | intros [rest H]; discriminate H].
    + destruct (ascii_dec c d) as [->|Hne].
      * rewrite IH. split; intros [rest H]; exists rest.
        -- simpl. now rewrite H.
        -- simpl in H. now inversion H.
      * split; [discriminate | intros [rest H]; simpl in H; inversion H; congruence].
Qed.

Lemma lower_app (a b : string) :
  PyStr.lower (a ++ b) = PyStr.lower a ++ PyStr.lower b.
Proof. induction a as [|c a IH]; simpl; [reflexivity | now rewrite IH]. Qed.

Lemma lower_split (p rest s : string) :
  PyStr.lower s = p ++ rest ->
  ∃ head tail, s = head ++ tail ∧ PyStr.lower head = p.
Proof.
  revert s; induction p as [|c p IH]; intros s H.
  - exists EmptyString, s. split; reflexivity.
  - destruct s as [|d s]; simpl in H; [discriminate|].
    inversion H as [[Hc Hs]].
    destruct (IH _ Hs) as (head & tail & -> & Hl).
    exists (String d head), tail. split; [reflexivity|]. simpl. now rewrite Hl.
Qed.

Lemma startswith_lower (p s : string) :
  PyStr.startswith (PyStr.lower s) p = true <-> starts_with_ci p s.
Proof.
  unfold PyStr.startswith. rewrite prefix_starts_with. split.
  - intros [rest H]. now apply lower_split in H.
  - intros (head & rest & -> & <-). exists (PyStr.lower rest). apply lower_app.
Qed.

Lemma char_in_In (c : ascii) (chars : string) :
  PyStr.char_in c chars = true <-> In c (list_ascii_of_string chars).
Proof.
  induction chars as [|d r IH]; simpl.
  - split; [discriminate | tauto].
  - rewrite orb_true_iff, IH, Ascii.eqb_eq. split; intros [H|H]; auto.
Qed.

Lemma all_In (p : ascii -> bool) (s : string) :
  PyStr.all p s = true <-> ∀ c, In c (list_ascii_of_string s) -> p c = true.
Proof.
  induction s as [|d r IH]; simpl.
  - split; [intros _ c [] | reflexivity].
  - rewrite andb_true_iff, IH. split.
    + intros [Hd Hr] c [<-|Hc]; auto.
    + intros H. split; [apply H; now left | intros c Hc; apply H; now right].
Qed.

Lemma is_info_hash_hex40 (s : string) : is_info_hash s = true <-> hex40 s.
Proof.
  unfold is_info_hash, hex40.
  rewrite andb_true_iff, Nat.eqb_eq, all_In.
  split; intros [Hl Hc]; split; auto; intros c Hin; specialize (Hc c Hin).
  - now apply char_in_In in Hc.
  - now apply char_in_In.
Qed.

(** No hexadecimal digit is an "m" or an "h", in either case. *)
Lemma hex_not_m_h (c : ascii) :
  is_hex c = true ->
  Ascii.eqb (PyStr.lower_char c) "m" = false
  ∧ Ascii.eqb (PyStr.lower_char c) "h" = false.
Proof.
  destruct c as [[] [] [] [] [] [] [] []]; vm_compute; intros H;
    first [discriminate H | split; reflexivity].
Qed.

Lemma info_hash_not_prefixed (s : string) :
  is_info_hash s = true -> is_magnet s = false ∧ is_http s = false.
Proof.
  unfold is_info_hash, is_magnet, is_http, PyStr.startswith.
  destruct s as [|c r]; [discriminate|].
  rewrite andb_true_iff. intros [_ Hall]. simpl in Hall.
  apply andb_true_iff in Hall as [Hc _].
  destruct (hex_not_m_h c Hc) as [Hm Hh].
  cbn [PyStr.lower String.prefix].
  destruct (ascii_dec "m" (PyStr.lower_char c)) as [E|_];
    [rewrite <- E in Hm; discriminate|].
  destruct (ascii_dec "h" (PyStr.lower_char c)) as [E|_];
    [rewrite <- E in Hh; discriminate|].
  split; reflexivity.
Qed.

Lemma magnet_not_http (s : string) : is_magnet s = true -> is_http s = false.
Proof.
  unfold is_magnet, is_http, PyStr.startswith.
  destruct (PyStr.lower s) as [|c r]; [discriminate|].
  cbn [String.prefix].
  destruct (ascii_dec "m" c) as [<-|_]; [|discriminate].
  intros _. reflexivity.
Qed.

End Strings.

(** ** Ingest *)

Section Ingest.

Lemma classify_magnet (u : string) :
  classify u = Magnet <-> starts_with_ci "magnet:" u.
Proof.
  rewrite <- startswith_lower. fold (is_magnet u). unfold classify.
  destruct (is_magnet u); [tauto|].
  destruct (is_http u); [split; discriminate|].
  destruct (is_info_hash u); split; discriminate.
Qed.

Lemma is_http_ci (u : string) :
  is_http u = true <->
  starts_with_ci "http://" u ∨ starts_with_ci "https://" u.
Proof.
  unfold is_http. rewrite orb_true_iff. now rewrite !startswith_lower.
Qed.

Lemma classify_url (u : string) :
  classify u = TorrentUrl <->
  starts_with_ci "http://" u ∨ starts_with_ci "https://" u.
Proof.
  rewrite <- is_http_ci. unfold classify.
  destruct (is_magnet u) eqn:Hm.
  - rewrite (magnet_not_http _ Hm). split; discriminate.
  - destruct (is_http u); [tauto|].
    destruct (is_info_hash u); split; discriminate.
Qed.

Lemma classify_hash (u : string) : classify u = InfoHash <-> hex40 u.
Proof.
  rewrite <- is_info_hash_hex40. unfold classify.
  destruct (is_info_hash u) eqn:Hh.
  - destruct (info_hash_not_prefixed _ Hh) as [-> ->]. tauto.
  - destruct (is_magnet u); [split; discriminate|].
    destruct (is_http u); split; discriminate.
Qed.

Lemma classify_invalid (u : string) :
  classify u = Invalid <->
  ¬ starts_with_ci "magnet:" u
  ∧ ¬ (starts_with_ci "http://" u ∨ starts_with_ci "https://" u)
  ∧ ¬ hex40 u.
Proof.
  rewrite <- classify_magnet, <- classify_url, <- classify_hash.
  destruct (classify u); split.
  all: try discriminate.
  all: try (intros (H1 & H2 & H3); congruence).
  intros _. repeat split; discriminate.
Qed.

(** C9, as amended: the locator is stripped and then falls in exactly one
    of four classes.  It takes the magnet path when it starts with
    "magnet:", the descriptor-url path when it starts with "http://" or
    "https://" (both prefixes compared without regard to letter case), the
    info-hash path when it is 40 hexadecimal digits, and fails with the
    invalid-input error in every other case, leaving the registries as they
    were.  On each path the submission is the one of that path: the engine
    is asked for the locator itself, for the fetched descriptor, or for the
    magnet link made from the hash. *)
Theorem add_from_url_classification
    (e : env) (url : string) (save_path : option string) (sequential : bool)
    (w : world) :
  let u := PyStr.strip url in
  let out := add_from_url e url save_path sequential w in
  (classify u = Magnet <-> starts_with_ci "magnet:" u)
  ∧ (classify u = TorrentUrl <->
     starts_with_ci "http://" u ∨ starts_with_ci "https://" u)
  ∧ (classify u = InfoHash <-> hex40 u)
  ∧ (classify u = Invalid <->
     ¬ starts_with_ci "magnet:" u
     ∧ ¬ (starts_with_ci "http://" u ∨ starts_with_ci "https://" u)
     ∧ ¬ hex40 u)
  ∧ (classify u = Magnet ->
     match add_magnet_uri e u with
     | inr handle =>
         snd out = Ok (uuid4 e)
         ∧ torrents (fst out) !! uuid4 e = Some handle
         ∧ Metadata.source (metadata_of (uuid4 e) (fst out)) = Some "magnet"
     | inl msg => out = (w, Err 400 msg)
     end)
  ∧ (classify u = TorrentUrl ->
     match download_torrent_file e u with
     | Ok torrent_data =>
         match add_torrent e torrent_data with
         | inr handle =>
             snd out = Ok (uuid4 e)
             ∧ torrents (fst out) !! uuid4 e = Some handle
             ∧ Metadata.source (metadata_of (uuid4 e) (fst out)) = Some "url"
         | inl msg => out = (w, Err 400 msg)
         end
     | Err status_code detail =>
         out = (w, Err 400 (str_http_exception status_code detail))
     end)
  ∧ (classify u = InfoHash ->
     match add_magnet_uri e ("magnet:?xt=urn:btih:" ++ u) with
     | inr handle =>
         snd out = Ok (uuid4 e)
         ∧ torrents (fst out) !! uuid4 e = Some handle
         ∧ Metadata.source (metadata_of (uuid4 e) (fst out)) = Some "hash"
     | inl msg => out = (w, Err 400 msg)
     end)
  ∧ (classify u = Invalid -> out = (w, Err 400 msg_invalid_input)).
Proof.
  intros u out.
  split; [apply classify_magnet|].
  split; [apply classify_url|].
  split; [apply classify_hash|].
  split; [apply classify_invalid|].
  subst out; unfold add_from_url; fold u.
  repeat split; intros ->.
  - destruct (add_magnet_uri e u); [reflexivity|].
    cbn. unfold metadata_of. cbn. rewrite !lookup_insert_eq. auto.
  - destruct (download_torrent_file e u); [|reflexivity].
    destruct (add_torrent e a); [reflexivity|].
    cbn. unfold metadata_of. cbn. rewrite !lookup_insert_eq. auto.
  - destruct (add_magnet_uri e _); [reflexivity|].
    cbn. unfold metadata_of. cbn. rewrite !lookup_insert_eq. auto.
  - reflexivity.
Qed.

(** C9 as worded, with the prefixes compared letter for letter, fails: the
    locator "HTTP://host/a.torrent" starts with none of "magnet:",
    "http://" and "https://" and is not 40 hexadecimal digits, yet it is
    not rejected: it takes the descriptor-url path. *)
Lemma uppercase_scheme_takes_url_path :
  PyStr.strip " HTTP://host/a.torrent " = "HTTP://host/a.torrent"
  ∧ ¬ starts_with "magnet:" "HTTP://host/a.torrent"
  ∧ ¬ starts_with "http://" "HTTP://host/a.torrent"
  ∧ ¬ starts_with "https://" "HTTP://host/a.torrent"
  ∧ ¬ hex40 "HTTP://host/a.torrent"
  ∧ classify (PyStr.strip " HTTP://host/a.torrent ") = TorrentUrl
  ∧ classify (PyStr.strip " HTTP://host/a.torrent ") ≠ Invalid.
Proof.
  split; [reflexivity|].
  split; [intros [rest H]; discriminate H|].
  split; [intros [rest H]; discriminate H|].
  split; [intros [rest H]; discriminate H|].
  split; [intros [Hlen _]; discriminate Hlen|].
  split; [reflexivity | discriminate].
Qed.

End Ingest.

Section Descriptor.

Lemma check_content_not_bencode (e : env) (content : list byte) :
  (20 <= length content)%nat ->
  head content ≠ Some Byte.x64 ->
  check_content e content = inl msg_bencode.
Proof.
  intros Hlen Hd. unfold check_content.
  destruct (Nat.ltb_spec (length content) 20) as [Hlt|_]; [lia|].
  destruct content as [|b r]; [simpl in Hlen; lia|].
  destruct (try_except_pass _).
  destruct b; try reflexivity. now elim Hd.
Qed.

(** C7 does not hold of the code: a payload of at least 20 bytes that does
    not start with the bencode dictionary marker and that the probe
    recognises as HTML still fails with the invalid-bencode message.  The
    probe raises the HTML message inside a [try] whose bare [except: pass]
    catches it, and the statement after the [try] raises the generic
    message whatever the probe found. *)
Theorem html_payload_reports_bencode (e : env) (url : string) (content : list byte) :
  http_get e url = HttpContent content ->
  (20 <= length content)%nat ->
  head content ≠ Some Byte.x64 ->
  html_probe e content = inl msg_html ->
  download_torrent_file e url
  = Err 400 ("Could not download torrent: " ++ msg_bencode)
  ∧ download_torrent_file e url
    ≠ Err 400 ("Could not download torrent: " ++ msg_html).
Proof.
  intros Hget Hlen Hd _.
  assert (download_torrent_file e url
          = Err 400 ("Could not download torrent: " ++ msg_bencode)) as ->.
  { unfold download_torrent_file. rewrite Hget.
    now rewrite (check_content_not_bencode e content Hlen Hd). }
  split; [reflexivity | discriminate].
Qed.

Lemma html_payload_reports_bencode_witness :
  html_probe Sample.blocked Sample.html_page = inl msg_html
  ∧ download_torrent_file Sample.blocked "http://tracker.example/file.torrent"
    = Err 400 ("Could not download torrent: " ++ msg_bencode)
  ∧ download_torrent_file Sample.blocked "http://tracker.example/file.torrent"
    ≠ Err 400 ("Could not download torrent: " ++ msg_html).
Proof.
  split; [reflexivity|].
  apply (html_payload_reports_bencode
           Sample.blocked "http://tracker.example/file.torrent" Sample.html_page).
  - reflexivity.
  - simpl. lia.
  - discriminate.
  - reflexivity.
Defined.

End Descriptor.

(** ** The registries *)

(** Rewriting of lookups after a write at [tid], at [tid] and elsewhere. *)
Ltac lookups :=
  repeat first
    [ rewrite lookup_insert_eq | rewrite lookup_delete_eq
    | rewrite lookup_insert_ne by congruence
    | rewrite lookup_delete_ne by congruence ].

Ltac lookups_in H :=
  repeat first
    [ rewrite lookup_insert_eq in H | rewrite lookup_delete_eq in H
    | rewrite lookup_insert_ne in H by congruence
    | rewrite lookup_delete_ne in H by congruence ].

Section Registry.

Lemma ratio_defined (up down : Z) :
  py_truediv up (Z.max down 1) = Some (inject_Z up / inject_Z (Z.max down 1))%Q.
Proof.
  unfold py_truediv. destruct (Z.eqb_spec (Z.max down 1) 0); [lia | reflexivity].
Qed.

Lemma build_zip_cases (e : env) (tid : string) (files : list FileEntry.t)
    (name : string) (snap : Z) (w : world) :
  fst (build_zip_if_needed e tid files name snap w) = w
  ∨ ∃ z, fst (build_zip_if_needed e tid files name snap w)
         = with_temp_zips <[tid := z]> w
         ∧ 0 < ZipFile.st_size z.
Proof.
  unfold build_zip_if_needed.
  destruct (match temp_zips w !! tid with Some _ => _ | None => _ end);
    [now left|].
  right. destruct (zip_write (disk w) files) as [names ok].
  eexists. split; [destruct ok; reflexivity|]. cbn. lia.
Qed.

(** What [stop_if_completed] does when it does anything. *)
Lemma stop_if_completed_cases (e : env) (tid : string) (h : lt.torrent_handle)
    (st : lt.torrent_status) (w : world) :
  stop_if_completed e tid h st w = w
  ∨ (Metadata.stopped_on_complete (metadata_of tid w) = false
     ∧ lt.control_ok h = true
     ∧ ∃ ratio save added cf zs,
         py_truediv (Z.of_N (lt.all_time_upload st))
                 (Z.max (Z.of_N (lt.all_time_download st)) 1)
         = Some ratio
         ∧ stop_if_completed e tid h st w
           = {| torrents := delete tid (torrents w);
                torrent_metadata :=
                  <[tid := Metadata.mark_completed (time_now e) (metadata_of tid w)]>
                    (torrent_metadata w);
                completed_torrents :=
                  <[tid := completed_info tid st ratio save added]>
                    (completed_torrents w);
                completed_files := <[tid := cf]> (completed_files w);
                temp_zips := zs;
                disk := disk w |}
         ∧ (zs = temp_zips w
            ∨ ∃ z info, zs = <[tid := z]> (temp_zips w)
                 ∧ 0 < ZipFile.st_size z
                 ∧ lt.get_torrent_info h = Some info
                 ∧ (1 < length (lt.files info))%nat)).
Proof.
  unfold stop_if_completed.
  destruct (Metadata.stopped_on_complete (metadata_of tid w)) eqn:Hg; [now left|].
  destruct (lt.control_ok h) eqn:Hc; [|now left]. cbn [negb].
  rewrite ratio_defined. right. split; [reflexivity|]. split; [reflexivity|].
  set (files_snapshot := match lt.get_torrent_info h with
                         | Some info => _ | None => [] end).
  set (name := match lt.get_torrent_info h with
               | Some info => lt.info_name info | None => lt.name st end).
  set (w2 := with_completed_files _ _).
  destruct (Nat.ltb_spec 1 (length files_snapshot)) as [Hlen|Hlen].
  - destruct (build_zip_cases e tid files_snapshot name (time_now e) w2)
      as [->|(z & -> & Hz)].
    + do 5 eexists. split; [reflexivity|]. split; [reflexivity|]. now left.
    + do 5 eexists. split; [reflexivity|]. split; [reflexivity|]. right.
      subst files_snapshot.
      destruct (lt.get_torrent_info h) as [info|]; [|simpl in Hlen; lia].
      exists z, info. unfold file_entries in Hlen. rewrite length_map in Hlen.
      auto.
  - do 5 eexists. split; [reflexivity|]. split; [reflexivity|]. now left.
Qed.

Lemma stop_if_completed_coherent (live : gset string) (e : env) (tid : string)
    (h : lt.torrent_handle) (st : lt.torrent_status) (w : world) :
  coherent live w -> tid ∈ live ->
  coherent live (stop_if_completed e tid h st w).
Proof.
  intros Hw Hlive.
  destruct (stop_if_completed_cases e tid h st w)
    as [->|(Hg & Hc & ratio & save & added & cf & zs & _ & -> & Hzs)]; [exact Hw|].
  destruct Hw as [Hxor Hreg Hung Hfiles Hzl Hzn].
  split; cbn; intros t.
  - destruct (decide (t = tid)) as [->|Hne]; lookups.
    + intros [[? Hn] _]; discriminate Hn.
    + apply Hxor.
  - destruct (decide (t = tid)) as [->|Hne]; lookups.
    + split; [intros _; right; eauto | intros _; exact Hlive].
    + apply Hreg.
  - unfold metadata_of; cbn.
    destruct (decide (t = tid)) as [->|Hne]; lookups.
    + intros [? Hn]; discriminate Hn.
    + apply Hung.
  - destruct (decide (t = tid)) as [->|Hne]; lookups; [eauto | apply Hfiles].
  - destruct Hzs as [->|(z & info & -> & _)]; [apply Hzl|].
    destruct (decide (t = tid)) as [->|Hne]; lookups; [auto | apply Hzl].
  - intros z0. destruct Hzs as [->|(z & info & -> & Hz & _)]; [apply Hzn|].
    destruct (decide (t = tid)) as [->|Hne]; lookups; [|apply Hzn].
    intros [= <-]. exact Hz.
Qed.

Lemma monitor_job_coherent (live : gset string) (e : env) (tid : string)
    (h : lt.torrent_handle) (w : world) :
  coherent live w -> tid ∈ live -> coherent live (monitor_job e tid h w).
Proof.
  intros Hw Hlive. unfold monitor_job.
  destruct (lt.status h) as [st|]; [|exact Hw].
  destruct (Qle_bool 1 (lt.progress st)); [|exact Hw].
  now apply stop_if_completed_coherent.
Qed.

Lemma monitor_fold_coherent (live : gset string) (clock : string -> env)
    (l : list (string * lt.torrent_handle)) (w : world) :
  coherent live w -> (∀ tid h, In (tid, h) l -> tid ∈ live) ->
  coherent live
    (List.fold_left (fun acc '(tid, h) => monitor_job (clock tid) tid h acc) l w).
Proof.
  revert w; induction l as [|[tid h] l IH]; intros w Hw Hl; [exact Hw|].
  cbn [List.fold_left]. apply IH.
  - apply monitor_job_coherent; [exact Hw|]. apply (Hl tid h). now left.
  - intros t h' Hin. apply (Hl t h'). now right.
Qed.

Lemma monitor_tick_coherent (live : gset string) (clock : string -> env) (w : world) :
  coherent live w -> coherent live (monitor_tick clock w).
Proof.
  intros Hw. apply monitor_fold_coherent; [exact Hw|].
  intros tid h Hin. apply (live_registered _ _ Hw). left.
  apply list_elem_of_In, elem_of_map_to_list in Hin. eauto.
Qed.

Lemma register_coherent (live : gset string) (tid : string)
    (h : lt.torrent_handle) (m : Metadata.t) (w : world) :
  coherent live w -> unused tid w -> Metadata.stopped_on_complete m = false ->
  coherent (live ∪ {[tid]}) (register tid h m w).
Proof.
  intros [Hxor Hreg Hung Hfiles Hzl Hzn] (Ht & Hm & Hc & Hf & Hz) Hstop.
  split; cbn; intros t.
  - destruct (decide (t = tid)) as [->|Hne]; lookups; [|apply Hxor].
    rewrite Hc. intros [_ [? Hn]]; discriminate Hn.
  - rewrite elem_of_union, elem_of_singleton, Hreg.
    destruct (decide (t = tid)) as [->|Hne]; lookups; [|tauto].
    split; [intros _; left; eauto | auto].
  - unfold metadata_of; cbn.
    destruct (decide (t = tid)) as [->|Hne]; lookups; [auto | apply Hung].
  - apply Hfiles.
  - intros Hs. apply elem_of_union. left. now apply Hzl.
  - apply Hzn.
Qed.

Lemma add_from_url_cases (e : env) (url : string) (save_path : option string)
    (sequential : bool) (w : world) :
  (∃ c d, add_from_url e url save_path sequential w = (w, Err c d))
  ∨ ∃ h m, add_from_url e url save_path sequential w
           = (register (uuid4 e) h m w, Ok (uuid4 e))
           ∧ Metadata.stopped_on_complete m = false.
Proof.
  unfold add_from_url.
  destruct (classify _).
  - destruct (add_magnet_uri e _); [left; eauto | right; eauto].
  - destruct (download_torrent_file e _); [|left; eauto].
    destruct (add_torrent e _); [left; eauto | right; eauto].
  - destruct (add_magnet_uri e _); [left; eauto | right; eauto].
  - left; eauto.
Qed.

Lemma add_torrent_file_cases (e : env) (data : list byte)
    (save_path : option string) (sequential : bool) (w : world) :
  (∃ c d, add_torrent_file e data save_path sequential w = (w, Err c d))
  ∨ ∃ h m, add_torrent_file e data save_path sequential w
           = (register (uuid4 e) h m w, Ok (uuid4 e))
           ∧ Metadata.stopped_on_complete m = false.
Proof.
  unfold add_torrent_file.
  destruct (add_torrent e _); [left; eauto | right; eauto].
Qed.

Lemma remove_torrent_coherent (live : gset string) (tid : string)
    (delete_files : bool) (w : world) :
  coherent live w ->
  coherent (live_after (Remove tid delete_files) w live)
           (fst (remove_torrent tid delete_files w)).
Proof.
  intros [Hxor Hreg Hung Hfiles Hzl Hzn]. unfold live_after, remove_torrent.
  destruct (torrents w !! tid) as [h|] eqn:Ht.
  - split; cbn; intros t.
    + destruct (decide (t = tid)) as [->|Hne]; lookups; [|apply Hxor].
      intros [[? Hn] _]; discriminate Hn.
    + rewrite elem_of_difference, elem_of_singleton, Hreg.
      destruct (decide (t = tid)) as [->|Hne]; lookups; [|tauto].
      split; [tauto|]. intros [[? Hn]|Hc]; [discriminate Hn|].
      destruct (Hxor tid). rewrite Ht. eauto.
    + unfold metadata_of; cbn.
      destruct (decide (t = tid)) as [->|Hne]; lookups; [|apply Hung].
      intros [? Hn]; discriminate Hn.
    + apply Hfiles.
    + rewrite elem_of_difference, elem_of_singleton.
      destruct (decide (t = tid)) as [->|Hne]; lookups.
      * intros [? Hn]; discriminate Hn.
      * intros Hs. split; [now apply Hzl | exact Hne].
    + intros z. destruct (decide (t = tid)) as [->|Hne]; lookups;
        [discriminate | apply Hzn].
  - destruct (completed_torrents w !! tid) as [info|] eqn:Hc; cbn;
      [|split; assumption].
    assert (∀ w0, torrents w0 = torrents w ->
                  torrent_metadata w0 = torrent_metadata w ->
                  completed_torrents w0 = completed_torrents w ->
                  completed_files w0 = completed_files w ->
                  temp_zips w0 = temp_zips w ->
      coherent (live ∖ {[tid]})
        (with_temp_zips (delete tid)
           (with_metadata (delete tid)
              (with_completed_files (delete tid)
                 (with_completed_torrents (delete tid) w0))))) as Hgen.
    { intros w0 E1 E2 E3 E4 E5. split; cbn; rewrite ?E1, ?E2, ?E3, ?E4, ?E5; intros t.
      - destruct (decide (t = tid)) as [->|Hne]; lookups; [|apply Hxor].
        intros [_ [? Hn]]; discriminate Hn.
      - rewrite elem_of_difference, elem_of_singleton, Hreg.
        destruct (decide (t = tid)) as [->|Hne]; lookups; [|tauto].
        rewrite Ht. split; [tauto|]. intros [[? Hn]|[? Hn]]; discriminate Hn.
      - unfold metadata_of; cbn. rewrite E2.
        destruct (decide (t = tid)) as [->|Hne]; lookups; [|apply Hung].
        rewrite Ht. intros [? Hn]; discriminate Hn.
      - destruct (decide (t = tid)) as [->|Hne]; lookups; [|apply Hfiles].
        intros [? Hn]; discriminate Hn.
      - rewrite elem_of_difference, elem_of_singleton.
        destruct (decide (t = tid)) as [->|Hne]; lookups.
        + intros [? Hn]; discriminate Hn.
        + intros Hs. split; [now apply Hzl | exact Hne].
      - intros z. destruct (decide (t = tid)) as [->|Hne]; lookups;
          [discriminate | apply Hzn]. }
    destruct delete_files; apply Hgen; reflexivity.
Qed.

Lemma insert_existing_coherent (live : gset string) (tid : string)
    (h h' : lt.torrent_handle) (w : world) :
  coherent live w -> torrents w !! tid = Some h ->
  coherent live (with_torrents <[tid := h']> w).
Proof.
  intros [Hxor Hreg Hung Hfiles Hzl Hzn] Ht.
  split; cbn; try assumption; intros t.
  - destruct (decide (t = tid)) as [->|Hne]; lookups; [|apply Hxor].
    intros [_ Hc]. apply (Hxor tid). rewrite Ht. eauto.
  - rewrite Hreg. destruct (decide (t = tid)) as [->|Hne]; lookups; [|tauto].
    rewrite Ht. split; intros [?|?]; eauto.
  - unfold metadata_of; cbn. intros Hs. apply Hung.
    destruct (decide (t = tid)) as [->|Hne]; lookups_in Hs; [rewrite Ht; eauto | exact Hs].
Qed.

Lemma pause_torrent_coherent (live : gset string) (tid : string) (w : world) :
  coherent live w -> coherent live (fst (pause_torrent tid w)).
Proof.
  intros Hw. unfold pause_torrent.
  destruct (torrents w !! tid) as [h|] eqn:Ht; [|exact Hw].
  destruct (lt.control_ok h); [|exact Hw].
  now apply insert_existing_coherent with (h := h).
Qed.

Lemma resume_torrent_coherent (live : gset string) (tid : string) (w : world) :
  coherent live w -> coherent live (fst (resume_torrent tid w)).
Proof.
  intros Hw. unfold resume_torrent.
  destruct (torrents w !! tid) as [h|] eqn:Ht; [|exact Hw].
  destruct (lt.control_ok h); [|exact Hw].
  now apply insert_existing_coherent with (h := h).
Qed.

Lemma zip_write_existing (w : world) (files : list FileEntry.t) :
  zip_write (disk w) (existing w files)
  = (List.map FileEntry.relative_path (existing w files), true).
Proof.
  unfold existing. induction files as [|f r IH]; [reflexivity|].
  cbn [List.filter]. destruct (bool_decide_reflect (FileEntry.absolute_path f ∈ disk w)) as [Hin|Hout].
  - cbn [zip_write List.map]. destruct (decide _) as [_|Hn]; [|contradiction].
    now rewrite IH.
  - exact IH.
Qed.

Lemma build_zip_existing (e : env) (tid : string) (files : list FileEntry.t)
    (name : string) (snap : Z) (w : world) :
  let out := build_zip_if_needed e tid (existing w files) name snap w in
  snd out = Ok (zip_path tid, safe_base_of name)
  ∧ (fst out = w
     ∨ ∃ z, fst out = with_temp_zips <[tid := z]> w ∧ 0 < ZipFile.st_size z).
Proof.
  unfold build_zip_if_needed. rewrite zip_write_existing.
  destruct (match temp_zips w !! tid with Some _ => _ | None => _ end); cbn.
  - split; [reflexivity | now left].
  - split; [reflexivity|]. right. eexists. split; [reflexivity|]. cbn. lia.
Qed.

Lemma existing_length (w : world) (files : list FileEntry.t) :
  (length (existing w files) <= length files)%nat.
Proof. apply List.filter_length_le. Qed.

(** A download writes nothing but the archive of its job, and only for a job
    with more than one file. *)
Lemma download_cases (e : env) (tid : string) (file : option string) (w : world) :
  fst (download_torrent_files e tid file w) = w
  ∨ ∃ files name z,
      get_torrent_files tid w = Ok (files, name)
      ∧ (1 < length files)%nat
      ∧ 0 < ZipFile.st_size z
      ∧ fst (download_torrent_files e tid file w) = with_temp_zips <[tid := z]> w.
Proof.
  unfold download_torrent_files.
  destruct (get_torrent_files tid w) as [[files name]|c d] eqn:Hf; [|now left].
  destruct (existing w files) as [|first others] eqn:Hex; [now left|].
  destruct (selector file) as [f|].
  - destruct (rejected_selector _); [now left|].
    destruct (List.find _ _); now left.
  - destruct others as [|second others]; [now left|].
    rewrite <- Hex.
    destruct (build_zip_existing e tid files name (freshness_marker e tid w) w)
      as [Hs Hw].
    destruct (build_zip_if_needed _ _ _ _ _ _) as [w' r]. cbn in Hs, Hw. subst r.
    destruct Hw as [->|(z & -> & Hz)]; [now left|].
    right. exists files, name, z. repeat split; auto.
    pose proof (existing_length w files) as Hl. rewrite Hex in Hl. simpl in Hl. lia.
Qed.

Lemma get_torrent_files_known (live : gset string) (tid : string) (w : world)
    (files : list FileEntry.t) (name : string) :
  coherent live w -> get_torrent_files tid w = Ok (files, name) -> tid ∈ live.
Proof.
  intros Hw. unfold get_torrent_files.
  destruct (torrents w !! tid) as [h|] eqn:Ht.
  - intros _. apply (live_registered _ _ Hw). left. eauto.
  - destruct (completed_files w !! tid) as [cf|] eqn:Hc; [|discriminate].
    intros _. apply (live_registered _ _ Hw). right.
    apply (files_completed _ _ Hw). eauto.
Qed.

Lemma download_coherent (live : gset string) (e : env) (tid : string)
    (file : option string) (w : world) :
  coherent live w -> coherent live (fst (download_torrent_files e tid file w)).
Proof.
  intros Hw.
  destruct (download_cases e tid file w)
    as [->|(files & name & z & Hf & _ & Hz & ->)]; [exact Hw|].
  pose proof (get_torrent_files_known _ _ _ _ _ Hw Hf) as Hlive.
  destruct Hw as [Hxor Hreg Hung Hfiles Hzl Hzn].
  split; cbn; try assumption; intros t.
  - destruct (decide (t = tid)) as [->|Hne]; lookups; [auto | apply Hzl].
  - intros z0. destruct (decide (t = tid)) as [->|Hne]; lookups; [|apply Hzn].
    intros [= <-]. exact Hz.
Qed.

Lemma engine_coherent (live : gset string) (handles : gmap string lt.torrent_handle)
    (files : gset Path) (w : world) :
  coherent live w -> dom handles = dom (torrents w) ->
  coherent live (with_disk (fun _ => files) (with_torrents (fun _ => handles) w)).
Proof.
  intros [Hxor Hreg Hung Hfiles Hzl Hzn] Hdom.
  assert (∀ t, is_Some (handles !! t) <-> is_Some (torrents w !! t)) as Hsame.
  { intros t. rewrite <- !elem_of_dom. now rewrite Hdom. }
  split; cbn; try assumption; intros t.
  - rewrite Hsame. apply Hxor.
  - rewrite Hsame. apply Hreg.
  - rewrite Hsame. apply Hung.
Qed.

Lemma step_coherent (live : gset string) (ev : event) (w : world) :
  coherent live w -> admissible ev w ->
  coherent (live_after ev w live) (step ev w).
Proof.
  intros Hw Hadm. destruct ev; cbn [step live_after].
  - destruct (add_from_url_cases e url save_path sequential w)
      as [(c & d & ->)|(h & m & -> & Hm)]; [exact Hw|].
    now apply register_coherent.
  - destruct (add_torrent_file_cases e torrent_data save_path sequential w)
      as [(c & d & ->)|(h & m & -> & Hm)]; [exact Hw|].
    now apply register_coherent.
  - now apply remove_torrent_coherent.
  - now apply pause_torrent_coherent.
  - now apply resume_torrent_coherent.
  - now apply monitor_tick_coherent.
  - now apply download_coherent.
  - now apply engine_coherent.
Qed.

Lemma initial_coherent (files : gset Path) : coherent ∅ (initial files).
Proof.
  split; cbn; intros t; rewrite ?lookup_empty.
  - intros [[? Hn] _]; discriminate Hn.
  - split; [intros Hin; now apply not_elem_of_empty in Hin|].
    intros [[? Hn]|[? Hn]]; discriminate Hn.
  - intros [? Hn]; discriminate Hn.
  - intros [? Hn]; discriminate Hn.
  - intros [? Hn]; discriminate Hn.
  - intros z; discriminate.
Qed.

Lemma reach_coherent (live : gset string) (w : world) :
  reach live w -> coherent live w.
Proof.
  induction 1 as [files|live w ev _ IH Hadm];
    [apply initial_coherent | now apply step_coherent].
Qed.

Lemma monitor_job_torrents (e : env) (tid : string) (h : lt.torrent_handle)
    (w : world) (t : string) :
  torrents w !! t = None -> torrents (monitor_job e tid h w) !! t = None.
Proof.
  intros Ht. unfold monitor_job.
  destruct (lt.status h) as [st|]; [|exact Ht].
  destruct (Qle_bool 1 (lt.progress st)); [|exact Ht].
  destruct (stop_if_completed_cases e tid h st w)
    as [->|(_ & _ & ratio & save & added & cf & zs & _ & -> & _)]; [exact Ht|].
  cbn. destruct (decide (t = tid)) as [->|Hne]; lookups; [reflexivity | exact Ht].
Qed.

Lemma monitor_job_completed (e : env) (tid : string) (h : lt.torrent_handle)
    (w : world) (t : string) :
  is_Some (completed_torrents (monitor_job e tid h w) !! t) ->
  is_Some (completed_torrents w !! t)
  ∨ (t = tid ∧ ∃ st, lt.status h = Some st ∧ (1 <= lt.progress st)%Q).
Proof.
  unfold monitor_job.
  destruct (lt.status h) as [st|]; [|now left].
  destruct (Qle_bool 1 (lt.progress st)) eqn:Hp; [|now left].
  apply Qle_bool_iff in Hp.
  destruct (stop_if_completed_cases e tid h st w)
    as [->|(_ & _ & ratio & save & added & cf & zs & _ & -> & _)]; [now left|].
  cbn. destruct (decide (t = tid)) as [->|Hne]; lookups; [|now left].
  intros _. right. eauto.
Qed.

Lemma monitor_fold_torrents (clock : string -> env)
    (l : list (string * lt.torrent_handle)) (w : world) (t : string) :
  torrents w !! t = None ->
  torrents (List.fold_left (fun acc '(tid, h) => monitor_job (clock tid) tid h acc) l w)
    !! t = None.
Proof.
  revert w; induction l as [|[tid h] l IH]; intros w Ht; [exact Ht|].
  cbn [List.fold_left]. apply IH. now apply monitor_job_torrents.
Qed.

Lemma monitor_fold_completed (clock : string -> env)
    (l : list (string * lt.torrent_handle)) (w : world) (t : string) :
  is_Some (completed_torrents
             (List.fold_left (fun acc '(tid, h) => monitor_job (clock tid) tid h acc) l w)
           !! t) ->
  is_Some (completed_torrents w !! t)
  ∨ ∃ h st, In (t, h) l ∧ lt.status h = Some st ∧ (1 <= lt.progress st)%Q.
Proof.
  revert w; induction l as [|[tid h] l IH]; intros w Hs; [now left|].
  cbn [List.fold_left] in Hs. apply IH in Hs as [Hs|(h' & st & Hin & Hst & Hp)].
  - apply monitor_job_completed in Hs as [Hs|(-> & st & Hst & Hp)]; [now left|].
    right. exists h, st. split; [now left | auto].
  - right. exists h', st. split; [now right | auto].
Qed.

(** No event moves a completed job back to the active map. *)
Lemma completed_stays_inactive (live : gset string) (ev : event) (w : world)
    (tid : string) :
  coherent live w -> admissible ev w ->
  is_Some (completed_torrents w !! tid) ->
  torrents (step ev w) !! tid = None.
Proof.
  intros Hw Hadm Hc.
  assert (torrents w !! tid = None) as Ht.
  { destruct (torrents w !! tid) eqn:E; [|reflexivity].
    destruct (active_xor_completed _ _ Hw tid). rewrite E. eauto. }
  assert (∀ e h m, unused (uuid4 e) w ->
            torrents (register (uuid4 e) h m w) !! tid = None) as Hreg.
  { intros e h m (_ & _ & Hu & _). cbn.
    destruct (decide (tid = uuid4 e)) as [->|Hne]; lookups; [|exact Ht].
    rewrite Hu in Hc. destruct Hc as [? Hn]; discriminate Hn. }
  destruct ev; cbn [step].
  - destruct (add_from_url_cases e url save_path sequential w)
      as [(c & d & ->)|(h & m & -> & _)]; [exact Ht | now apply Hreg].
  - destruct (add_torrent_file_cases e torrent_data save_path sequential w)
      as [(c & d & ->)|(h & m & -> & _)]; [exact Ht | now apply Hreg].
  - unfold remove_torrent.
    destruct (torrents w !! torrent_id) eqn:E; cbn.
    + destruct (decide (tid = torrent_id)) as [->|Hne]; lookups; [reflexivity | exact Ht].
    + destruct (completed_torrents w !! torrent_id); [destruct delete_files|]; exact Ht.
  - unfold pause_torrent.
    destruct (torrents w !! torrent_id) as [h|] eqn:E; [|exact Ht].
    destruct (lt.control_ok h); [|exact Ht]. cbn.
    destruct (decide (tid = torrent_id)) as [->|Hne]; lookups; [congruence | exact Ht].
  - unfold resume_torrent.
    destruct (torrents w !! torrent_id) as [h|] eqn:E; [|exact Ht].
    destruct (lt.control_ok h); [|exact Ht]. cbn.
    destruct (decide (tid = torrent_id)) as [->|Hne]; lookups; [congruence | exact Ht].
  - now apply monitor_fold_torrents.
  - destruct (download_cases e torrent_id file w)
      as [->|(files & name & z & _ & _ & _ & ->)]; exact Ht.
  - cbn. cbn in Hadm. apply not_elem_of_dom. rewrite Hadm. now apply not_elem_of_dom.
Qed.

(** Only the completion step moves an active job to the completed
    registry. *)
Lemma completion_only_by_tick (live : gset string) (ev : event) (w : world)
    (tid : string) :
  coherent live w -> admissible ev w ->
  is_Some (torrents w !! tid) ->
  is_Some (completed_torrents (step ev w) !! tid) ->
  completion_step_of tid ev w.
Proof.
  intros Hw Hadm Ht Hc.
  assert (¬ is_Some (completed_torrents w !! tid)) as Hnc.
  { intros Hs. now apply (active_xor_completed _ _ Hw tid). }
  destruct ev; cbn [step] in Hc.
  - destruct (add_from_url_cases e url save_path sequential w)
      as [(c & d & E)|(h & m & E & _)]; rewrite E in Hc; contradiction.
  - destruct (add_torrent_file_cases e torrent_data save_path sequential w)
      as [(c & d & E)|(h & m & E & _)]; rewrite E in Hc; contradiction.
  - exfalso. revert Hc. unfold remove_torrent.
    destruct (torrents w !! torrent_id) eqn:E; cbn; [exact Hnc|].
    destruct (completed_torrents w !! torrent_id) eqn:E'; cbn; [|exact Hnc].
    destruct (decide (tid = torrent_id)) as [->|Hne].
    + destruct delete_files; cbn; lookups; intros [? Hn]; discriminate Hn.
    + destruct delete_files; cbn; lookups; exact Hnc.
  - exfalso. revert Hc. unfold pause_torrent.
    destruct (torrents w !! torrent_id) as [h|]; [|exact Hnc].
    destruct (lt.control_ok h); exact Hnc.
  - exfalso. revert Hc. unfold resume_torrent.
    destruct (torrents w !! torrent_id) as [h|]; [|exact Hnc].
    destruct (lt.control_ok h); exact Hnc.
  - apply monitor_fold_completed in Hc as [Hc|(h & st & Hin & Hst & Hp)];
      [contradiction|].
    exists clock, h, st. repeat split; auto.
    now apply list_elem_of_In, elem_of_map_to_list in Hin.
  - exfalso. revert Hc.
    destruct (download_cases e torrent_id file w)
      as [->|(files & name & z & _ & _ & _ & ->)]; exact Hnc.
  - contradiction.
Qed.

(** C1.  In every observable world a job id that was submitted and not
    removed is in exactly one of the active map and the completed registry:
    never in both, and in one of them exactly when it is alive.  Whatever
    happens next, a completed job does not become active again, and an active
    job turns up in the completed registry only through the completion step
    of a monitor tick that saw it report full progress. *)
Theorem registry_partition (live : gset string) (w : world) :
  reach live w ->
  (∀ tid, ¬ (tid ∈ dom (torrents w) ∧ tid ∈ dom (completed_torrents w)))
  ∧ (∀ tid, tid ∈ live <->
            tid ∈ dom (torrents w) ∨ tid ∈ dom (completed_torrents w))
  ∧ (∀ ev tid, admissible ev w ->
       (tid ∈ dom (completed_torrents w) -> tid ∉ dom (torrents (step ev w)))
       ∧ (tid ∈ dom (torrents w) ->
          tid ∈ dom (completed_torrents (step ev w)) ->
          completion_step_of tid ev w)).
Proof.
  intros Hreach. pose proof (reach_coherent _ _ Hreach) as Hw.
  split; [|split].
  - intros tid. rewrite !elem_of_dom. apply (active_xor_completed _ _ Hw).
  - intros tid. rewrite !elem_of_dom. apply (live_registered _ _ Hw).
  - intros ev tid Hadm. split.
    + rewrite elem_of_dom. intros Hc. apply not_elem_of_dom.
      now apply (completed_stays_inactive live).
    + rewrite !elem_of_dom. now apply (completion_only_by_tick live).
Qed.

Lemma sample_run_reach :
  reach (Sample.submitted_live 1 true Sample.files_on_disk)
        (Sample.submitted 1 true Sample.files_on_disk).
Proof.
  apply reach_step; [apply reach_initial|].
  repeat split; apply lookup_empty.
Qed.

Lemma sample_finished_reach :
  reach (Sample.submitted_live 1 true Sample.files_on_disk) Sample.finished.
Proof.
  exact (reach_step _ _ (Sample.tick 200) sample_run_reach I).
Qed.

Lemma registry_partition_witness :
  reach (Sample.submitted_live 1 true Sample.files_on_disk) Sample.finished
  ∧ (∀ tid, ¬ (tid ∈ dom (torrents Sample.finished)
               ∧ tid ∈ dom (completed_torrents Sample.finished)))
  ∧ (∀ tid, tid ∈ Sample.submitted_live 1 true Sample.files_on_disk <->
            tid ∈ dom (torrents Sample.finished)
            ∨ tid ∈ dom (completed_torrents Sample.finished))
  ∧ (∀ ev tid, admissible ev Sample.finished ->
       (tid ∈ dom (completed_torrents Sample.finished) ->
        tid ∉ dom (torrents (step ev Sample.finished)))
       ∧ (tid ∈ dom (torrents Sample.finished) ->
          tid ∈ dom (completed_torrents (step ev Sample.finished)) ->
          completion_step_of tid ev Sample.finished)).
Proof.
  split; [exact sample_finished_reach|].
  exact (registry_partition _ _ sample_finished_reach).
Defined.

(** The album submitted with full progress reported, to an engine whose
    handle refuses the pause. *)
Lemma sample_refusing_reach :
  reach (Sample.submitted_live 1 false Sample.files_on_disk)
        (Sample.submitted 1 false Sample.files_on_disk).
Proof.
  apply reach_step; [apply reach_initial|].
  repeat split; apply lookup_empty.
Qed.

(** A monitor iteration for one job leaves the entries of the other jobs as
    they are. *)
Lemma monitor_job_frame (e : env) (tid : string) (h : lt.torrent_handle)
    (w : world) (t : string) :
  t ≠ tid ->
  torrents (monitor_job e tid h w) !! t = torrents w !! t
  ∧ torrent_metadata (monitor_job e tid h w) !! t = torrent_metadata w !! t
  ∧ completed_torrents (monitor_job e tid h w) !! t = completed_torrents w !! t
  ∧ completed_files (monitor_job e tid h w) !! t = completed_files w !! t
  ∧ temp_zips (monitor_job e tid h w) !! t = temp_zips w !! t.
Proof.
  intros Hne. unfold monitor_job.
  destruct (lt.status h) as [st|]; [|auto].
  destruct (Qle_bool 1 (lt.progress st)); [|auto].
  destruct (stop_if_completed_cases e tid h st w)
    as [->|(_ & _ & ratio & save & added & cf & zs & _ & -> & Hzs)]; [auto|].
  cbn. lookups. repeat split.
  destruct Hzs as [->|(z & info & -> & _)]; [reflexivity | now lookups].
Qed.

Lemma monitor_fold_frame (clock : string -> env)
    (l : list (string * lt.torrent_handle)) (w : world) (t : string) :
  ¬ In t (List.map fst l) ->
  let w' := List.fold_left (fun acc '(tid, h) => monitor_job (clock tid) tid h acc) l w in
  torrents w' !! t = torrents w !! t
  ∧ torrent_metadata w' !! t = torrent_metadata w !! t
  ∧ completed_torrents w' !! t = completed_torrents w !! t
  ∧ completed_files w' !! t = completed_files w !! t
  ∧ temp_zips w' !! t = temp_zips w !! t.
Proof.
  revert w; induction l as [|[tid h] l IH]; intros w Hnin; [cbn; auto|].
  cbn [List.fold_left]. cbn in Hnin.
  destruct (IH (monitor_job (clock tid) tid h w)) as (E1 & E2 & E3 & E4 & E5);
    [tauto|].
  destruct (monitor_job_frame (clock tid) tid h w t) as (F1 & F2 & F3 & F4 & F5);
    [intros ->; tauto|].
  cbv zeta. rewrite E1, E2, E3, E4, E5. auto.
Qed.

(** The completion step itself, for a job that is not guarded and whose
    handle takes the pause. *)
Lemma stop_if_completed_completes (e : env) (tid : string) (h : lt.torrent_handle)
    (st : lt.torrent_status) (w : world) :
  Metadata.stopped_on_complete (metadata_of tid w) = false ->
  lt.control_ok h = true ->
  let w' := stop_if_completed e tid h st w in
  torrents w' !! tid = None
  ∧ ∃ ratio save added,
      py_truediv (Z.of_N (lt.all_time_upload st))
                 (Z.max (Z.of_N (lt.all_time_download st)) 1)
      = Some ratio
      ∧ completed_torrents w' !! tid = Some (completed_info tid st ratio save added).
Proof.
  intros Hg Hc.
  destruct (stop_if_completed_cases e tid h st w)
    as [E|(_ & _ & ratio & save & added & cf & zs & Hr & E & _)].
  - exfalso. revert E. unfold stop_if_completed. rewrite Hg, Hc, ratio_defined.
    cbn [negb]. intros E. apply (f_equal (fun x => torrent_metadata x !! tid)) in E.
    cbn in E. lookups_in E. unfold metadata_of in Hg.
    destruct (torrent_metadata w !! tid) as [m|]; [|discriminate E].
    cbn in Hg. injection E as E. rewrite <- E in Hg. discriminate Hg.
  - cbv zeta. rewrite E. cbn. lookups. split; [reflexivity|].
    exists ratio, save, added. auto.
Qed.

Lemma monitor_fold_completes (clock : string -> env)
    (l : list (string * lt.torrent_handle)) (w : world) (tid : string)
    (h : lt.torrent_handle) (st : lt.torrent_status) :
  List.NoDup (List.map fst l) -> In (tid, h) l ->
  Metadata.stopped_on_complete (metadata_of tid w) = false ->
  lt.status h = Some st -> (1 <= lt.progress st)%Q -> lt.control_ok h = true ->
  let w' := List.fold_left (fun acc '(tid, h) => monitor_job (clock tid) tid h acc) l w in
  torrents w' !! tid = None
  ∧ ∃ ratio save added,
      py_truediv (Z.of_N (lt.all_time_upload st))
                 (Z.max (Z.of_N (lt.all_time_download st)) 1)
      = Some ratio
      ∧ completed_torrents w' !! tid = Some (completed_info tid st ratio save added).
Proof.
  intros Hnd Hin Hg Hst Hp Hc. revert w Hg.
  induction l as [|[t0 h0] l IH]; intros w Hg; [destruct Hin|].
  cbn [List.fold_left]. cbn in Hnd. apply List.NoDup_cons_iff in Hnd as [Hfresh Hnd].
  destruct Hin as [[= -> ->]|Hin].
  - destruct (monitor_fold_frame clock l (monitor_job (clock tid) tid h w) tid Hfresh)
      as (E1 & _ & E3 & _). cbv zeta. rewrite E1, E3.
    unfold monitor_job. rewrite Hst.
    apply Qle_bool_iff in Hp. rewrite Hp.
    now apply stop_if_completed_completes.
  - assert (tid ≠ t0) as Hne.
    { intros ->. apply Hfresh. now apply (List.in_map fst) in Hin. }
    apply IH; [exact Hnd | exact Hin|].
    destruct (monitor_job_frame (clock t0) t0 h0 w tid Hne) as (_ & F2 & _).
    unfold metadata_of in *. now rewrite F2.
Qed.

(** C3, as amended.  A job of the active map whose handle reports full
    progress and takes the pause request of the completion step is moved by
    the next monitor tick: it leaves the active map, and the completed
    registry holds for it a record with its id, progress 100, both rates 0
    and both counts 0. *)
Theorem tick_completes_job (live : gset string) (clock : string -> env)
    (w : world) (tid : string) (h : lt.torrent_handle) (st : lt.torrent_status) :
  reach live w ->
  torrents w !! tid = Some h ->
  lt.status h = Some st ->
  (1 <= lt.progress st)%Q ->
  lt.control_ok h = true ->
  torrents (monitor_tick clock w) !! tid = None
  ∧ ∃ info,
      completed_torrents (monitor_tick clock w) !! tid = Some info
      ∧ TorrentInfo.id info = tid
      ∧ TorrentInfo.progress info = 100%Q
      ∧ TorrentInfo.download_rate info = 0
      ∧ TorrentInfo.upload_rate info = 0
      ∧ TorrentInfo.num_peers info = 0
      ∧ TorrentInfo.num_seeds info = 0.
Proof.
  intros Hreach Ht Hst Hp Hc.
  pose proof (reach_coherent _ _ Hreach) as Hw.
  destruct (monitor_fold_completes clock (map_to_list (torrents w)) w tid h st)
    as (Hgone & ratio & save & added & _ & Hdone); auto.
  - apply NoDup_ListNoDup. apply NoDup_fst_map_to_list.
  - apply list_elem_of_In, elem_of_map_to_list. exact Ht.
  - apply (active_unguarded _ _ Hw). rewrite Ht. eauto.
  - split; [exact Hgone|]. eexists. split; [exact Hdone|]. repeat split.
Qed.

Lemma tick_completes_job_witness :
  torrents (monitor_tick (fun _ => Sample.environment 200 (Sample.handle 1 true))
              (Sample.submitted 1 true Sample.files_on_disk)) !! "job-1" = None
  ∧ ∃ info,
      completed_torrents
        (monitor_tick (fun _ => Sample.environment 200 (Sample.handle 1 true))
           (Sample.submitted 1 true Sample.files_on_disk)) !! "job-1" = Some info
      ∧ TorrentInfo.id info = "job-1"
      ∧ TorrentInfo.progress info = 100%Q
      ∧ TorrentInfo.download_rate info = 0
      ∧ TorrentInfo.upload_rate info = 0
      ∧ TorrentInfo.num_peers info = 0
      ∧ TorrentInfo.num_seeds info = 0.
Proof.
  apply (tick_completes_job _ _ _ "job-1" (Sample.handle 1 true) (Sample.status 1)
           sample_run_reach).
  - vm_compute. reflexivity.
  - reflexivity.
  - apply Qle_refl.
  - reflexivity.
Defined.

(** C3 as worded fails when the engine refuses the pause: the album is in
    the active map and reports full progress, and after the tick it is still
    in the active map and not in the completed registry (the refusal is
    logged, and the next tick tries again). *)
Lemma tick_leaves_refusing_job_active :
  reach (Sample.submitted_live 1 false Sample.files_on_disk)
        (Sample.submitted 1 false Sample.files_on_disk)
  ∧ torrents (Sample.submitted 1 false Sample.files_on_disk) !! "job-1"
    = Some (Sample.handle 1 false)
  ∧ lt.status (Sample.handle 1 false) = Some (Sample.status 1)
  ∧ (1 <= lt.progress (Sample.status 1))%Q
  ∧ torrents (step (Sample.tick 200) (Sample.submitted 1 false Sample.files_on_disk))
      !! "job-1"
    = Some (Sample.handle 1 false)
  ∧ completed_torrents
      (step (Sample.tick 200) (Sample.submitted 1 false Sample.files_on_disk))
      !! "job-1"
    = None.
Proof.
  split; [exact sample_refusing_reach|].
  split; [vm_compute; reflexivity|].
  split; [reflexivity|].
  split; [apply Qle_refl|].
  split; vm_compute; reflexivity.
Qed.

Lemma stop_if_completed_guarded (e : env) (tid : string) (h : lt.torrent_handle)
    (st : lt.torrent_status) (w : world) :
  Metadata.stopped_on_complete (metadata_of tid w) = true ->
  stop_if_completed e tid h st w = w.
Proof. intros Hg. unfold stop_if_completed. now rewrite Hg. Qed.

(** After a completion step that went through, the guard is set. *)
Lemma stop_if_completed_sets_guard (e : env) (tid : string) (h : lt.torrent_handle)
    (st : lt.torrent_status) (w : world) :
  lt.control_ok h = true ->
  Metadata.stopped_on_complete (metadata_of tid (stop_if_completed e tid h st w))
  = true.
Proof.
  intros Hc.
  destruct (Metadata.stopped_on_complete (metadata_of tid w)) eqn:Hg.
  - now rewrite stop_if_completed_guarded.
  - destruct (stop_if_completed_cases e tid h st w)
      as [E|(_ & _ & ratio & save & added & cf & zs & _ & -> & _)].
    + exfalso. revert E. unfold stop_if_completed. rewrite Hg, Hc, ratio_defined.
      cbn [negb]. intros E. apply (f_equal (fun x => torrent_metadata x !! tid)) in E.
      cbn in E. lookups_in E. unfold metadata_of in Hg.
      destruct (torrent_metadata w !! tid) as [m|]; [|discriminate E].
      cbn in Hg. injection E as E. rewrite <- E in Hg. discriminate Hg.
    + unfold metadata_of. cbn. now lookups.
Qed.

Lemma stop_if_completed_zips_nonempty (e : env) (tid : string)
    (h : lt.torrent_handle) (st : lt.torrent_status) (w : world) :
  (∀ t z, temp_zips w !! t = Some z -> 0 < ZipFile.st_size z) ->
  ∀ t z, temp_zips (stop_if_completed e tid h st w) !! t = Some z ->
         0 < ZipFile.st_size z.
Proof.
  intros Hzn.
  destruct (stop_if_completed_cases e tid h st w)
    as [->|(_ & _ & ratio & save & added & cf & zs & _ & -> & Hzs)]; [exact Hzn|].
  cbn. destruct Hzs as [->|(z & info & -> & Hz & _)]; [exact Hzn|].
  intros t z0. destruct (decide (t = tid)) as [->|Hne]; lookups; [|apply Hzn].
  intros [= <-]. exact Hz.
Qed.

(** An archive that is there, not empty and not older than the freshness
    marker is returned as it is. *)
Lemma build_zip_reuses_fresh (e : env) (tid : string) (files : list FileEntry.t)
    (name : string) (snap : Z) (w : world) (z : ZipFile.t) :
  temp_zips w !! tid = Some z -> 0 < ZipFile.st_size z ->
  snap <= ZipFile.st_mtime z ->
  build_zip_if_needed e tid files name snap w
  = (w, Ok (zip_path tid, safe_base_of name)).
Proof.
  intros Hz Hsize Hfresh. unfold build_zip_if_needed. rewrite Hz.
  destruct (Z.ltb_spec 0 (ZipFile.st_size z)); [|lia].
  destruct (Z.leb_spec snap (ZipFile.st_mtime z)); [|lia].
  reflexivity.
Qed.

(** C4.  Completion is idempotent.  Once the completion step of a job has
    gone through, a second invocation, with whatever the engine reports by
    then, is skipped by the guard: the world, and with it the completed
    snapshot of the job, is the one the first invocation left.  The archive
    left for the job is not rebuilt by a later request whose freshness marker
    is not after the modification time of the archive. *)
Theorem completion_idempotent (live : gset string) (e : env) (tid : string)
    (h : lt.torrent_handle) (st : lt.torrent_status) (w : world) :
  reach live w ->
  lt.control_ok h = true ->
  (∀ e' h' st',
     stop_if_completed e' tid h' st' (stop_if_completed e tid h st w)
     = stop_if_completed e tid h st w)
  ∧ (∀ e' h' st',
       completed_torrents
         (stop_if_completed e' tid h' st' (stop_if_completed e tid h st w)) !! tid
       = completed_torrents (stop_if_completed e tid h st w) !! tid)
  ∧ (∀ e' files name snapshot_time z,
       temp_zips (stop_if_completed e tid h st w) !! tid = Some z ->
       snapshot_time <= ZipFile.st_mtime z ->
       build_zip_if_needed e' tid files name snapshot_time
         (stop_if_completed e tid h st w)
       = (stop_if_completed e tid h st w, Ok (zip_path tid, safe_base_of name))).
Proof.
  intros Hreach Hc.
  pose proof (stop_if_completed_sets_guard e tid h st w Hc) as Hg.
  split; [|split].
  - intros e' h' st'. now apply stop_if_completed_guarded.
  - intros e' h' st'. now rewrite stop_if_completed_guarded.
  - intros e' files name snap z Hz Hfresh.
    apply build_zip_reuses_fresh with (z := z); auto.
    apply (stop_if_completed_zips_nonempty e tid h st w) with (t := tid); auto.
    apply (zips_nonempty _ _ (reach_coherent _ _ Hreach)).
Qed.

Lemma completion_idempotent_witness :
  (∀ e' h' st',
     stop_if_completed e' "job-1" h' st' Sample.finished = Sample.finished)
  ∧ (∀ e' h' st',
       completed_torrents (stop_if_completed e' "job-1" h' st' Sample.finished)
         !! "job-1"
       = completed_torrents Sample.finished !! "job-1")
  ∧ (∀ e' files name snapshot_time z,
       temp_zips Sample.finished !! "job-1" = Some z ->
       snapshot_time <= ZipFile.st_mtime z ->
       build_zip_if_needed e' "job-1" files name snapshot_time Sample.finished
       = (Sample.finished, Ok (zip_path "job-1", safe_base_of name))).
Proof.
  assert (stop_if_completed (Sample.environment 200 (Sample.handle 1 true))
            "job-1" (Sample.handle 1 true) (Sample.status 1)
            (Sample.submitted 1 true Sample.files_on_disk)
          = Sample.finished) as E by (vm_compute; reflexivity).
  rewrite <- E.
  apply (completion_idempotent _ _ _ _ _ _ sample_run_reach). reflexivity.
Defined.

(** ** The ratio *)


Lemma get_torrent_info_active_ratio (tid : string) (w : world)
    (h : lt.torrent_handle) (st : lt.torrent_status) :
  torrents w !! tid = Some h -> lt.status h = Some st ->
  ∃ info, get_torrent_info tid w = Ok info
          ∧ TorrentInfo.ratio info
            = (inject_Z (Z.of_N (lt.all_time_upload st))
               / inject_Z (Z.max (Z.of_N (lt.all_time_download st)) 1))%Q.
Proof.
  intros Ht Hst. unfold get_torrent_info. rewrite Ht, Hst, ratio_defined.
  destruct (Z.ltb_spec 0 (lt.download_rate st)) as [Hpos|_].
  - unfold py_int_truediv.
    destruct (Z.eqb_spec (lt.download_rate st) 0); [lia|]. eauto.
  - eauto.
Qed.


(** ** Pause, resume and the queries *)

Lemma insert_desc_In (x y : TorrentInfo.t) (l : list TorrentInfo.t) :
  In x (insert_desc y l) <-> x = y ∨ In x l.
Proof.
  induction l as [|z l IH]; cbn.
  - intuition congruence.
  - destruct (TorrentInfo.added_time z <? TorrentInfo.added_time y); cbn.
    + intuition congruence.
    + rewrite IH. intuition congruence.
Qed.

Lemma sorted_desc_In (x : TorrentInfo.t) (l : list TorrentInfo.t) :
  In x (sorted_desc l) <-> In x l.
Proof.
  unfold sorted_desc. induction l as [|y l IH]; cbn; [tauto|].
  rewrite insert_desc_In, IH. intuition congruence.
Qed.

Lemma comprehension_total {A B} (f : A -> result B) (l : list A) :
  (∀ x, In x l -> ∃ y, f x = Ok y) -> ∃ ys, comprehension f l = Ok ys.
Proof.
  induction l as [|x l IH]; intros Hall; cbn; [eauto|].
  destruct (Hall x) as [y ->]; [now left|].
  destruct IH as [ys ->]; [intros z Hz; apply Hall; now right|]. eauto.
Qed.

Lemma get_torrent_info_active (tid : string) (w : world) (h : lt.torrent_handle) :
  torrents w !! tid = Some h -> is_Some (lt.status h) ->
  ∃ info, get_torrent_info tid w = Ok info.
Proof.
  intros Ht [st Hst].
  destruct (get_torrent_info_active_ratio tid w h st Ht Hst) as (info & -> & _).
  eauto.
Qed.

(** C10.  For a job that is in the completed registry and not in the active
    map, pause and resume fail with 404 "Torrent not found" and change
    nothing, while get-job returns its record and list-jobs, whenever it
    answers, contains it (it answers when every active handle reports its
    status).  Pause and resume succeed only for ids of the active map. *)
Theorem pause_resume_need_active (w : world) (tid : string) (info : TorrentInfo.t) :
  torrents w !! tid = None ->
  completed_torrents w !! tid = Some info ->
  pause_torrent tid w = (w, Err 404 msg_not_found)
  ∧ resume_torrent tid w = (w, Err 404 msg_not_found)
  ∧ get_torrent_info tid w = Ok info
  ∧ (∀ l, list_torrents w = Ok l -> In info l)
  ∧ ((∀ t h, torrents w !! t = Some h -> is_Some (lt.status h)) ->
     ∃ l, list_torrents w = Ok l ∧ In info l)
  ∧ (∀ t w', pause_torrent t w = (w', Ok tt) -> is_Some (torrents w !! t))
  ∧ (∀ t w', resume_torrent t w = (w', Ok tt) -> is_Some (torrents w !! t)).
Proof.
  intros Ht Hc.
  assert (∀ l, list_torrents w = Ok l -> In info l) as Hlisted.
  { intros l. unfold list_torrents.
    destruct (comprehension _ _) as [active|]; [|discriminate].
    intros [= <-]. apply sorted_desc_In, List.in_or_app. right.
    apply (List.in_map snd _ (tid, info)).
    apply list_elem_of_In, elem_of_map_to_list. exact Hc. }
  unfold pause_torrent, resume_torrent, get_torrent_info. rewrite Ht, Hc.
  repeat split; auto.
  - intros Hstatus.
    destruct (comprehension_total (fun t => get_torrent_info t w)
                (List.map fst (map_to_list (torrents w)))) as [active Hactive].
    { intros t Hin. apply List.in_map_iff in Hin as ([t' h] & <- & Hin).
      apply list_elem_of_In, elem_of_map_to_list in Hin. cbn.
      apply get_torrent_info_active with (h := h); eauto. }
    assert (∃ l, list_torrents w = Ok l) as [l Hl].
    { unfold list_torrents. rewrite Hactive. eauto. }
    exists l. auto.
  - intros t w'. destruct (torrents w !! t) as [h|]; [eauto | discriminate].
  - intros t w'. destruct (torrents w !! t) as [h|]; [eauto | discriminate].
Qed.

Lemma pause_resume_need_active_witness :
  pause_torrent "job-1" Sample.finished = (Sample.finished, Err 404 msg_not_found)
  ∧ resume_torrent "job-1" Sample.finished = (Sample.finished, Err 404 msg_not_found)
  ∧ get_torrent_info "job-1" Sample.finished
    = Ok (completed_info "job-1" (Sample.status 1) (50 # 500)
            DOWNLOAD_DIR 100)
  ∧ (∀ l, list_torrents Sample.finished = Ok l ->
          In (completed_info "job-1" (Sample.status 1) (50 # 500)
                DOWNLOAD_DIR 100) l)
  ∧ ((∀ t h, torrents Sample.finished !! t = Some h -> is_Some (lt.status h)) ->
     ∃ l, list_torrents Sample.finished = Ok l
          ∧ In (completed_info "job-1" (Sample.status 1) (50 # 500)
                  DOWNLOAD_DIR 100) l)
  ∧ (∀ t w', pause_torrent t Sample.finished = (w', Ok tt) ->
             is_Some (torrents Sample.finished !! t))
  ∧ (∀ t w', resume_torrent t Sample.finished = (w', Ok tt) ->
             is_Some (torrents Sample.finished !! t)).
Proof.
  apply (pause_resume_need_active Sample.finished "job-1").
  - vm_compute. reflexivity.
  - vm_compute. reflexivity.
Defined.

End Registry.

(** ** Download *)

Section Download.

Lemma absolute_selector_rejected (file : string) :
  absolute_selector file -> pathlib.is_absolute (pathlib.parse file) = true.
Proof.
  intros [rest ->]. unfold pathlib.parse. cbn [append pathlib.root].
  destruct rest as [|c rest]; [reflexivity|].
  destruct (ascii_dec c "/") as [->|Hc].
  - destruct rest as [|d rest]; [reflexivity|].
    destruct d as [[] [] [] [] [] [] [] []]; reflexivity.
  - destruct c as [[] [] [] [] [] [] [] []]; try reflexivity. now elim Hc.
Qed.

Lemma parent_segment_parsed (file : string) :
  parent_segment file -> In ".." (pathlib.parse file).
Proof.
  intros Hin.
  assert (In ".." (pathlib.segments file)) as Hseg.
  { unfold pathlib.segments. apply List.filter_In. split; [exact Hin | reflexivity]. }
  unfold pathlib.parse. destruct (pathlib.root file); [now right | exact Hseg].
Qed.

Lemma traversal_rejected (file : string) :
  absolute_selector file ∨ parent_segment file ->
  rejected_selector (pathlib.parse file) = true.
Proof.
  unfold rejected_selector. intros [Habs|Hpar]; apply orb_true_iff.
  - left. now apply absolute_selector_rejected.
  - right. apply List.existsb_exists. exists "..".
    split; [now apply parent_segment_parsed | reflexivity].
Qed.

(** C2, as amended.  A download request whose selector is absolute or has a
    parent-directory segment is answered in this order: an unknown job, or an
    active one whose manifest cannot be read, fails as for any other request;
    a job none of whose files exists on disk fails with 404 "No files
    available yet"; only then, whatever files are on disk and whether or not
    the selector names one of them, the request fails with 400 "Invalid file
    path".  Nothing is written in any of the three cases. *)
Theorem traversal_selector_outcome (e : env) (tid : string) (file : string)
    (w : world) :
  file ≠ "" ->
  absolute_selector file ∨ parent_segment file ->
  download_torrent_files e tid (Some file) w
  = match get_torrent_files tid w with
    | Err status_code detail => (w, Err status_code detail)
    | Ok (files, _) =>
        match existing w files with
        | [] => (w, Err 404 msg_no_files)
        | _ :: _ => (w, Err 400 msg_invalid_path)
        end
    end.
Proof.
  intros Hne Hbad. unfold download_torrent_files.
  destruct (get_torrent_files tid w) as [[files name]|c d]; [|reflexivity].
  destruct (existing w files) as [|first others]; [reflexivity|].
  assert (selector (Some file) = Some file) as ->.
  { destruct file; [now elim Hne | reflexivity]. }
  now rewrite (traversal_rejected file Hbad).
Qed.

Lemma traversal_selector_outcome_witness :
  download_torrent_files Sample.blocked "job-1" (Some "../secret") Sample.finished
  = (Sample.finished, Err 400 msg_invalid_path).
Proof.
  rewrite (traversal_selector_outcome Sample.blocked "job-1" "../secret" Sample.finished).
  - vm_compute. reflexivity.
  - discriminate.
  - right. unfold parent_segment. cbn. now left.
Defined.

(** C2 as worded fails: for a job that is known but has no file on disk
    yet, a request with the selector "../secret", or with the absolute
    selector "/etc/passwd", is answered 404 "No files available yet", not 400:
    the check that any file exists comes before the check of the selector. *)
Lemma traversal_before_files_exist :
  parent_segment "../secret"
  ∧ download_torrent_files Sample.blocked "job-1" (Some "../secret") Sample.nothing_yet
    = (Sample.nothing_yet, Err 404 msg_no_files)
  ∧ absolute_selector "/etc/passwd"
  ∧ download_torrent_files Sample.blocked "job-1" (Some "/etc/passwd") Sample.nothing_yet
    = (Sample.nothing_yet, Err 404 msg_no_files).
Proof.
  split; [unfold parent_segment; cbn; now left|].
  split; [vm_compute; reflexivity|].
  split; [now exists "etc/passwd"|].
  vm_compute; reflexivity.
Qed.

(** C5, as amended.  A request with no selector for a job with more than one
    existing file is answered with the archive of those files, built or
    reused under a freshness marker that is the completion timestamp of the
    job when its metadata has one and the time of the request otherwise.  An
    archive that is there, not empty and not older than the marker is reused
    and nothing is written; an archive older than the marker, or none, is
    replaced by one written now. *)
Theorem archive_freshness_marker (e : env) (tid : string) (file : option string)
    (w : world) (files : list FileEntry.t) (name : string)
    (first second : FileEntry.t) (others : list FileEntry.t) :
  get_torrent_files tid w = Ok (files, name) ->
  existing w files = first :: second :: others ->
  selector file = None ->
  let marker :=
    match Metadata.completed_at (metadata_of tid w) with
    | Some completed_at => completed_at
    | None => time_now e
    end in
  let written :=
    {| ZipFile.arcnames := List.map FileEntry.relative_path (existing w files);
       ZipFile.st_size := Z.pos (written_size e);
       ZipFile.st_mtime := written_mtime e |} in
  download_torrent_files e tid file w
  = (fst (build_zip_if_needed e tid (existing w files) name marker w),
     Ok {| path := zip_path tid;
           filename := safe_base_of name ++ ".zip";
           media_type := "application/zip" |})
  ∧ (∀ z, temp_zips w !! tid = Some z -> 0 < ZipFile.st_size z ->
          marker <= ZipFile.st_mtime z ->
          fst (download_torrent_files e tid file w) = w)
  ∧ (∀ z, temp_zips w !! tid = Some z -> ZipFile.st_mtime z < marker ->
          fst (download_torrent_files e tid file w)
          = with_temp_zips <[tid := written]> w)
  ∧ (temp_zips w !! tid = None ->
     fst (download_torrent_files e tid file w)
     = with_temp_zips <[tid := written]> w).
Proof.
  intros Hf Hex Hsel marker written.
  assert (download_torrent_files e tid file w
          = (fst (build_zip_if_needed e tid (existing w files) name marker w),
             Ok {| path := zip_path tid;
                   filename := safe_base_of name ++ ".zip";
                   media_type := "application/zip" |})) as Hd.
  { unfold download_torrent_files. rewrite Hf, Hex, Hsel. rewrite <- Hex.
    change (freshness_marker e tid w) with marker.
    destruct (build_zip_existing e tid files name marker w) as [Hs _].
    destruct (build_zip_if_needed _ _ _ _ _ _) as [w' r]. cbn in Hs. now subst r. }
  rewrite Hd. cbn [fst]. split; [reflexivity|].
  unfold build_zip_if_needed. rewrite zip_write_existing.
  split; [|split].
  - intros z Hz Hsize Hfresh. rewrite Hz.
    destruct (Z.ltb_spec 0 (ZipFile.st_size z)); [|lia].
    destruct (Z.leb_spec marker (ZipFile.st_mtime z)); [|lia]. reflexivity.
  - intros z Hz Hold. rewrite Hz.
    destruct (Z.leb_spec marker (ZipFile.st_mtime z)); [lia|].
    rewrite andb_false_r. reflexivity.
  - intros ->. reflexivity.
Qed.



Lemma archive_freshness_marker_witness :
  download_torrent_files (Sample.environment 500 (Sample.handle 1 true)) "job-1"
    None Sample.finished
  = (Sample.finished,
     Ok {| path := zip_path "job-1";
           filename := "album.zip";
           media_type := "application/zip" |}).
Proof.
  destruct (archive_freshness_marker
              (Sample.environment 500 (Sample.handle 1 true)) "job-1" None
              Sample.finished
              (file_entries DOWNLOAD_DIR (lt.files Sample.album)) "album"
              {| FileEntry.relative_path := "album/a.flac";
                 FileEntry.absolute_path := Sample.album_path "a.flac";
                 FileEntry.size := 10 |}
              {| FileEntry.relative_path := "album/b.flac";
                 FileEntry.absolute_path := Sample.album_path "b.flac";
                 FileEntry.size := 20 |}
              [])
    as (Hd & _).
  - vm_compute. reflexivity.
  - vm_compute. reflexivity.
  - reflexivity.
  - rewrite Hd. vm_compute. reflexivity.
Defined.

(** C5 as worded fails in its second half.  The album was submitted at time
    100 and is still downloading; an archive of it was written at time 300.
    A request at time 500 uses 500 as the freshness marker, not the submission
    time, and so writes the archive again; under the marker 100 the archive
    of time 300 would have been reused. *)
Lemma active_job_marker_is_request_time :
  Metadata.completed_at (metadata_of "job-1" Sample.archived_early) = None
  ∧ Metadata.added_time (metadata_of "job-1" Sample.archived_early) = Some 100
  ∧ ZipFile.st_mtime <$> temp_zips Sample.archived_early !! "job-1" = Some 300
  ∧ freshness_marker (Sample.environment 500 (Sample.handle (1 # 2) true)) "job-1"
      Sample.archived_early = 500
  ∧ ZipFile.st_mtime <$>
      temp_zips (step (Sample.archive_request 500) Sample.archived_early) !! "job-1"
    = Some 500
  ∧ fst (build_zip_if_needed (Sample.environment 500 (Sample.handle (1 # 2) true))
           "job-1"
           (existing Sample.archived_early
              (file_entries DOWNLOAD_DIR (lt.files Sample.album)))
           "album" 100 Sample.archived_early)
    = Sample.archived_early.
Proof.
  repeat split; vm_compute; reflexivity.
Qed.

(** ** The archive cache *)








End Download.

(** ** The merged view, removal and archive names *)

Section Views.




Lemma insert_desc_perm (x : TorrentInfo.t) (l : list TorrentInfo.t) :
  Permutation (insert_desc x l) (x :: l).
Proof.
  induction l as [|y l IH]; cbn; [reflexivity|].
  destruct (TorrentInfo.added_time y <? TorrentInfo.added_time x); [reflexivity|].
  rewrite IH. apply perm_swap.
Qed.

Lemma sorted_desc_perm (l : list TorrentInfo.t) : Permutation (sorted_desc l) l.
Proof.
  unfold sorted_desc. induction l as [|x l IH]; cbn; [reflexivity|].
  rewrite insert_desc_perm. now constructor.
Qed.



(** X2.  Removing an id that is in neither registry fails with 404 and
    changes nothing.  Removing a registered job succeeds and forgets it: its
    handle or completed record, its metadata and its cached archive are gone,
    and for a completed job its file snapshot too. *)
Theorem remove_torrent_forgets (tid : string) (delete_files : bool) (w : world) :
  (torrents w !! tid = None -> completed_torrents w !! tid = None ->
   remove_torrent tid delete_files w = (w, Err 404 msg_not_found))
  ∧ (is_Some (torrents w !! tid) ∨ is_Some (completed_torrents w !! tid) ->
     snd (remove_torrent tid delete_files w) = Ok tt
     ∧ torrents (fst (remove_torrent tid delete_files w)) !! tid = None
     ∧ torrent_metadata (fst (remove_torrent tid delete_files w)) !! tid = None
     ∧ temp_zips (fst (remove_torrent tid delete_files w)) !! tid = None
     ∧ (torrents w !! tid = None ->
        completed_torrents (fst (remove_torrent tid delete_files w)) !! tid = None
        ∧ completed_files (fst (remove_torrent tid delete_files w)) !! tid = None)).
Proof.
  unfold remove_torrent. split.
  - intros -> ->. reflexivity.
  - intros Hreg. destruct (torrents w !! tid) as [h|] eqn:Ht.
    + cbn. lookups. repeat split; try reflexivity; discriminate.
    + destruct Hreg as [[? Hn]|[info Hc]]; [discriminate Hn|]. rewrite Hc.
      destruct delete_files; cbn; lookups; repeat split; try reflexivity; exact Ht.
Qed.

Lemma keep_chars (p : ascii -> bool) (s : string) (c : ascii) :
  In c (list_ascii_of_string (PyStr.keep p s)) ->
  p c = true ∧ In c (list_ascii_of_string s).
Proof.
  induction s as [|d r IH]; cbn; [tauto|].
  destruct (p d) eqn:Hd; cbn.
  - intros [<-|Hin]; [auto | destruct (IH Hin); auto].
  - intros Hin. destruct (IH Hin); auto.
Qed.

Lemma lstrip_chars (s : string) (c : ascii) :
  In c (list_ascii_of_string (PyStr.lstrip s)) -> In c (list_ascii_of_string s).
Proof.
  induction s as [|d r IH]; cbn; [tauto|].
  destruct (PyStr.isspace d); cbn; auto.
Qed.

Lemma rstrip_chars (s : string) (c : ascii) :
  In c (list_ascii_of_string (PyStr.rstrip s)) -> In c (list_ascii_of_string s).
Proof.
  induction s as [|d r IH]; cbn; [tauto|].
  destruct (PyStr.rstrip r) as [|d' r'] eqn:E.
  - destruct (PyStr.isspace d); cbn; tauto.
  - cbn. intros [<-|Hin]; [now left | right; apply IH; exact Hin].
Qed.

(** X3.  The base name of an archive is never empty and holds none of the
    characters that are illegal in a file name. *)
Theorem safe_base_clean (torrent_name : string) :
  safe_base_of torrent_name ≠ ""
  ∧ ∀ c, In c (list_ascii_of_string (safe_base_of torrent_name)) ->
         PyStr.char_in c illegal_chars = false.
Proof.
  unfold safe_base_of.
  set (name := if PyStr.truthy torrent_name then torrent_name else "download").
  set (kept := PyStr.strip _).
  destruct kept as [|d r] eqn:E; cbn [PyStr.truthy].
  - split; [discriminate|]. intros c Hin. cbn in Hin.
    repeat (destruct Hin as [<-|Hin]; [reflexivity|]). destruct Hin.
  - split; [discriminate|]. intros c Hin. rewrite <- E in Hin. subst kept.
    unfold PyStr.strip in Hin.
    apply rstrip_chars, lstrip_chars, keep_chars in Hin as [Hp _].
    now apply negb_true_iff in Hp.
Qed.

(** X4.  The [downloaded] field of a record is not the divisor of its ratio:
    for an active job it is the count of wanted bytes done, for a completed
    one the count of wanted bytes, while the ratio divides the all-time
    upload count by the all-time download count.  The record of the sample
    album has uploaded 50, downloaded 30 and ratio 50/500. *)
Theorem downloaded_is_not_the_divisor :
  (∀ st tid w h info,
     torrents w !! tid = Some h -> lt.status h = Some st ->
     get_torrent_info tid w = Ok info ->
     TorrentInfo.uploaded info = Z.of_N (lt.all_time_upload st)
     ∧ TorrentInfo.downloaded info = Z.of_N (lt.total_wanted_done st))
  ∧ (∀ st tid ratio save added,
       TorrentInfo.uploaded (completed_info tid st ratio save added)
       = Z.of_N (lt.all_time_upload st)
       ∧ TorrentInfo.downloaded (completed_info tid st ratio save added)
         = Z.of_N (lt.total_wanted st))
  ∧ (∃ info,
       completed_torrents Sample.finished !! "job-1" = Some info
       ∧ TorrentInfo.uploaded info = 50
       ∧ TorrentInfo.downloaded info = 30
       ∧ TorrentInfo.ratio info = 50 # 500
       ∧ ¬ (TorrentInfo.ratio info
            == inject_Z (TorrentInfo.uploaded info)
               / inject_Z (Z.max (TorrentInfo.downloaded info) 1))%Q).
Proof.
  split; [|split].
  - intros st tid w h info Ht Hst. unfold get_torrent_info. rewrite Ht, Hst.
    destruct (if 0 <? lt.download_rate st then _ else _); [|discriminate].
    destruct (py_truediv _ _); [|discriminate].
    intros [= <-]. split; reflexivity.
  - intros st tid ratio save added. split; reflexivity.
  - eexists. split; [vm_compute; reflexivity|].
    repeat split. intros H. vm_compute in H. discriminate H.
Qed.

End Views.

(** ** Fetching a descriptor *)

Section Fetch.

#[local] Arguments is_hex : simpl never.

Lemma append_cons (c : ascii) (h post : string) :
  String c h ++ post = String c (h ++ post).
Proof. reflexivity. Qed.

Lemma append_empty (post : string) : "" ++ post = post.
Proof. reflexivity. Qed.

Lemma append_assoc (a b c : string) : (a ++ b) ++ c = a ++ b ++ c.
Proof.
  induction a as [|x a IH]; [reflexivity|].
  rewrite !append_cons. now rewrite IH.
Qed.

Lemma take_hex_sound (n : nat) (s h : string) :
  take_hex n s = Some h ->
  ∃ post, s = h ++ post ∧ String.length h = n ∧ PyStr.all is_hex h = true.
Proof.
  revert s h; induction n as [|n IH]; intros s h; cbn.
  - intros [= <-]. exists s. auto.
  - destruct s as [|c r]; [intros Hn; discriminate Hn|].
    destruct (is_hex c) eqn:Hc; [|intros Hn; discriminate Hn].
    destruct (take_hex n r) as [h'|] eqn:E; cbn; [|intros Hn; discriminate Hn].
    intros [= <-]. destruct (IH _ _ E) as (post & -> & Hl & Ha).
    exists post. rewrite append_cons. cbn. rewrite Hl, Hc, Ha. auto.
Qed.

Lemma take_hex_complete (h post : string) :
  PyStr.all is_hex h = true -> take_hex (String.length h) (h ++ post) = Some h.
Proof.
  induction h as [|c h IH]; [reflexivity|].
  rewrite append_cons. cbn. intros Ha.
  apply andb_true_iff in Ha as [Hc Ha].
  now rewrite Hc, (IH Ha).
Qed.

Lemma hex40_take (h post : string) :
  hex40 h -> take_hex 40 (h ++ post) = Some h.
Proof.
  intros Hh. apply is_info_hash_hex40 in Hh.
  unfold is_info_hash in Hh. apply andb_true_iff in Hh as [Hl Ha].
  apply Nat.eqb_eq in Hl. rewrite <- Hl. now apply take_hex_complete.
Qed.

Lemma take_hex40 (s h : string) :
  take_hex 40 s = Some h -> ∃ post, s = h ++ post ∧ hex40 h.
Proof.
  intros E. destruct (take_hex_sound _ _ _ E) as (post & -> & Hl & Ha).
  exists post. split; [reflexivity|]. apply is_info_hash_hex40.
  unfold is_info_hash. now rewrite Hl, Ha.
Qed.

Lemma search_hash_here (s h : string) :
  take_hex 40 s = Some h -> search_hash s = Some h.
Proof. intros E. destruct s; cbn [search_hash]; now rewrite E. Qed.

(** [search_hash] finds the leftmost run of 40 hexadecimal digits. *)
Lemma search_hash_found (s h : string) :
  search_hash s = Some h ->
  ∃ pre post,
    s = pre ++ h ++ post ∧ hex40 h
    ∧ ∀ pre' h' post', s = pre' ++ h' ++ post' -> hex40 h' ->
        (String.length pre <= String.length pre')%nat.
Proof.
  assert (∀ s h, take_hex 40 s = Some h ->
            ∃ pre post,
              s = pre ++ h ++ post ∧ hex40 h
              ∧ ∀ pre' h' post', s = pre' ++ h' ++ post' -> hex40 h' ->
                  (String.length pre <= String.length pre')%nat) as Hhere.
  { intros s0 h0 E. destruct (take_hex40 _ _ E) as (post & Hs & Hh).
    exists "", post. rewrite append_empty.
    split; [exact Hs|]. split; [exact Hh|]. intros. apply Nat.le_0_l. }
  induction s as [|c r IH]; cbn [search_hash].
  - destruct (take_hex 40 "") as [h0|] eqn:E; [|discriminate].
    intros [= <-]. now apply Hhere.
  - destruct (take_hex 40 (String c r)) as [h0|] eqn:E.
    + intros [= <-]. now apply Hhere.
    + intros Hr. destruct (IH Hr) as (pre & post & -> & Hh & Hleft).
      exists (String c pre), post. rewrite append_cons.
      split; [reflexivity|]. split; [exact Hh|].
      intros pre' h' post' Hs Hh'. destruct pre' as [|c' pre'].
      * rewrite append_empty in Hs. rewrite Hs, (hex40_take h' post' Hh') in E.
        discriminate E.
      * rewrite append_cons in Hs. injection Hs as -> Hs.
        change (S (String.length pre) <= S (String.length pre'))%nat.
        apply le_n_S. now apply (Hleft pre' h' post').
Qed.

Lemma search_hash_none (s : string) :
  search_hash s = None ->
  ∀ pre h post, s = pre ++ h ++ post -> ¬ hex40 h.
Proof.
  intros Hnone pre. revert s Hnone. induction pre as [|c pre IH];
    intros s Hnone h post -> Hh.
  - rewrite append_empty in Hnone.
    rewrite (search_hash_here _ h (hex40_take h post Hh)) in Hnone.
    discriminate Hnone.
  - rewrite append_cons in Hnone. cbn [search_hash] in Hnone.
    destruct (take_hex 40 _); [discriminate|].
    now apply (IH _ Hnone h post).
Qed.

(** X5.  When the site answers 403, the failure is a 400 whose detail
    depends on the address alone.  If the address holds a run of 40
    hexadecimal digits, the detail contains the magnet link made from the
    leftmost such run; if it holds none, the detail holds no magnet URI
    (the text "magnet:" does not occur in it). *)
Theorem blocked_fetch_suggests_magnet (e : env) (url text : string) :
  http_get e url = HttpStatusError 403 text ->
  (∀ h, search_hash url = Some h ->
     (∃ pre post,
        url = pre ++ h ++ post ∧ hex40 h
        ∧ ∀ pre' h' post', url = pre' ++ h' ++ post' -> hex40 h' ->
            (String.length pre <= String.length pre')%nat)
     ∧ ∃ before after,
         download_torrent_file e url
         = Err 400 (before ++ "magnet:?xt=urn:btih:" ++ h ++ after))
  ∧ (search_hash url = None ->
     (∀ pre h post, url = pre ++ h ++ post -> ¬ hex40 h)
     ∧ ∃ detail, download_torrent_file e url = Err 400 detail
                 ∧ PyStr.contains detail "magnet:" = false).
Proof.
  intros Hget. unfold download_torrent_file. rewrite Hget.
  change (403 =? 403) with true. cbv iota.
  split.
  - intros h Hh. rewrite Hh. split; [now apply search_hash_found|].
    unfold magnet_suggestion, HTTPException.
    match goal with
    | |- ∃ before after, Err 400 (?a ++ nl ++ nl ++ ?b ++ nl ++ nl
                                   ++ (?m ++ h ++ ?t) ++ ?rest) = _ =>
        exists (a ++ nl ++ nl ++ b ++ nl ++ nl), (t ++ rest)
    end.
    f_equal. repeat rewrite append_assoc. reflexivity.
  - intros Hn. rewrite Hn. split; [now apply search_hash_none|].
    eexists. split; [reflexivity|]. vm_compute. reflexivity.
Qed.

Lemma blocked_fetch_suggests_magnet_witness :
  ∃ before after,
    download_torrent_file Example.forbidden Example.forbidden_url
    = Err 400 (before ++ "magnet:?xt=urn:btih:"
               ++ "0123456789abcdef0123456789ABCDEF01234567" ++ after).
Proof.
  destruct (blocked_fetch_suggests_magnet Example.forbidden Example.forbidden_url
              "Client error '403 Forbidden'" eq_refl) as [Hsome _].
  destruct (Hsome "0123456789abcdef0123456789ABCDEF01234567") as [_ Hdetail].
  - vm_compute. reflexivity.
  - exact Hdetail.
Defined.

(** X6.  A fetch succeeds exactly when the response has at least 20 bytes
    and starts with the byte "d", and then returns the bytes as received;
    every failure of a fetch, whatever its cause, is a 400. *)
Theorem download_torrent_file_outcome (e : env) (url : string) :
  (∀ content,
     download_torrent_file e url = Ok content <->
     http_get e url = HttpContent content
     ∧ (20 <= length content)%nat
     ∧ head content = Some Byte.x64)
  ∧ (∀ status_code detail,
       download_torrent_file e url = Err status_code detail -> status_code = 400).
Proof.
  unfold download_torrent_file, HTTPException.
  destruct (http_get e url) as [c0|sc text| |text].
  - unfold check_content.
    destruct (Nat.ltb_spec (length c0) 20) as [Hlt|Hge].
    + split.
      * intros content. split; [discriminate|]. intros ([= <-] & Hl & _). lia.
      * intros sc d [= <- _]. reflexivity.
    + destruct c0 as [|b r]; [cbn in Hge; lia|].
      destruct (Byte.byte_eq_dec b Byte.x64) as [->|Hb].
      * split.
        -- intros content. split.
           ++ intros [= <-]. auto.
           ++ intros ([= <-] & _). reflexivity.
        -- discriminate.
      * assert (match b with
                | Byte.x64 => inr (b :: r)
                | _ => let 'tt := try_except_pass (html_probe e (b :: r)) in
                       inl msg_bencode
                end = (inl msg_bencode : string + list byte)) as ->.
        { destruct (try_except_pass _). destruct b; try reflexivity. now elim Hb. }
        split.
        -- intros content. split; [discriminate|].
           intros ([= <-] & _ & [= E]). now elim Hb.
        -- intros sc d [= <- _]. reflexivity.
  - split.
    + intros content. split; [|intros [Hn _]; discriminate Hn].
      destruct (sc =? 403); [destruct (search_hash url)|destruct (sc =? 404)];
        discriminate.
    + intros sc' d.
      destruct (sc =? 403); [destruct (search_hash url)|destruct (sc =? 404)];
        intros [= <- _]; reflexivity.
  - split; [intros content; split; [discriminate | intros [Hn _]; discriminate Hn]|].
    intros sc d [= <- _]. reflexivity.
  - split; [intros content; split; [discriminate | intros [Hn _]; discriminate Hn]|].
    intros sc d [= <- _]. reflexivity.
Qed.

End Fetch.

(** ** Submission *)

Section Submission.



End Submission.

(** ** Listing and serving files *)

Section Files.

Lemma existing_In (w : world) (files : list FileEntry.t) (f : FileEntry.t) :
  In f (existing w files) <-> In f files ∧ FileEntry.absolute_path f ∈ disk w.
Proof.
  unfold existing. rewrite List.filter_In. now rewrite bool_decide_eq_true.
Qed.

Lemma download_everything_answers (e : env) (tid : string) (w : world)
    (files : list FileEntry.t) (name : string) :
  get_torrent_files tid w = Ok (files, name) ->
  existing w files ≠ [] ->
  ∃ r, snd (download_torrent_files e tid None w) = Ok r.
Proof.
  intros Hf Hex. unfold download_torrent_files. rewrite Hf.
  destruct (existing w files) as [|first others] eqn:E; [now elim Hex|].
  cbn [selector]. destruct others as [|second others]; [cbn; eauto|].
  rewrite <- E.
  destruct (build_zip_existing e tid files name (freshness_marker e tid w) w)
    as [Hs _].
  destruct (build_zip_if_needed _ _ _ _ _ _) as [w' r]. cbn in Hs. subst r.
  cbn. eauto.
Qed.

(** X9.  The file listing of a job holds, in the order of the manifest, the
    relative path and size of exactly those of its files that exist on disk.
    It is never empty: with no file on disk the answer is 404 "No files
    available yet", as it is for a download.  The listing answers exactly when
    a download of everything does. *)
Theorem list_torrent_files_outcome (tid : string) (w : world) :
  (∀ status_code detail,
     get_torrent_files tid w = Err status_code detail ->
     list_torrent_files tid w = Err status_code detail)
  ∧ (∀ files name,
       get_torrent_files tid w = Ok (files, name) ->
       (existing w files = [] -> list_torrent_files tid w = Err 404 msg_no_files)
       ∧ (existing w files ≠ [] ->
          list_torrent_files tid w
          = Ok (List.map (fun f => (FileEntry.relative_path f, FileEntry.size f))
                         (existing w files)))
       ∧ (∀ f, In f (existing w files) <->
               In f files ∧ FileEntry.absolute_path f ∈ disk w))
  ∧ (∀ l, list_torrent_files tid w = Ok l -> l ≠ [])
  ∧ (∀ e, (∃ l, list_torrent_files tid w = Ok l) <->
          (∃ r, snd (download_torrent_files e tid None w) = Ok r)).
Proof.
  unfold list_torrent_files.
  destruct (get_torrent_files tid w) as [[files name]|c d] eqn:Hf.
  - split; [discriminate|]. split; [|split].
    + intros files' name' [= <- <-]. split; [|split].
      * intros ->. reflexivity.
      * destruct (existing w files); [intros H; now elim H | reflexivity].
      * intros f. apply existing_In.
    + intros l. destruct (existing w files); cbn; [discriminate|].
      intros [= <-]. discriminate.
    + intros e. destruct (existing w files) as [|first others] eqn:E; cbn [List.map].
      * split; [intros [l Hl]; discriminate Hl|].
        intros [r Hr]. unfold download_torrent_files in Hr.
        rewrite Hf, E in Hr. discriminate Hr.
      * split; [|eauto]. intros _.
        apply (download_everything_answers e tid w files name Hf).
        rewrite E. discriminate.
  - split; [intros c' d' [= <- <-]; reflexivity|].
    split; [discriminate|]. split; [discriminate|].
    intros e. split; [intros [l Hl]; discriminate Hl|].
    intros [r Hr]. unfold download_torrent_files in Hr. rewrite Hf in Hr.
    discriminate Hr.
Qed.

Lemma build_zip_leaves_archive (e : env) (tid : string)
    (files : list FileEntry.t) (name : string) (snap : Z) (w : world) :
  is_Some (temp_zips (fst (build_zip_if_needed e tid files name snap w)) !! tid).
Proof.
  unfold build_zip_if_needed.
  destruct (temp_zips w !! tid) as [z|] eqn:Hz.
  - destruct (_ && _); [cbn; rewrite Hz; eauto|].
    destruct (zip_write (disk w) files) as [names ok].
    destruct ok; cbn; lookups; eauto.
  - destruct (zip_write (disk w) files) as [names ok].
    destruct ok; cbn; lookups; eauto.
Qed.

Lemma find_parsed (requested : Path) (l : list FileEntry.t) (f : FileEntry.t) :
  List.find
    (fun file_entry =>
       bool_decide (pathlib.parse (FileEntry.relative_path file_entry) = requested))
    l = Some f ->
  In f l ∧ pathlib.parse (FileEntry.relative_path f) = requested.
Proof.
  intros H. apply List.find_some in H as [Hin Hp].
  now apply bool_decide_eq_true in Hp.
Qed.

(** X10.  What a download can answer.  A file served directly is always one
    of the files of the job, it exists on disk, and nothing is written; when
    a selector was given it passed the path check and names that file up to
    the normal form of paths (empty and "." segments do not count), and when
    none was given that file is the only one on disk.  An archive is served
    only without a selector and for more than one existing file, from the
    job's place in the temp directory.  A failure has status 400, 404 or 500,
    and unless it is a 500 nothing was written. *)
Theorem download_torrent_files_outcome (e : env) (tid : string)
    (file : option string) (w : world) :
  (∀ w' r,
     download_torrent_files e tid file w = (w', Ok r) ->
     ∃ files name,
       get_torrent_files tid w = Ok (files, name)
       ∧ ((media_type r = "application/octet-stream"
           ∧ w' = w
           ∧ ∃ f, In f files
                  ∧ FileEntry.absolute_path f ∈ disk w
                  ∧ path r = FileEntry.absolute_path f
                  ∧ filename r = pathlib.name (FileEntry.absolute_path f)
                  ∧ (∀ s, selector file = Some s ->
                          rejected_selector (pathlib.parse s) = false
                          ∧ pathlib.parse (FileEntry.relative_path f)
                            = pathlib.parse s)
                  ∧ (selector file = None -> existing w files = [f]))
          ∨ (media_type r = "application/zip"
             ∧ selector file = None
             ∧ (1 < length (existing w files))%nat
             ∧ path r = zip_path tid
             ∧ filename r = safe_base_of name ++ ".zip"
             ∧ is_Some (temp_zips w' !! tid))))
  ∧ (∀ w' status_code detail,
       download_torrent_files e tid file w = (w', Err status_code detail) ->
       (status_code = 400 ∨ status_code = 404 ∨ status_code = 500)
       ∧ (status_code ≠ 500 -> w' = w)).
Proof.
  unfold download_torrent_files, HTTPException.
  destruct (get_torrent_files tid w) as [[files name]|c d] eqn:Hf.
  2:{ split; [discriminate|]. intros w' sc dt [= <- <- <-].
      split; [|reflexivity]. revert Hf. unfold get_torrent_files, HTTPException.
      destruct (torrents w !! tid) as [h|].
      - destruct (lt.get_torrent_info h); [discriminate|]. intros [= <- _]. auto.
      - destruct (completed_files w !! tid); [discriminate|]. intros [= <- _]. auto. }
  destruct (existing w files) as [|first others] eqn:Hex.
  { split; [discriminate|]. intros w' sc dt [= <- <- _]. auto. }
  assert (In first files ∧ FileEntry.absolute_path first ∈ disk w) as [Hin1 Hd1].
  { apply (existing_In w). rewrite Hex. now left. }
  destruct (selector file) as [s|] eqn:Hsel.
  - destruct (rejected_selector (pathlib.parse s)) eqn:Hrej.
    { split; [discriminate|]. intros w' sc dt [= <- <- _]. auto. }
    destruct (List.find _ _) as [f|] eqn:Hfind.
    + split; [|discriminate]. intros w' r [= <- <-].
      exists files, name. split; [reflexivity|]. left.
      apply find_parsed in Hfind as [Hin Hp].
      rewrite <- Hex in Hin. apply existing_In in Hin as [Hin Hd].
      split; [reflexivity|]. split; [reflexivity|]. exists f.
      split; [exact Hin|]. split; [exact Hd|].
      split; [reflexivity|]. split; [reflexivity|].
      split; [intros s' [= <-]; auto | discriminate].
    + split; [discriminate|]. intros w' sc dt [= <- <- _]. auto.
  - destruct others as [|second others].
    + split; [|discriminate]. intros w' r [= <- <-].
      exists files, name. split; [reflexivity|]. left.
      split; [reflexivity|]. split; [reflexivity|]. exists first.
      split; [exact Hin1|]. split; [exact Hd1|].
      split; [reflexivity|]. split; [reflexivity|].
      split; [discriminate | intros _; exact Hex].
    + rewrite <- Hex.
      destruct (build_zip_existing e tid files name (freshness_marker e tid w) w)
        as [Hs _].
      pose proof (build_zip_leaves_archive e tid (existing w files) name
                    (freshness_marker e tid w) w) as Hz.
      destruct (build_zip_if_needed _ _ _ _ _ _) as [w1 r1]. cbn in Hs, Hz.
      subst r1. split; [|discriminate]. intros w' r [= <- <-].
      exists files, name. split; [reflexivity|]. right.
      split; [reflexivity|]. split; [reflexivity|].
      split; [rewrite Hex; cbn; lia|]. split; [reflexivity|].
      split; [reflexivity | exact Hz].
Qed.

End Files.

(** ** Completion and the first download *)

Section Completion.

Lemma zip_write_all (on_disk : gset Path) (files : list FileEntry.t) :
  (∀ f, In f files -> FileEntry.absolute_path f ∈ on_disk) ->
  zip_write on_disk files = (List.map FileEntry.relative_path files, true).
Proof.
  induction files as [|f r IH]; intros Hall; [reflexivity|].
  cbn [zip_write List.map].
  destruct (decide (FileEntry.absolute_path f ∈ on_disk)) as [_|Hn].
  - rewrite IH; [reflexivity|]. intros g Hg. apply Hall. now right.
  - exfalso. apply Hn, Hall. now left.
Qed.

Lemma existing_all (w : world) (files : list FileEntry.t) :
  (∀ f, In f files -> FileEntry.absolute_path f ∈ disk w) ->
  existing w files = files.
Proof.
  unfold existing. induction files as [|f r IH]; intros Hall; [reflexivity|].
  cbn [List.filter]. rewrite bool_decide_eq_true_2 by (apply Hall; now left).
  rewrite IH; [reflexivity|]. intros g Hg. apply Hall. now right.
Qed.

Lemma file_entries_relative (save : string) (files : list (string * Z)) :
  List.map FileEntry.relative_path (file_entries save files) = List.map fst files.
Proof.
  unfold file_entries. rewrite List.map_map. apply List.map_ext.
  now intros [rel size].
Qed.

Lemma file_entries_length (save : string) (files : list (string * Z)) :
  length (file_entries save files) = length files.
Proof. unfold file_entries. apply length_map. Qed.

(** The world a completion step leaves when it goes through. *)
Lemma stop_if_completed_run (e : env) (tid : string) (h : lt.torrent_handle)
    (st : lt.torrent_status) (w : world) :
  Metadata.stopped_on_complete (metadata_of tid w) = false ->
  lt.control_ok h = true ->
  let metadata := metadata_of tid w in
  let save_path := default DOWNLOAD_DIR (Metadata.save_path metadata) in
  let files_snapshot :=
    match lt.get_torrent_info h with
    | Some info => file_entries save_path (lt.files info)
    | None => []
    end in
  let name :=
    match lt.get_torrent_info h with
    | Some info => lt.info_name info
    | None => lt.name st
    end in
  let w2 :=
    with_completed_files
      <[tid := {| CompletedFiles.files := files_snapshot;
                  CompletedFiles.save_path := save_path;
                  CompletedFiles.name := name |}]>
      (with_completed_torrents
         <[tid := completed_info tid st
                    (inject_Z (Z.of_N (lt.all_time_upload st))
                     / inject_Z (Z.max (Z.of_N (lt.all_time_download st)) 1))%Q
                    save_path
                    (default (time_now e) (Metadata.added_time metadata))]> w) in
  stop_if_completed e tid h st w
  = with_torrents (delete tid)
      (with_metadata <[tid := Metadata.mark_completed (time_now e) metadata]>
         (if (1 <? length files_snapshot)%nat
          then fst (build_zip_if_needed e tid files_snapshot name (time_now e) w2)
          else w2)).
Proof.
  intros Hg Hc. cbv zeta. unfold stop_if_completed.
  rewrite Hg, Hc, ratio_defined. reflexivity.
Qed.

(** X11.  Completion makes the first download of everything instant.  When
    the completion step goes through for a job with more than one file, all
    of them on disk, it writes an archive holding exactly the relative paths
    of the manifest, in order (an older archive of the job is replaced).  If
    the file system stamps that archive no earlier than the completion time,
    every later request with no selector is answered with that archive, under
    the sanitized display name, and writes nothing. *)
Theorem prebuilt_archive_served (e e' : env) (tid : string)
    (h : lt.torrent_handle) (st : lt.torrent_status) (info : lt.torrent_info)
    (file : option string) (w : world) :
  Metadata.stopped_on_complete (metadata_of tid w) = false ->
  lt.control_ok h = true ->
  lt.get_torrent_info h = Some info ->
  (1 < length (lt.files info))%nat ->
  (∀ f, In f (file_entries
                (default DOWNLOAD_DIR (Metadata.save_path (metadata_of tid w)))
                (lt.files info)) ->
        FileEntry.absolute_path f ∈ disk w) ->
  (∀ z, temp_zips w !! tid = Some z -> ZipFile.st_mtime z < time_now e) ->
  time_now e <= written_mtime e ->
  selector file = None ->
  temp_zips (stop_if_completed e tid h st w) !! tid
  = Some {| ZipFile.arcnames := List.map fst (lt.files info);
            ZipFile.st_size := Z.pos (written_size e);
            ZipFile.st_mtime := written_mtime e |}
  ∧ download_torrent_files e' tid file (stop_if_completed e tid h st w)
    = (stop_if_completed e tid h st w,
       Ok {| path := zip_path tid;
             filename := safe_base_of (lt.info_name info) ++ ".zip";
             media_type := "application/zip" |}).
Proof.
  intros Hg Hc Hinfo Hmany Hdisk Hstale Hclock Hsel.
  rewrite (stop_if_completed_run e tid h st w Hg Hc). cbv zeta. rewrite Hinfo.
  set (save := default DOWNLOAD_DIR (Metadata.save_path (metadata_of tid w))) in *.
  set (snapshot := file_entries save (lt.files info)) in *.
  set (w2 := with_completed_files _ _).
  assert ((1 <? length snapshot)%nat = true) as ->.
  { apply Nat.ltb_lt. subst snapshot. now rewrite file_entries_length. }
  assert (fst (build_zip_if_needed e tid snapshot (lt.info_name info) (time_now e) w2)
          = with_temp_zips
              <[tid := {| ZipFile.arcnames := List.map fst (lt.files info);
                          ZipFile.st_size := Z.pos (written_size e);
                          ZipFile.st_mtime := written_mtime e |}]> w2) as ->.
  { unfold build_zip_if_needed.
    change (temp_zips w2) with (temp_zips w). change (disk w2) with (disk w).
    rewrite (zip_write_all (disk w) snapshot Hdisk).
    subst snapshot. rewrite file_entries_relative.
    destruct (temp_zips w !! tid) as [z|] eqn:Hz; [|reflexivity].
    specialize (Hstale z eq_refl).
    destruct (Z.leb_spec (time_now e) (ZipFile.st_mtime z)); [lia|].
    now rewrite andb_false_r. }
  set (w' := with_torrents _ _).
  assert (temp_zips w' !! tid
          = Some {| ZipFile.arcnames := List.map fst (lt.files info);
                    ZipFile.st_size := Z.pos (written_size e);
                    ZipFile.st_mtime := written_mtime e |}) as Hz.
  { subst w'. cbn. now lookups. }
  split; [exact Hz|].
  unfold download_torrent_files, get_torrent_files.
  assert (torrents w' !! tid = None) as -> by (subst w'; cbn; now lookups).
  assert (completed_files w' !! tid
          = Some {| CompletedFiles.files := snapshot;
                    CompletedFiles.save_path := save;
                    CompletedFiles.name := lt.info_name info |}) as ->
    by (subst w'; cbn; now lookups).
  cbn [CompletedFiles.files CompletedFiles.name].
  rewrite (existing_all w' snapshot) by (subst w'; exact Hdisk).
  rewrite Hsel.
  assert (∃ first second others, snapshot = first :: second :: others)
    as (first & second & others & Hsnap).
  { assert (1 < length snapshot)%nat as Hl
      by (subst snapshot; now rewrite file_entries_length).
    destruct snapshot as [|a [|b r]]; cbn in Hl; try lia. eauto. }
  rewrite Hsnap, <- Hsnap.
  assert (freshness_marker e' tid w' = time_now e) as ->.
  { unfold freshness_marker, metadata_of. subst w'. cbn. now lookups. }
  rewrite (build_zip_reuses_fresh e' tid snapshot (lt.info_name info) (time_now e)
             w' _ Hz) by (cbn; lia).
  reflexivity.
Qed.

Lemma prebuilt_archive_served_witness :
  temp_zips Sample.finished !! "job-1"
  = Some {| ZipFile.arcnames := ["album/a.flac"; "album/b.flac"];
            ZipFile.st_size := 22;
            ZipFile.st_mtime := 200 |}
  ∧ download_torrent_files Example.late "job-1" None Sample.finished
    = (Sample.finished,
       Ok {| path := zip_path "job-1";
             filename := "album.zip";
             media_type := "application/zip" |}).
Proof.
  apply (prebuilt_archive_served
           (Sample.environment 200 (Sample.handle 1 true)) Example.late "job-1"
           (Sample.handle 1 true) (Sample.status 1) Sample.album None
           (Sample.submitted 1 true Sample.files_on_disk)).
  - vm_compute. reflexivity.
  - reflexivity.
  - reflexivity.
  - cbn. lia.
  - intros f Hf. vm_compute in Hf.
    destruct Hf as [<-|[<-|[]]]; vm_compute; reflexivity.
  - intros z Hz. vm_compute in Hz. discriminate Hz.
  - cbn. lia.
  - reflexivity.
Defined.

(** X12.  A manifest that cannot be read at completion does not stop the
    transition: the job is completed with an empty file snapshot under the
    name the status reports, and no archive is written.  From then on every
    download and every file listing of the job answers 404 "No files
    available yet", whatever is on disk. *)
Theorem completion_without_manifest (e : env) (tid : string)
    (h : lt.torrent_handle) (st : lt.torrent_status) (w : world) :
  Metadata.stopped_on_complete (metadata_of tid w) = false ->
  lt.control_ok h = true ->
  lt.get_torrent_info h = None ->
  torrents (stop_if_completed e tid h st w) !! tid = None
  ∧ is_Some (completed_torrents (stop_if_completed e tid h st w) !! tid)
  ∧ completed_files (stop_if_completed e tid h st w) !! tid
    = Some {| CompletedFiles.files := [];
              CompletedFiles.save_path :=
                default DOWNLOAD_DIR (Metadata.save_path (metadata_of tid w));
              CompletedFiles.name := lt.name st |}
  ∧ temp_zips (stop_if_completed e tid h st w) = temp_zips w
  ∧ (∀ e' file files,
       download_torrent_files e' tid file
         (with_disk (fun _ => files) (stop_if_completed e tid h st w))
       = (with_disk (fun _ => files) (stop_if_completed e tid h st w),
          Err 404 msg_no_files))
  ∧ (∀ files,
       list_torrent_files tid
         (with_disk (fun _ => files) (stop_if_completed e tid h st w))
       = Err 404 msg_no_files).
Proof.
  intros Hg Hc Hinfo.
  rewrite (stop_if_completed_run e tid h st w Hg Hc). cbv zeta. rewrite Hinfo.
  cbn. lookups. repeat split; eauto.
  - intros e' file files. unfold download_torrent_files, get_torrent_files.
    cbn. now lookups.
  - intros files. unfold list_torrent_files, get_torrent_files. cbn. now lookups.
Qed.

Lemma completion_without_manifest_witness :
  completed_files
    (stop_if_completed Example.late "job-1" Example.no_manifest (Sample.status 1)
       (Sample.submitted 1 true Sample.files_on_disk)) !! "job-1"
  = Some {| CompletedFiles.files := [];
            CompletedFiles.save_path := DOWNLOAD_DIR;
            CompletedFiles.name := "album" |}.
Proof.
  apply (completion_without_manifest Example.late "job-1" Example.no_manifest
           (Sample.status 1) (Sample.submitted 1 true Sample.files_on_disk)).
  - vm_compute. reflexivity.
  - reflexivity.
  - reflexivity.
Defined.

End Completion.

(** ** What the metadata says about a job *)

Section Documented.

Lemma registers_described (tid : string) (h : lt.torrent_handle) (m : Metadata.t)
    (w : world) :
  documented w -> unused tid w ->
  Metadata.stopped_on_complete m = false ->
  Metadata.completed_at m = None ->
  is_Some (Metadata.added_time m) ->
  is_Some (Metadata.save_path m) ->
  documented (register tid h m w).
Proof.
  intros [Ha Hc Hs Hm] (Ht & Hmd & Hct & Hcf & _) M1 M2 M3 M4.
  split; cbn; intros t.
  - destruct (decide (t = tid)) as [->|Hne]; lookups; [eauto 6 | apply Ha].
  - intros info Hi.
    destruct (decide (t = tid)) as [->|Hne]; [congruence|]. lookups.
    now apply Hc.
  - apply Hs.
  - destruct (decide (t = tid)) as [->|Hne]; lookups; [eauto | apply Hm].
Qed.

Lemma add_from_url_described (e : env) (url : string) (save_path : option string)
    (sequential : bool) (w : world) :
  (∃ c d, add_from_url e url save_path sequential w = (w, Err c d))
  ∨ ∃ h m, add_from_url e url save_path sequential w
           = (register (uuid4 e) h m w, Ok (uuid4 e))
           ∧ Metadata.stopped_on_complete m = false
           ∧ Metadata.completed_at m = None
           ∧ Metadata.added_time m = Some (time_now e)
           ∧ Metadata.save_path m = Some (save_path_or_default save_path).
Proof.
  unfold add_from_url.
  destruct (classify _).
  - destruct (add_magnet_uri e _); [left; eauto | right; eauto 10].
  - destruct (download_torrent_file e _); [|left; eauto].
    destruct (add_torrent e _); [left; eauto | right; eauto 10].
  - destruct (add_magnet_uri e _); [left; eauto | right; eauto 10].
  - left; eauto.
Qed.

Lemma add_torrent_file_described (e : env) (data : list byte)
    (save_path : option string) (sequential : bool) (w : world) :
  (∃ c d, add_torrent_file e data save_path sequential w = (w, Err c d))
  ∨ ∃ h m, add_torrent_file e data save_path sequential w
           = (register (uuid4 e) h m w, Ok (uuid4 e))
           ∧ Metadata.stopped_on_complete m = false
           ∧ Metadata.completed_at m = None
           ∧ Metadata.added_time m = Some (time_now e)
           ∧ Metadata.save_path m = Some (save_path_or_default save_path).
Proof.
  unfold add_torrent_file.
  destruct (add_torrent e _); [left; eauto | right; eauto 10].
Qed.

(** [documented] reads the keys of the active map and the three other
    registries, nothing else. *)
Lemma documented_same (w w' : world) :
  (∀ t, is_Some (torrents w' !! t) <-> is_Some (torrents w !! t)) ->
  torrent_metadata w' = torrent_metadata w ->
  completed_torrents w' = completed_torrents w ->
  completed_files w' = completed_files w ->
  documented w -> documented w'.
Proof.
  intros Ht Em Ec Ef [Ha Hc Hs Hm].
  split; rewrite ?Em, ?Ec, ?Ef; intros t.
  - rewrite Ht. apply Ha.
  - apply Hc.
  - apply Hs.
  - rewrite Ht. apply Hm.
Qed.

Lemma insert_existing_keys (tid : string) (h h' : lt.torrent_handle)
    (handles : gmap string lt.torrent_handle) (t : string) :
  handles !! tid = Some h ->
  is_Some (<[tid := h']> handles !! t) <-> is_Some (handles !! t).
Proof.
  intros Hh. destruct (decide (t = tid)) as [->|Hne]; lookups; [|tauto].
  rewrite Hh. split; eauto.
Qed.

Lemma remove_torrent_documented (live : gset string) (tid : string)
    (delete_files : bool) (w : world) :
  coherent live w -> documented w ->
  documented (fst (remove_torrent tid delete_files w)).
Proof.
  intros Hw [Ha Hc Hs Hm]. unfold remove_torrent.
  destruct (torrents w !! tid) as [h|] eqn:Ht; cbn.
  - assert (completed_torrents w !! tid = None) as Hnc.
    { destruct (completed_torrents w !! tid) eqn:E; [|reflexivity].
      destruct (active_xor_completed _ _ Hw tid). rewrite Ht, E. eauto. }
    split; cbn; intros t.
    + destruct (decide (t = tid)) as [->|Hne]; lookups; [|apply Ha].
      intros [? Hn]; discriminate Hn.
    + intros info Hi. destruct (decide (t = tid)) as [->|Hne]; [congruence|].
      lookups. now apply Hc.
    + apply Hs.
    + destruct (decide (t = tid)) as [->|Hne]; lookups; [|apply Hm].
      intros [? Hn]; discriminate Hn.
  - destruct (completed_torrents w !! tid) as [info0|] eqn:Hct;
      [|now split].
    cbn. assert (∀ (w0 : world),
              torrents w0 = torrents w ->
              torrent_metadata w0 = torrent_metadata w ->
              completed_torrents w0 = completed_torrents w ->
              completed_files w0 = completed_files w ->
              documented
                (with_temp_zips (delete tid)
                   (with_metadata (delete tid)
                      (with_completed_files (delete tid)
                         (with_completed_torrents (delete tid) w0))))) as Hgen.
    { intros w0 E1 E2 E3 E4. split; cbn; rewrite ?E1, ?E2, ?E3, ?E4; intros t.
      - intros Hs'. assert (t ≠ tid) as Hne.
        { intros ->. rewrite Ht in Hs'. destruct Hs' as [? Hn]; discriminate Hn. }
        lookups. now apply Ha.
      - intros info. destruct (decide (t = tid)) as [->|Hne]; lookups;
          [discriminate | apply Hc].
      - intros info. destruct (decide (t = tid)) as [->|Hne]; lookups;
          [discriminate | apply Hs].
      - destruct (decide (t = tid)) as [->|Hne]; lookups; [|apply Hm].
        intros [? Hn]; discriminate Hn. }
    destruct delete_files; now apply Hgen.
Qed.

(** The four registries after a completion step that goes through. *)
Lemma stop_if_completed_registries (e : env) (tid : string)
    (h : lt.torrent_handle) (st : lt.torrent_status) (w : world) :
  stop_if_completed e tid h st w = w
  ∨ (torrents (stop_if_completed e tid h st w) = delete tid (torrents w)
     ∧ torrent_metadata (stop_if_completed e tid h st w)
       = <[tid := Metadata.mark_completed (time_now e) (metadata_of tid w)]>
           (torrent_metadata w)
     ∧ completed_torrents (stop_if_completed e tid h st w)
       = <[tid := completed_info tid st
                    (inject_Z (Z.of_N (lt.all_time_upload st))
                     / inject_Z (Z.max (Z.of_N (lt.all_time_download st)) 1))%Q
                    (default DOWNLOAD_DIR (Metadata.save_path (metadata_of tid w)))
                    (default (time_now e)
                             (Metadata.added_time (metadata_of tid w)))]>
           (completed_torrents w)
     ∧ (∃ cf, completed_files (stop_if_completed e tid h st w)
              = <[tid := cf]> (completed_files w))
     ∧ disk (stop_if_completed e tid h st w) = disk w).
Proof.
  unfold stop_if_completed.
  destruct (Metadata.stopped_on_complete (metadata_of tid w)); [now left|].
  destruct (lt.control_ok h); [|now left]. cbn [negb].
  rewrite ratio_defined. right.
  set (w2 := with_completed_files _ _).
  set (snapshot := match lt.get_torrent_info h with
                   | Some info => _ | None => [] end).
  set (name := match lt.get_torrent_info h with
               | Some info => lt.info_name info | None => lt.name st end).
  destruct (1 <? length snapshot)%nat.
  - destruct (build_zip_cases e tid snapshot name (time_now e) w2)
      as [->|(z & -> & _)]; cbn; eauto 10.
  - cbn. eauto 10.
Qed.

Lemma stop_if_completed_documented (e : env) (tid : string)
    (h : lt.torrent_handle) (st : lt.torrent_status) (w : world) :
  documented w -> is_Some (torrents w !! tid) ->
  documented (stop_if_completed e tid h st w).
Proof.
  intros Hw Hact.
  destruct (stop_if_completed_registries e tid h st w)
    as [->|(E1 & E2 & E3 & (cf & E4) & _)]; [exact Hw|].
  destruct Hw as [Ha Hc Hs Hm].
  destruct (Ha tid Hact) as (m & Hmd & M1 & M2 & (added & M3) & (save & M4)).
  assert (metadata_of tid w = m) as Hmo by (unfold metadata_of; now rewrite Hmd).
  rewrite Hmo in E2, E3. rewrite M3, M4 in E3. cbn [default] in E3.
  split; rewrite ?E1, ?E2, ?E3, ?E4; intros t.
  - destruct (decide (t = tid)) as [->|Hne]; lookups; [|apply Ha].
    intros [? Hn]; discriminate Hn.
  - intros info. destruct (decide (t = tid)) as [->|Hne]; lookups; [|apply Hc].
    intros [= <-]. exists (Metadata.mark_completed (time_now e) m), (time_now e).
    cbn. repeat split; eauto.
  - intros info. destruct (decide (t = tid)) as [->|Hne]; lookups; [|apply Hs].
    intros [= <-]. cbn. repeat split; reflexivity.
  - destruct (decide (t = tid)) as [->|Hne]; lookups.
    + intros _. right. eauto.
    + intros Hs'. destruct (Hm t Hs') as [?|?]; [left | right]; assumption.
Qed.

Lemma monitor_fold_documented (clock : string -> env)
    (l : list (string * lt.torrent_handle)) (w : world) :
  List.NoDup (List.map fst l) ->
  (∀ tid h, In (tid, h) l -> is_Some (torrents w !! tid)) ->
  documented w ->
  documented
    (List.fold_left (fun acc '(tid, h) => monitor_job (clock tid) tid h acc) l w).
Proof.
  revert w; induction l as [|[t0 h0] l IH]; intros w Hnd Hact Hw; [exact Hw|].
  cbn [List.fold_left]. cbn in Hnd. apply List.NoDup_cons_iff in Hnd as [Hfresh Hnd].
  apply IH; [exact Hnd| |].
  - intros tid h Hin.
    assert (tid ≠ t0) as Hne.
    { intros ->. apply Hfresh. now apply (List.in_map fst) in Hin. }
    destruct (monitor_job_frame (clock t0) t0 h0 w tid Hne) as (F1 & _).
    rewrite F1. apply (Hact tid h). now right.
  - unfold monitor_job.
    destruct (lt.status h0) as [st|]; [|exact Hw].
    destruct (Qle_bool 1 (lt.progress st)); [|exact Hw].
    apply stop_if_completed_documented; [exact Hw|]. apply (Hact t0 h0). now left.
Qed.

Lemma snapshot_keys (w : world) :
  List.NoDup (List.map fst (map_to_list (torrents w)))
  ∧ ∀ tid h, In (tid, h) (map_to_list (torrents w)) -> torrents w !! tid = Some h.
Proof.
  split.
  - apply NoDup_ListNoDup, NoDup_fst_map_to_list.
  - intros tid h Hin. now apply list_elem_of_In, elem_of_map_to_list in Hin.
Qed.

Lemma step_documented (live : gset string) (ev : event) (w : world) :
  coherent live w -> documented w -> admissible ev w -> documented (step ev w).
Proof.
  intros Hc Hw Hadm. destruct ev; cbn [step].
  - destruct (add_from_url_described e url save_path sequential w)
      as [(c & d & ->)|(h & m & -> & M1 & M2 & M3 & M4)]; [exact Hw|].
    cbn [fst]. apply registers_described; try assumption;
      [rewrite M3 | rewrite M4]; eauto.
  - destruct (add_torrent_file_described e torrent_data save_path sequential w)
      as [(c & d & ->)|(h & m & -> & M1 & M2 & M3 & M4)]; [exact Hw|].
    cbn [fst]. apply registers_described; try assumption;
      [rewrite M3 | rewrite M4]; eauto.
  - now apply (remove_torrent_documented live).
  - unfold pause_torrent.
    destruct (torrents w !! torrent_id) as [h|] eqn:Ht; [|exact Hw].
    destruct (lt.control_ok h); [|exact Hw]. cbn [fst].
    apply (documented_same w); try reflexivity; [|exact Hw].
    intros t. cbn. now apply (insert_existing_keys _ h).
  - unfold resume_torrent.
    destruct (torrents w !! torrent_id) as [h|] eqn:Ht; [|exact Hw].
    destruct (lt.control_ok h); [|exact Hw]. cbn [fst].
    apply (documented_same w); try reflexivity; [|exact Hw].
    intros t. cbn. now apply (insert_existing_keys _ h).
  - destruct (snapshot_keys w) as [Hnd Hin].
    apply monitor_fold_documented; [exact Hnd| |exact Hw].
    intros tid h Hi. rewrite (Hin tid h Hi). eauto.
  - destruct (download_cases e torrent_id file w)
      as [->|(files & name & z & _ & _ & _ & ->)]; [exact Hw|].
    now apply (documented_same w).
  - apply (documented_same w); try reflexivity; [|exact Hw].
    intros t. cbn. cbn in Hadm. rewrite <- !elem_of_dom. now rewrite Hadm.
Qed.

Lemma initial_documented (files : gset Path) : documented (initial files).
Proof.
  split; cbn; intros t; rewrite ?lookup_empty.
  - intros [? Hn]; discriminate Hn.
  - intros info Hn; discriminate Hn.
  - intros info Hn; discriminate Hn.
  - intros [? Hn]; discriminate Hn.
Qed.

Lemma reach_both (live : gset string) (w : world) :
  reach live w -> coherent live w ∧ documented w.
Proof.
  induction 1 as [files|live w ev _ [IHc IHd] Hadm].
  - split; [apply initial_coherent | apply initial_documented].
  - split; [now apply step_coherent | now apply (step_documented live)].
Qed.

(** X13.  In every observable world the metadata tells the phase of a job.
    An active job has metadata that carries its submission time and save
    root, with the completion guard unset and no completion time.  A
    completed job has metadata with the guard set and a completion time,
    its record repeats the submission time and save root of the metadata,
    has the id under which it is filed, state "completed", progress 100,
    eta 0 and as many bytes downloaded as the total size, and a file
    snapshot is filed with it.  Metadata is kept for registered jobs
    only. *)
Theorem metadata_documents_jobs (live : gset string) (w : world) :
  reach live w -> documented w.
Proof. intros Hr. now apply (reach_both live). Qed.

Lemma metadata_documents_jobs_witness : documented Sample.finished.
Proof.
  apply (metadata_documents_jobs
           (Sample.submitted_live 1 true Sample.files_on_disk)).
  exact sample_finished_reach.
Defined.

(** X14.  A completed record is final.  In an observable world no event
    other than the removal of the job changes the record of a completed
    job, its file snapshot or its metadata, and the status query keeps
    answering with that record: the ratio, the byte counts and the name are
    those seen at completion, whatever the engine and the other jobs do. *)
Theorem completed_record_frozen (live : gset string) (ev : event) (w : world)
    (tid : string) (info : TorrentInfo.t) :
  reach live w -> admissible ev w ->
  completed_torrents w !! tid = Some info ->
  (∀ delete_files, ev ≠ Remove tid delete_files) ->
  completed_torrents (step ev w) !! tid = Some info
  ∧ completed_files (step ev w) !! tid = completed_files w !! tid
  ∧ torrent_metadata (step ev w) !! tid = torrent_metadata w !! tid
  ∧ get_torrent_info tid (step ev w) = Ok info.
Proof.
  intros Hr Hadm Hinfo Hev.
  pose proof (reach_coherent _ _ Hr) as Hw.
  assert (torrents (step ev w) !! tid = None) as Hna
    by (apply (completed_stays_inactive live); eauto).
  assert (torrents w !! tid = None) as Ht.
  { destruct (torrents w !! tid) eqn:E; [|reflexivity].
    destruct (active_xor_completed _ _ Hw tid). rewrite E, Hinfo. eauto. }
  assert (completed_torrents (step ev w) !! tid = Some info
          ∧ completed_files (step ev w) !! tid = completed_files w !! tid
          ∧ torrent_metadata (step ev w) !! tid = torrent_metadata w !! tid)
    as (E1 & E2 & E3).
  { assert (∀ e h m, unused (uuid4 e) w ->
              completed_torrents (register (uuid4 e) h m w) !! tid = Some info
              ∧ completed_files (register (uuid4 e) h m w) !! tid
                = completed_files w !! tid
              ∧ torrent_metadata (register (uuid4 e) h m w) !! tid
                = torrent_metadata w !! tid) as Hreg.
    { intros e h m (_ & _ & Hu & _). cbn.
      assert (tid ≠ uuid4 e) as Hne by congruence. now lookups. }
    destruct ev; cbn [step].
    - destruct (add_from_url_cases e url save_path sequential w)
        as [(c & d & ->)|(h & m & -> & _)]; [auto | now apply Hreg].
    - destruct (add_torrent_file_cases e torrent_data save_path sequential w)
        as [(c & d & ->)|(h & m & -> & _)]; [auto | now apply Hreg].
    - assert (tid ≠ torrent_id) as Hne
        by (intros ->; now apply (Hev delete_files)).
      unfold remove_torrent.
      destruct (torrents w !! torrent_id); cbn; [now lookups|].
      destruct (completed_torrents w !! torrent_id); [|auto].
      destruct delete_files; cbn; now lookups.
    - unfold pause_torrent.
      destruct (torrents w !! torrent_id) as [h|]; [|auto].
      destruct (lt.control_ok h); auto.
    - unfold resume_torrent.
      destruct (torrents w !! torrent_id) as [h|]; [|auto].
      destruct (lt.control_ok h); auto.
    - destruct (monitor_fold_frame clock (map_to_list (torrents w)) w tid)
        as (_ & F2 & F3 & F4 & _).
      + intros Hin. apply List.in_map_iff in Hin as ([t h] & Heq & Hin).
        cbn in Heq. subst t.
        destruct (snapshot_keys w) as [_ Hk]. rewrite (Hk _ _ Hin) in Ht.
        discriminate Ht.
      + unfold monitor_tick. rewrite F2, F3, F4. auto.
    - destruct (download_cases e torrent_id file w)
        as [->|(files & name & z & _ & _ & _ & ->)]; auto.
    - auto. }
  repeat split; try assumption.
  unfold get_torrent_info. now rewrite Hna, E1.
Qed.

Lemma completed_record_frozen_witness :
  get_torrent_info "job-1"
    (step (Download Example.late "job-1" None) Sample.finished)
  = Ok (completed_info "job-1" (Sample.status 1) (50 # 500) DOWNLOAD_DIR 100).
Proof.
  apply (completed_record_frozen
           (Sample.submitted_live 1 true Sample.files_on_disk)
           (Download Example.late "job-1" None) Sample.finished "job-1").
  - exact sample_finished_reach.
  - exact I.
  - vm_compute. reflexivity.
  - intros delete_files. discriminate.
Defined.

End Documented.

(** ** What a monitor tick leaves alone *)

Section Tick.

Lemma monitor_job_skips (e : env) (tid : string) (h : lt.torrent_handle)
    (w : world) :
  lt.status h = None
  ∨ (∃ st, lt.status h = Some st ∧ (lt.progress st < 1)%Q)
  ∨ lt.control_ok h = false ->
  monitor_job e tid h w = w.
Proof.
  intros Hskip. unfold monitor_job.
  destruct (lt.status h) as [st|] eqn:Hst; [|reflexivity].
  destruct (Qle_bool 1 (lt.progress st)) eqn:Hp; [|reflexivity].
  destruct Hskip as [Hn|[(st' & [= <-] & Hlt)|Hc]].
  - discriminate Hn.
  - apply Qle_bool_iff in Hp. exfalso. now apply (Qlt_not_le _ _ Hlt).
  - unfold stop_if_completed. rewrite Hc.
    now destruct (Metadata.stopped_on_complete _).
Qed.

Lemma monitor_fold_skips (clock : string -> env)
    (l : list (string * lt.torrent_handle)) (w : world) (tid : string) :
  List.NoDup (List.map fst l) ->
  (∀ h, In (tid, h) l -> ∀ e w0, monitor_job e tid h w0 = w0) ->
  let w' := List.fold_left (fun acc '(t, h) => monitor_job (clock t) t h acc) l w in
  torrents w' !! tid = torrents w !! tid
  ∧ torrent_metadata w' !! tid = torrent_metadata w !! tid
  ∧ completed_torrents w' !! tid = completed_torrents w !! tid
  ∧ completed_files w' !! tid = completed_files w !! tid
  ∧ temp_zips w' !! tid = temp_zips w !! tid.
Proof.
  revert w; induction l as [|[t0 h0] l IH]; intros w Hnd Hskip; [cbn; auto|].
  cbn [List.fold_left]. cbn in Hnd. apply List.NoDup_cons_iff in Hnd as [Hfresh Hnd].
  destruct (decide (t0 = tid)) as [->|Hne].
  - rewrite (Hskip h0) by now left.
    now apply monitor_fold_frame.
  - destruct (IH (monitor_job (clock t0) t0 h0 w) Hnd) as (E1 & E2 & E3 & E4 & E5).
    { intros h Hin. apply Hskip. now right. }
    destruct (monitor_job_frame (clock t0) t0 h0 w tid) as (F1 & F2 & F3 & F4 & F5);
      [congruence|].
    cbv zeta. rewrite E1, E2, E3, E4, E5. auto.
Qed.

Lemma monitor_job_own (e : env) (tid : string) (h : lt.torrent_handle) (w : world) :
  monitor_job e tid h w = w
  ∨ (torrents (monitor_job e tid h w) !! tid = None
     ∧ is_Some (completed_torrents (monitor_job e tid h w) !! tid)
     ∧ is_Some (completed_files (monitor_job e tid h w) !! tid)).
Proof.
  unfold monitor_job.
  destruct (lt.status h) as [st|]; [|now left].
  destruct (Qle_bool 1 (lt.progress st)); [|now left].
  destruct (stop_if_completed_cases e tid h st w)
    as [->|(_ & _ & ratio & save & added & cf & zs & _ & -> & _)]; [now left|].
  right. cbn. lookups. eauto.
Qed.

Lemma monitor_job_disk (e : env) (tid : string) (h : lt.torrent_handle) (w : world) :
  disk (monitor_job e tid h w) = disk w.
Proof.
  unfold monitor_job.
  destruct (lt.status h) as [st|]; [|reflexivity].
  destruct (Qle_bool 1 (lt.progress st)); [|reflexivity].
  destruct (stop_if_completed_cases e tid h st w)
    as [->|(_ & _ & ratio & save & added & cf & zs & _ & -> & _)]; reflexivity.
Qed.

Lemma monitor_fold_disk (clock : string -> env)
    (l : list (string * lt.torrent_handle)) (w : world) :
  disk (List.fold_left (fun acc '(t, h) => monitor_job (clock t) t h acc) l w)
  = disk w.
Proof.
  revert w; induction l as [|[t0 h0] l IH]; intros w; [reflexivity|].
  cbn [List.fold_left]. rewrite IH. apply monitor_job_disk.
Qed.

Lemma monitor_fold_fate (clock : string -> env)
    (l : list (string * lt.torrent_handle)) (w : world) (tid : string) :
  List.NoDup (List.map fst l) ->
  let w' := List.fold_left (fun acc '(t, h) => monitor_job (clock t) t h acc) l w in
  (torrents w' !! tid = torrents w !! tid
   ∧ torrent_metadata w' !! tid = torrent_metadata w !! tid
   ∧ completed_torrents w' !! tid = completed_torrents w !! tid
   ∧ completed_files w' !! tid = completed_files w !! tid
   ∧ temp_zips w' !! tid = temp_zips w !! tid)
  ∨ (In tid (List.map fst l)
     ∧ torrents w' !! tid = None
     ∧ is_Some (completed_torrents w' !! tid)
     ∧ is_Some (completed_files w' !! tid)).
Proof.
  revert w; induction l as [|[t0 h0] l IH]; intros w Hnd; [left; cbn; auto|].
  cbn [List.fold_left]. cbn in Hnd. apply List.NoDup_cons_iff in Hnd as [Hfresh Hnd].
  cbv zeta. destruct (decide (t0 = tid)) as [->|Hne].
  - destruct (monitor_fold_frame clock l (monitor_job (clock tid) tid h0 w) tid Hfresh)
      as (E1 & E2 & E3 & E4 & E5).
    rewrite E1, E2, E3, E4, E5.
    destruct (monitor_job_own (clock tid) tid h0 w) as [->|(O1 & O2 & O3)];
      [left; auto|].
    right. split; [now left | auto].
  - destruct (monitor_job_frame (clock t0) t0 h0 w tid) as (F1 & F2 & F3 & F4 & F5);
      [congruence|].
    destruct (IH (monitor_job (clock t0) t0 h0 w) Hnd)
      as [(E1 & E2 & E3 & E4 & E5)|(Hin & R)].
    + left. rewrite E1, E2, E3, E4, E5. auto.
    + right. split; [now right | exact R].
Qed.

(** X15.  A monitor tick passes over a job it cannot complete.  When the
    handle of an active job raises on [status()], reports progress below 1,
    or refuses the pause of the completion step, the tick leaves the job as
    it found it: same handle in the active map, same metadata, no completed
    record, no file snapshot, and the cached archive it had, whatever the
    tick does to the other jobs. *)
Theorem tick_skips_unfinished (clock : string -> env) (w : world) (tid : string)
    (h : lt.torrent_handle) :
  torrents w !! tid = Some h ->
  lt.status h = None
  ∨ (∃ st, lt.status h = Some st ∧ (lt.progress st < 1)%Q)
  ∨ lt.control_ok h = false ->
  torrents (monitor_tick clock w) !! tid = Some h
  ∧ torrent_metadata (monitor_tick clock w) !! tid = torrent_metadata w !! tid
  ∧ completed_torrents (monitor_tick clock w) !! tid = completed_torrents w !! tid
  ∧ completed_files (monitor_tick clock w) !! tid = completed_files w !! tid
  ∧ temp_zips (monitor_tick clock w) !! tid = temp_zips w !! tid.
Proof.
  intros Ht Hskip. rewrite <- Ht. unfold monitor_tick.
  apply monitor_fold_skips.
  - apply NoDup_ListNoDup, NoDup_fst_map_to_list.
  - intros h' Hin e w0.
    apply list_elem_of_In, elem_of_map_to_list in Hin.
    assert (h' = h) as -> by congruence.
    now apply monitor_job_skips.
Qed.

Lemma tick_skips_unfinished_witness :
  torrents (monitor_tick (fun _ => Example.late) Sample.downloading) !! "job-1"
  = Some (Sample.handle (1 # 2) true)
  ∧ torrent_metadata (monitor_tick (fun _ => Example.late) Sample.downloading)
      !! "job-1"
    = torrent_metadata Sample.downloading !! "job-1"
  ∧ completed_torrents (monitor_tick (fun _ => Example.late) Sample.downloading)
      !! "job-1"
    = completed_torrents Sample.downloading !! "job-1"
  ∧ completed_files (monitor_tick (fun _ => Example.late) Sample.downloading)
      !! "job-1"
    = completed_files Sample.downloading !! "job-1"
  ∧ temp_zips (monitor_tick (fun _ => Example.late) Sample.downloading) !! "job-1"
    = temp_zips Sample.downloading !! "job-1".
Proof.
  apply (tick_skips_unfinished (fun _ => Example.late) Sample.downloading "job-1"
           (Sample.handle (1 # 2) true)).
  - vm_compute. reflexivity.
  - right. left. exists (Sample.status (1 # 2)). split; [reflexivity|].
    vm_compute. reflexivity.
Defined.

(** X16.  A monitor tick loses nothing.  It never touches the downloaded
    files.  For every job it either leaves all five entries of the job as they
    were, or the job was in the active map before and is, after the tick, out
    of the active map and filed in the completed registry with a file
    snapshot.  In particular it adds no handle and changes none, and a job
    that was active is afterwards active or completed. *)
Theorem tick_loses_nothing (clock : string -> env) (w : world) :
  disk (monitor_tick clock w) = disk w
  ∧ (∀ tid,
       (torrents (monitor_tick clock w) !! tid = torrents w !! tid
        ∧ torrent_metadata (monitor_tick clock w) !! tid = torrent_metadata w !! tid
        ∧ completed_torrents (monitor_tick clock w) !! tid
          = completed_torrents w !! tid
        ∧ completed_files (monitor_tick clock w) !! tid = completed_files w !! tid
        ∧ temp_zips (monitor_tick clock w) !! tid = temp_zips w !! tid)
       ∨ (is_Some (torrents w !! tid)
          ∧ torrents (monitor_tick clock w) !! tid = None
          ∧ is_Some (completed_torrents (monitor_tick clock w) !! tid)
          ∧ is_Some (completed_files (monitor_tick clock w) !! tid)))
  ∧ (∀ tid h, torrents (monitor_tick clock w) !! tid = Some h ->
              torrents w !! tid = Some h)
  ∧ (∀ tid, is_Some (torrents w !! tid) ->
            is_Some (torrents (monitor_tick clock w) !! tid)
            ∨ is_Some (completed_torrents (monitor_tick clock w) !! tid)).
Proof.
  assert (∀ tid,
       (torrents (monitor_tick clock w) !! tid = torrents w !! tid
        ∧ torrent_metadata (monitor_tick clock w) !! tid = torrent_metadata w !! tid
        ∧ completed_torrents (monitor_tick clock w) !! tid
          = completed_torrents w !! tid
        ∧ completed_files (monitor_tick clock w) !! tid = completed_files w !! tid
        ∧ temp_zips (monitor_tick clock w) !! tid = temp_zips w !! tid)
       ∨ (is_Some (torrents w !! tid)
          ∧ torrents (monitor_tick clock w) !! tid = None
          ∧ is_Some (completed_torrents (monitor_tick clock w) !! tid)
          ∧ is_Some (completed_files (monitor_tick clock w) !! tid))) as Hfate.
  { intros tid. unfold monitor_tick.
    destruct (monitor_fold_fate clock (map_to_list (torrents w)) w tid)
      as [Hsame|(Hin & R)].
    - apply NoDup_ListNoDup, NoDup_fst_map_to_list.
    - now left.
    - right. split; [|exact R].
      apply List.in_map_iff in Hin as ([t h] & Heq & Hin). cbn in Heq. subst t.
      apply list_elem_of_In, elem_of_map_to_list in Hin. eauto. }
  split; [apply monitor_fold_disk|]. split; [exact Hfate|]. split.
  - intros tid h Hh. destruct (Hfate tid) as [(E & _)|(_ & E & _)]; congruence.
  - intros tid Hs. destruct (Hfate tid) as [(E & _)|(_ & _ & Hc & _)].
    + left. now rewrite E.
    + now right.
Qed.

End Tick.

(** ** The broadcast *)

Section Broadcast.

Lemma existsb_here (c : WebSocket) (pre r : list WebSocket) :
  List.existsb (Nat.eqb c) (pre ++ c :: r)%list = true.
Proof.
  apply List.existsb_exists. exists c. split; [|apply Nat.eqb_refl].
  apply List.in_or_app. right. now left.
Qed.

Lemma list_remove_here (c : WebSocket) (pre r : list WebSocket) :
  ¬ In c pre -> list_remove c (pre ++ c :: r)%list = (pre ++ r)%list.
Proof.
  induction pre as [|x pre IH]; intros Hnin; cbn.
  - now rewrite Nat.eqb_refl.
  - destruct (Nat.eqb_spec x c) as [->|_]; [exfalso; apply Hnin; now left|].
    rewrite IH; [reflexivity|]. intros Hin. apply Hnin. now right.
Qed.

(** Dropping the clients whose send failed leaves the others, in order. *)
Lemma prune_clients_filter (send_json : WebSocket -> bool)
    (pre clients : list WebSocket) :
  (∀ c, In c pre -> send_json c = true) ->
  prune_clients (List.filter (fun c => negb (send_json c)) clients)
                (pre ++ clients)%list
  = (pre ++ List.filter send_json clients)%list.
Proof.
  unfold prune_clients. revert pre.
  induction clients as [|x r IH]; intros pre Hpre; [reflexivity|].
  cbn [List.filter]. destruct (send_json x) eqn:Hx; cbn [negb].
  - change (pre ++ x :: r)%list with (pre ++ [x] ++ r)%list.
    rewrite List.app_assoc, IH.
    + now rewrite <- List.app_assoc.
    + intros c Hc. apply List.in_app_or in Hc as [Hc|[<-|[]]]; auto.
  - cbn [List.fold_left]. rewrite existsb_here, list_remove_here.
    + now apply IH.
    + intros Hin. apply Hpre in Hin. congruence.
Qed.

(** X17.  A broadcast sends one and the same merged view to every client.
    When the view can be computed, the clients left connected are exactly
    those whose send went through, in their old order, each of them was sent
    the view once, and the clients whose send failed are dropped, every
    occurrence of them.  When the view cannot be computed nothing is sent and
    no client is dropped. *)
Theorem broadcast_update_outcome (send_json : WebSocket -> bool) (w : world)
    (websocket_clients : list WebSocket) :
  (∀ torrents_data, list_torrents w = Ok torrents_data ->
     broadcast_update send_json w websocket_clients
     = (List.filter send_json websocket_clients,
        List.map (fun client => (client, torrents_data))
                 (List.filter send_json websocket_clients)))
  ∧ (∀ status_code detail, list_torrents w = Err status_code detail ->
       broadcast_update send_json w websocket_clients
       = (websocket_clients,
          []))
  ∧ (∀ client, In client (fst (broadcast_update send_json w websocket_clients)) ->
       In client websocket_clients)
  ∧ (∀ client torrents_data,
       In (client, torrents_data)
          (snd (broadcast_update send_json w websocket_clients)) ->
       list_torrents w = Ok torrents_data
       ∧ In client websocket_clients ∧ send_json client = true).
Proof.
  assert (∀ torrents_data, list_torrents w = Ok torrents_data ->
     broadcast_update send_json w websocket_clients
     = (List.filter send_json websocket_clients,
        List.map (fun client => (client, torrents_data))
                 (List.filter send_json websocket_clients))) as Hok.
  { intros data Hl. unfold broadcast_update. rewrite Hl.
    destruct websocket_clients as [|c r] eqn:E; [reflexivity|].
    rewrite <- E.
    pose proof (prune_clients_filter send_json [] websocket_clients) as Hp.
    cbn [app] in Hp. rewrite Hp; [reflexivity|]. intros c0 []. }
  assert (∀ status_code detail, list_torrents w = Err status_code detail ->
       broadcast_update send_json w websocket_clients = (websocket_clients, []))
    as Herr.
  { intros c d Hl. unfold broadcast_update. rewrite Hl.
    now destruct websocket_clients. }
  split; [exact Hok|]. split; [exact Herr|].
  destruct (list_torrents w) as [data|c d] eqn:Hl.
  - rewrite (Hok data eq_refl). cbn [fst snd]. split.
    + intros client Hin. now apply List.filter_In in Hin.
    + intros client data' Hin.
      apply List.in_map_iff in Hin as (c0 & [= <- <-] & Hin).
      apply List.filter_In in Hin as [Hin Hs]. auto.
  - rewrite (Herr c d eq_refl). cbn [fst snd]. split; [auto|].
    intros client data' [].
Qed.

End Broadcast.

(** ** Removal and the downloaded files *)

Section Removal.

(** X18.  What a removal may touch.  The entries of every other job stay
    as they are in all five registries.  The manager itself unlinks
    downloaded files only for a completed job removed with [delete_files],
    and then only paths of that job's file snapshot: every other file stays
    on disk, and without [delete_files], for an active job (whose files are
    the engine's to delete) or for an unknown id the disk is left as it
    is. *)
Theorem remove_torrent_footprint (tid : string) (delete_files : bool) (w : world) :
  (∀ t, t ≠ tid ->
     torrents (fst (remove_torrent tid delete_files w)) !! t = torrents w !! t
     ∧ torrent_metadata (fst (remove_torrent tid delete_files w)) !! t
       = torrent_metadata w !! t
     ∧ completed_torrents (fst (remove_torrent tid delete_files w)) !! t
       = completed_torrents w !! t
     ∧ completed_files (fst (remove_torrent tid delete_files w)) !! t
       = completed_files w !! t
     ∧ temp_zips (fst (remove_torrent tid delete_files w)) !! t = temp_zips w !! t)
  ∧ (∀ p, p ∈ disk (fst (remove_torrent tid delete_files w)) -> p ∈ disk w)
  ∧ (∀ p, p ∈ disk w -> p ∉ disk (fst (remove_torrent tid delete_files w)) ->
       delete_files = true
       ∧ torrents w !! tid = None
       ∧ is_Some (completed_torrents w !! tid)
       ∧ ∃ entry f, completed_files w !! tid = Some entry
                    ∧ In f (CompletedFiles.files entry)
                    ∧ FileEntry.absolute_path f = p)
  ∧ (delete_files = false ∨ is_Some (torrents w !! tid)
     ∨ completed_torrents w !! tid = None ->
     disk (fst (remove_torrent tid delete_files w)) = disk w).
Proof.
  unfold remove_torrent.
  destruct (torrents w !! tid) as [h|] eqn:Ht.
  { cbn. repeat split; try (now lookups); try tauto. }
  destruct (completed_torrents w !! tid) as [info|] eqn:Hc.
  2:{ cbn. repeat split; tauto. }
  destruct delete_files.
  2:{ cbn. repeat split; try (now lookups); try tauto. }
  cbn. split; [|split; [|split]].
  - intros t Hne. now lookups.
  - intros p Hp. now apply elem_of_difference in Hp as [Hp _].
  - intros p Hp Hgone. split; [reflexivity|]. split; [reflexivity|].
    split; [eauto|].
    destruct (completed_files w !! tid) as [entry|].
    + assert (p ∈ (list_to_set
                     (List.map FileEntry.absolute_path (CompletedFiles.files entry))
                   : gset Path)) as Hin.
      { destruct (decide (p ∈ (list_to_set
                     (List.map FileEntry.absolute_path (CompletedFiles.files entry))
                   : gset Path))) as [Hin|Hnin]; [exact Hin|].
        exfalso. apply Hgone. apply elem_of_difference. auto. }
      apply elem_of_list_to_set, list_elem_of_In, List.in_map_iff in Hin
        as (f & Hf & Hin).
      exists entry, f. auto.
    + exfalso. apply Hgone. apply elem_of_difference. split; [exact Hp|].
      cbn. apply not_elem_of_empty.
  - intros [Hd|[[? Hn]|Hn]]; discriminate.
Qed.

End Removal.

(** ** The merged view lists every job once *)

Section Merged.

Lemma comprehension_Forall2 {A B} (f : A -> result B) (l : list A) (ys : list B) :
  comprehension f l = Ok ys -> List.Forall2 (fun x y => f x = Ok y) l ys.
Proof.
  revert ys; induction l as [|x l IH]; intros ys; cbn.
  - intros [= <-]. constructor.
  - destruct (f x) as [y|] eqn:Hx; [|discriminate].
    destruct (comprehension f l) as [ys'|]; [|discriminate].
    intros [= <-]. constructor; auto.
Qed.

Lemma get_torrent_info_readable (tid : string) (w : world) (h : lt.torrent_handle)
    (info : TorrentInfo.t) :
  torrents w !! tid = Some h -> get_torrent_info tid w = Ok info ->
  is_Some (lt.status h) ∧ TorrentInfo.id info = tid.
Proof.
  intros Ht. unfold get_torrent_info. rewrite Ht.
  destruct (lt.status h) as [st|]; [|discriminate].
  destruct (if 0 <? lt.download_rate st then _ else _) as [eta|]; [|discriminate].
  destruct (py_truediv _ _) as [ratio|]; [|discriminate].
  intros [= <-]. split; [eauto | reflexivity].
Qed.

Lemma active_ids (w : world) (keys : list string) (active : list TorrentInfo.t) :
  (∀ tid, In tid keys -> is_Some (torrents w !! tid)) ->
  List.Forall2 (fun tid info => get_torrent_info tid w = Ok info) keys active ->
  List.map TorrentInfo.id active = keys.
Proof.
  intros Hkeys Hall. induction Hall as [|tid info keys active Hi _ IH]; [reflexivity|].
  cbn. destruct (Hkeys tid) as [h Hh]; [now left|].
  destruct (get_torrent_info_readable tid w h info Hh Hi) as [_ ->].
  rewrite IH; [reflexivity|]. intros t Ht. apply Hkeys. now right.
Qed.

Lemma active_answers (w : world) (keys : list string) (active : list TorrentInfo.t)
    (info : TorrentInfo.t) :
  (∀ tid, In tid keys -> is_Some (torrents w !! tid)) ->
  List.Forall2 (fun tid info => get_torrent_info tid w = Ok info) keys active ->
  In info active -> get_torrent_info (TorrentInfo.id info) w = Ok info.
Proof.
  intros Hkeys Hall. induction Hall as [|t i keys active Hi _ IH]; [intros []|].
  destruct (Hkeys t) as [h Hh]; [now left|].
  intros [<-|Hin].
  - destruct (get_torrent_info_readable t w h i Hh Hi) as [_ ->]. exact Hi.
  - apply IH; [|exact Hin]. intros t' Ht'. apply Hkeys. now right.
Qed.

Lemma completed_ids (w : world) (l : list (string * TorrentInfo.t)) :
  documented w ->
  (∀ tid info, In (tid, info) l -> completed_torrents w !! tid = Some info) ->
  List.map TorrentInfo.id (List.map snd l) = List.map fst l.
Proof.
  intros Hd Hl. induction l as [|[tid info] l IH]; [reflexivity|].
  cbn. destruct (completed_shape _ Hd tid info) as [-> _]; [apply Hl; now left|].
  rewrite IH; [reflexivity|]. intros t i Hin. apply Hl. now right.
Qed.

Lemma in_keys {V} (m : gmap string V) (tid : string) :
  In tid (List.map fst (map_to_list m)) <-> is_Some (m !! tid).
Proof.
  split.
  - intros Hin. apply List.in_map_iff in Hin as ([t v] & Heq & Hin).
    cbn in Heq. subst t. apply list_elem_of_In, elem_of_map_to_list in Hin. eauto.
  - intros [v Hv]. apply List.in_map_iff. exists (tid, v). split; [reflexivity|].
    now apply list_elem_of_In, elem_of_map_to_list.
Qed.

(** X19.  The merged view of an observable world.  It answers exactly when
    every active handle reports its status.  When it answers it holds one
    record for every job submitted and not removed, and no other: the ids of
    its records are pairwise different and are the live ids, and each record
    is the one the status query gives for its id. *)
Theorem merged_view_one_record_per_job (live : gset string) (w : world) :
  reach live w ->
  (is_ok (list_torrents w) = true <->
   ∀ tid h, torrents w !! tid = Some h -> is_Some (lt.status h))
  ∧ ∀ l, list_torrents w = Ok l ->
      List.NoDup (List.map TorrentInfo.id l)
      ∧ (∀ tid, In tid (List.map TorrentInfo.id l) <-> tid ∈ live)
      ∧ (∀ info, In info l -> get_torrent_info (TorrentInfo.id info) w = Ok info)
      ∧ length l = size live.
Proof.
  intros Hr. destruct (reach_both _ _ Hr) as [Hw Hd].
  assert (∀ tid, In tid (List.map fst (map_to_list (torrents w))) ->
                 is_Some (torrents w !! tid)) as Hkeys
    by (intros tid; apply in_keys).
  split.
  - unfold list_torrents. split.
    + destruct (comprehension _ _) as [active|] eqn:Hc; [|discriminate].
      intros _ tid h Ht. apply comprehension_Forall2 in Hc.
      assert (In tid (List.map fst (map_to_list (torrents w)))) as Hin
        by (apply in_keys; eauto).
      revert Hin. induction Hc as [|t info keys active Hi _ IH]; [intros []|].
      intros [->|Hin].
      * now destruct (get_torrent_info_readable tid w h info Ht Hi).
      * apply IH; [|exact Hin]. intros t' Ht'. apply Hkeys. now right.
    + intros Hall.
      destruct (comprehension_total (fun tid => get_torrent_info tid w)
                  (List.map fst (map_to_list (torrents w)))) as [ys ->];
        [|reflexivity].
      intros tid Hin. destruct (Hkeys tid Hin) as [h Hh].
      apply (get_torrent_info_active tid w h Hh). eauto.
  - intros l. unfold list_torrents.
    destruct (comprehension _ _) as [active|] eqn:Hc; [|discriminate].
    intros [= <-]. apply comprehension_Forall2 in Hc.
    set (done := map_to_list (completed_torrents w)).
    assert (∀ tid info, In (tid, info) done ->
                        completed_torrents w !! tid = Some info) as Hdone.
    { intros tid info Hin. now apply list_elem_of_In, elem_of_map_to_list in Hin. }
    assert (Permutation
              (List.map TorrentInfo.id (sorted_desc (active ++ List.map snd done)%list))
              (List.map fst (map_to_list (torrents w)) ++ List.map fst done)%list)
      as Hperm.
    { rewrite (Permutation_map TorrentInfo.id (sorted_desc_perm _)).
      rewrite List.map_app, (active_ids w _ _ Hkeys Hc), (completed_ids w done Hd Hdone).
      reflexivity. }
    assert (List.NoDup
              (List.map fst (map_to_list (torrents w)) ++ List.map fst done)%list)
      as Hnd.
    { apply NoDup_ListNoDup, NoDup_app. split; [|split].
      - apply NoDup_fst_map_to_list.
      - intros tid Ha Hb. apply list_elem_of_In in Ha, Hb.
        apply in_keys in Ha, Hb. now apply (active_xor_completed _ _ Hw tid).
      - apply NoDup_fst_map_to_list. }
    assert (∀ tid, In tid (List.map fst (map_to_list (torrents w))
                           ++ List.map fst done)%list <-> tid ∈ live) as Hlive.
    { intros tid. subst done. rewrite List.in_app_iff, !in_keys.
      symmetry. apply (live_registered _ _ Hw). }
    split; [|split; [|split]].
    + eapply Permutation_NoDup; [symmetry; exact Hperm | exact Hnd].
    + intros tid. rewrite <- Hlive. split; intros Hin.
      * eapply Permutation_in; [exact Hperm | exact Hin].
      * eapply Permutation_in; [symmetry; exact Hperm | exact Hin].
    + intros info Hin. apply sorted_desc_In, List.in_app_or in Hin as [Hin|Hin].
      * exact (active_answers w _ _ info Hkeys Hc Hin).
      * apply List.in_map_iff in Hin as ([tid i] & Heq & Hin). cbn in Heq. subst i.
        pose proof (Hdone _ _ Hin) as Hi.
        destruct (completed_shape _ Hd tid info Hi) as [-> _].
        unfold get_torrent_info. rewrite Hi.
        destruct (torrents w !! tid) eqn:Ht; [|reflexivity].
        destruct (active_xor_completed _ _ Hw tid). rewrite Ht, Hi. eauto.
    + rewrite <- (length_map TorrentInfo.id), (Permutation_length Hperm).
      assert (Permutation
                (List.map fst (map_to_list (torrents w)) ++ List.map fst done)%list
                (elements live)) as Hel.
      { apply NoDup_Permutation.
        - now apply NoDup_ListNoDup.
        - apply NoDup_elements.
        - intros tid. rewrite list_elem_of_In, Hlive. symmetry. apply elem_of_elements. }
      now rewrite (Permutation_length Hel).
Qed.

Lemma merged_view_one_record_per_job_witness :
  (is_ok (list_torrents Sample.finished) = true <->
   ∀ tid h, torrents Sample.finished !! tid = Some h -> is_Some (lt.status h))
  ∧ ∀ l, list_torrents Sample.finished = Ok l ->
      List.NoDup (List.map TorrentInfo.id l)
      ∧ (∀ tid, In tid (List.map TorrentInfo.id l) <->
                tid ∈ Sample.submitted_live 1 true Sample.files_on_disk)
      ∧ (∀ info, In info l ->
           get_torrent_info (TorrentInfo.id info) Sample.finished = Ok info)
      ∧ length l = size (Sample.submitted_live 1 true Sample.files_on_disk).
Proof.
  apply (merged_view_one_record_per_job
           (Sample.submitted_live 1 true Sample.files_on_disk) Sample.finished).
  exact sample_finished_reach.
Defined.

End Merged.

(** ** The life of a job: shown, completed, removed *)

Section Lifecycle.

(** The entries of a job after a completion step that goes through. *)
Lemma stop_if_completed_record (e : env) (tid : string) (h : lt.torrent_handle)
    (st : lt.torrent_status) (w : world) :
  Metadata.stopped_on_complete (metadata_of tid w) = false ->
  lt.control_ok h = true ->
  torrents (stop_if_completed e tid h st w) !! tid = None
  ∧ completed_torrents (stop_if_completed e tid h st w) !! tid
    = Some (completed_info tid st
              (inject_Z (Z.of_N (lt.all_time_upload st))
               / inject_Z (Z.max (Z.of_N (lt.all_time_download st)) 1))%Q
              (default DOWNLOAD_DIR (Metadata.save_path (metadata_of tid w)))
              (default (time_now e) (Metadata.added_time (metadata_of tid w))))
  ∧ torrent_metadata (stop_if_completed e tid h st w) !! tid
    = Some (Metadata.mark_completed (time_now e) (metadata_of tid w))
  ∧ completed_files (stop_if_completed e tid h st w) !! tid
    = Some {| CompletedFiles.files :=
                match lt.get_torrent_info h with
                | Some info =>
                    file_entries
                      (default DOWNLOAD_DIR (Metadata.save_path (metadata_of tid w)))
                      (lt.files info)
                | None => []
                end;
              CompletedFiles.save_path :=
                default DOWNLOAD_DIR (Metadata.save_path (metadata_of tid w));
              CompletedFiles.name :=
                match lt.get_torrent_info h with
                | Some info => lt.info_name info
                | None => lt.name st
                end |}
  ∧ disk (stop_if_completed e tid h st w) = disk w.
Proof.
  intros Hg Hc. rewrite (stop_if_completed_run e tid h st w Hg Hc). cbv zeta.
  set (snapshot := match lt.get_torrent_info h with
                   | Some info => _ | None => [] end).
  set (name := match lt.get_torrent_info h with
               | Some info => lt.info_name info | None => lt.name st end).
  set (w2 := with_completed_files _ _).
  destruct (1 <? length snapshot)%nat.
  - destruct (build_zip_cases e tid snapshot name (time_now e) w2)
      as [->|(z & -> & _)]; cbn; now lookups.
  - cbn. now lookups.
Qed.

(** X20.  What completion changes in the record of a job, and what it keeps.
    For an active job of an observable world whose handle takes the pause,
    the record filed by the completion step has the id, name, total size,
    upload count, ratio, save path and submission time that the status query
    showed for the same status snapshot; the state becomes "completed", the
    progress 100, both rates and both counts 0, the eta 0, and the
    downloaded count the total size, whatever was downloaded. *)
Theorem completion_keeps_what_was_shown (live : gset string) (e : env)
    (tid : string) (h : lt.torrent_handle) (st : lt.torrent_status) (w : world)
    (shown : TorrentInfo.t) :
  reach live w ->
  torrents w !! tid = Some h ->
  lt.status h = Some st ->
  lt.control_ok h = true ->
  get_torrent_info tid w = Ok shown ->
  ∃ filed,
    get_torrent_info tid (stop_if_completed e tid h st w) = Ok filed
    ∧ TorrentInfo.id filed = TorrentInfo.id shown
    ∧ TorrentInfo.name filed = TorrentInfo.name shown
    ∧ TorrentInfo.total_size filed = TorrentInfo.total_size shown
    ∧ TorrentInfo.uploaded filed = TorrentInfo.uploaded shown
    ∧ TorrentInfo.ratio filed = TorrentInfo.ratio shown
    ∧ TorrentInfo.save_path filed = TorrentInfo.save_path shown
    ∧ TorrentInfo.added_time filed = TorrentInfo.added_time shown
    ∧ TorrentInfo.state filed = "completed"
    ∧ TorrentInfo.progress filed = 100%Q
    ∧ TorrentInfo.download_rate filed = 0
    ∧ TorrentInfo.upload_rate filed = 0
    ∧ TorrentInfo.num_peers filed = 0
    ∧ TorrentInfo.num_seeds filed = 0
    ∧ TorrentInfo.eta filed = 0
    ∧ TorrentInfo.downloaded filed = TorrentInfo.total_size shown.
Proof.
  intros Hr Ht Hst Hc Hshown.
  destruct (reach_both _ _ Hr) as [Hw Hd].
  assert (Metadata.stopped_on_complete (metadata_of tid w) = false) as Hg
    by (apply (active_unguarded _ _ Hw); eauto).
  destruct (active_metadata _ Hd tid) as (m & Hm & _ & _ & (added & Ha) & _);
    [eauto|].
  assert (metadata_of tid w = m) as Hmo by (unfold metadata_of; now rewrite Hm).
  destruct (stop_if_completed_record e tid h st w Hg Hc) as (E1 & E2 & _).
  eexists. split.
  { unfold get_torrent_info at 1. rewrite E1, E2. reflexivity. }
  revert Hshown. unfold get_torrent_info. rewrite Ht, Hst, ratio_defined.
  destruct (if 0 <? lt.download_rate st then _ else _) as [eta|]; [|discriminate].
  intros [= <-]. cbn. rewrite Hmo, Ha. cbn. repeat split; reflexivity.
Qed.

Lemma completion_keeps_what_was_shown_witness :
  ∃ filed,
    get_torrent_info "job-1"
      (stop_if_completed Example.late "job-1" (Sample.handle 1 true)
         (Sample.status 1) (Sample.submitted 1 true Sample.files_on_disk))
    = Ok filed
    ∧ TorrentInfo.added_time filed = 100
    ∧ TorrentInfo.state filed = "completed".
Proof.
  destruct (completion_keeps_what_was_shown
              (Sample.submitted_live 1 true Sample.files_on_disk) Example.late
              "job-1" (Sample.handle 1 true) (Sample.status 1)
              (Sample.submitted 1 true Sample.files_on_disk)
              {| TorrentInfo.id := "job-1";
                 TorrentInfo.name := "album";
                 TorrentInfo.state := "downloading";
                 TorrentInfo.progress := (1 * 100)%Q;
                 TorrentInfo.download_rate := 0;
                 TorrentInfo.upload_rate := 7;
                 TorrentInfo.num_peers := 3;
                 TorrentInfo.num_seeds := 2;
                 TorrentInfo.total_size := 30;
                 TorrentInfo.downloaded := 30;
                 TorrentInfo.uploaded := 50;
                 TorrentInfo.ratio := (inject_Z 50 / inject_Z 500)%Q;
                 TorrentInfo.eta := -1;
                 TorrentInfo.save_path := DOWNLOAD_DIR;
                 TorrentInfo.added_time := 100 |}
              sample_run_reach)
    as (filed & Hf & _ & _ & _ & _ & _ & _ & Ha & Hs & _).
  - vm_compute. reflexivity.
  - reflexivity.
  - reflexivity.
  - vm_compute. reflexivity.
  - exists filed. split; [exact Hf|]. split; [exact Ha | exact Hs].
Defined.

(** X21.  A job with a single file never gets an archive from completion.
    When the completion step goes through for a manifest of one file that is
    on disk, no archive is written, and every later request with no selector
    is answered with that file itself, under its own name, and writes
    nothing. *)
Theorem single_file_served_directly (e e' : env) (tid : string)
    (h : lt.torrent_handle) (st : lt.torrent_status) (info : lt.torrent_info)
    (rel_path : string) (size : Z) (file : option string) (w : world) :
  Metadata.stopped_on_complete (metadata_of tid w) = false ->
  lt.control_ok h = true ->
  lt.get_torrent_info h = Some info ->
  lt.files info = [(rel_path, size)] ->
  pathlib.joinpath
    (pathlib.parse (default DOWNLOAD_DIR (Metadata.save_path (metadata_of tid w))))
    (pathlib.parse rel_path) ∈ disk w ->
  selector file = None ->
  temp_zips (stop_if_completed e tid h st w) = temp_zips w
  ∧ download_torrent_files e' tid file (stop_if_completed e tid h st w)
    = (stop_if_completed e tid h st w,
       Ok {| path :=
               pathlib.joinpath
                 (pathlib.parse
                    (default DOWNLOAD_DIR (Metadata.save_path (metadata_of tid w))))
                 (pathlib.parse rel_path);
             filename :=
               pathlib.name
                 (pathlib.joinpath
                    (pathlib.parse
                       (default DOWNLOAD_DIR
                                (Metadata.save_path (metadata_of tid w))))
                    (pathlib.parse rel_path));
             media_type := "application/octet-stream" |}).
Proof.
  intros Hg Hc Hinfo Hfiles Hdisk Hsel.
  destruct (stop_if_completed_record e tid h st w Hg Hc) as (E1 & _ & _ & E4 & E5).
  rewrite Hinfo, Hfiles in E4. cbn [file_entries List.map] in E4.
  split.
  - rewrite (stop_if_completed_run e tid h st w Hg Hc). cbv zeta.
    rewrite Hinfo, Hfiles. reflexivity.
  - unfold download_torrent_files, get_torrent_files. rewrite E1, E4.
    cbn [CompletedFiles.files CompletedFiles.name]. unfold existing.
    cbn [List.filter FileEntry.absolute_path]. rewrite E5.
    rewrite bool_decide_eq_true_2 by exact Hdisk.
    rewrite Hsel. reflexivity.
Qed.

Lemma single_file_served_directly_witness :
  temp_zips
    (stop_if_completed Example.late "job-1" Example.single_handle (Sample.status 1)
       (Sample.submitted 1 true Sample.files_on_disk))
  = temp_zips (Sample.submitted 1 true Sample.files_on_disk)
  ∧ download_torrent_files Example.late "job-1" None
      (stop_if_completed Example.late "job-1" Example.single_handle
         (Sample.status 1) (Sample.submitted 1 true Sample.files_on_disk))
    = (stop_if_completed Example.late "job-1" Example.single_handle
         (Sample.status 1) (Sample.submitted 1 true Sample.files_on_disk),
       Ok {| path := Sample.album_path "a.flac";
             filename := "a.flac";
             media_type := "application/octet-stream" |}).
Proof.
  apply (single_file_served_directly Example.late Example.late "job-1"
           Example.single_handle (Sample.status 1) Example.single
           "album/a.flac" 10 None
           (Sample.submitted 1 true Sample.files_on_disk)).
  - vm_compute. reflexivity.
  - reflexivity.
  - reflexivity.
  - reflexivity.
  - vm_compute. reflexivity.
  - reflexivity.
Defined.

(** X22.  A removed job is unknown.  After a removal that succeeded in an
    observable world the id names nothing any more, it is no longer among the
    live ids, and every operation on it answers 404 and changes nothing: the
    status query, the file listing, a download with any selector, pause,
    resume and a second removal. *)
Theorem removed_job_is_unknown (live : gset string) (tid : string)
    (delete_files : bool) (w w' : world) :
  reach live w ->
  remove_torrent tid delete_files w = (w', Ok tt) ->
  unused tid w'
  ∧ (tid ∉ live_after (Remove tid delete_files) w live)
  ∧ get_torrent_info tid w' = Err 404 msg_not_found
  ∧ list_torrent_files tid w' = Err 404 "Torrent not found or already stopped"
  ∧ (∀ e file, download_torrent_files e tid file w'
               = (w', Err 404 "Torrent not found or already stopped"))
  ∧ pause_torrent tid w' = (w', Err 404 msg_not_found)
  ∧ resume_torrent tid w' = (w', Err 404 msg_not_found)
  ∧ (∀ again, remove_torrent tid again w' = (w', Err 404 msg_not_found)).
Proof.
  intros Hr Hrm. pose proof (reach_coherent _ _ Hr) as Hw.
  assert (unused tid w') as Hu.
  { revert Hrm. unfold remove_torrent, unused.
    destruct (torrents w !! tid) as [h|] eqn:Ht.
    - intros [= <-]. cbn. lookups.
      assert (completed_torrents w !! tid = None) as Hc.
      { destruct (completed_torrents w !! tid) eqn:E; [|reflexivity].
        destruct (active_xor_completed _ _ Hw tid). rewrite Ht, E. eauto. }
      assert (completed_files w !! tid = None) as Hf.
      { destruct (completed_files w !! tid) eqn:E; [|reflexivity].
        destruct (files_completed _ _ Hw tid) as [? Hn]; [eauto|]. congruence. }
      auto.
    - destruct (completed_torrents w !! tid) as [info|]; [|discriminate].
      destruct delete_files; intros [= <-]; cbn; lookups; auto. }
  destruct Hu as (U1 & U2 & U3 & U4 & U5).
  split; [repeat split; assumption|]. split.
  { cbn [live_after]. rewrite Hrm. cbn.
    apply not_elem_of_difference. right. now apply elem_of_singleton. }
  unfold get_torrent_info, list_torrent_files, download_torrent_files,
    get_torrent_files, pause_torrent, resume_torrent, remove_torrent.
  rewrite U1, U3, U4. repeat split.
Qed.

Lemma removed_job_is_unknown_witness :
  unused "job-1" (fst (remove_torrent "job-1" true Sample.finished))
  ∧ get_torrent_info "job-1" (fst (remove_torrent "job-1" true Sample.finished))
    = Err 404 msg_not_found.
Proof.
  destruct (removed_job_is_unknown
              (Sample.submitted_live 1 true Sample.files_on_disk) "job-1" true
              Sample.finished (fst (remove_torrent "job-1" true Sample.finished))
              sample_finished_reach)
    as (Hu & _ & Hq & _).
  - vm_compute. reflexivity.
  - split; [exact Hu | exact Hq].
Defined.

End Lifecycle.
